(** * treeshake-check: the source-level dependency analysis engine

    A shallow embedding of [src/utils/strip-literals.ts] (the text
    normalizer), [src/analyzers/exports.ts] (fallback extractor, module
    resolver, graph builder, unused-export and cycle detectors) and the
    report stage of [src/cli/commands.ts], with the properties of the
    engine stated and proved over it.

    Conventions of the embedding
    - a JavaScript string is a list of characters ([str]); a character is a
      UTF-16 code unit below 256 ([ascii]);
    - [Map] and [Set] are insertion-ordered association lists and
      duplicate-free lists, since JavaScript iterates them in insertion
      order and the traversals below depend on that order;
    - the platform (node's [fs] and [path] modules, the acorn parser) is
      taken as a parameter of the sections that use it. *)

From Stdlib Require Import Ascii String DecimalString Bool Arith ZArith Lia.
From Stdlib Require Import Permutation Sorted Relation_Operators List.
Import ListNotations.

Set Implicit Arguments.
Local Open Scope char_scope.
Local Open Scope nat_scope.
Local Open Scope list_scope.

(* ================================================================== *)
(** ** Strings *)
(* ================================================================== *)

Definition str := list ascii.

(** A string literal of the source. *)
Definition lit (x : string) : str := list_ascii_of_string x.

Definition nl : ascii := "010".
Definition sp : ascii := " ".
Definition dquote : ascii := ascii_of_nat 34.
Definition squote : ascii := "'".
Definition bslash : ascii := "\".
Definition btick : ascii := "`".

Definition ceq (a b : ascii) : bool := Ascii.eqb a b.

Fixpoint str_eqb (a b : str) : bool :=
  match a, b with
  | [], [] => true
  | x :: a', y :: b' => ceq x y && str_eqb a' b'
  | _, _ => false
  end.

(** [s.startsWith(p)] *)
Fixpoint startsWith (s p : str) : bool :=
  match p, s with
  | [], _ => true
  | x :: p', y :: s' => ceq x y && startsWith s' p'
  | _ :: _, [] => false
  end.

(** [s.endsWith(p)] *)
Definition endsWith (s p : str) : bool := startsWith (rev s) (rev p).

(** [s.slice(0, -n)] *)
Definition slice_end (s : str) (n : nat) : str := firstn (length s - n) s.

(** [s.includes(p)] *)
Fixpoint includes (s p : str) : bool :=
  startsWith s p ||
  match s with
  | [] => false
  | _ :: s' => includes s' p
  end.

(** [s[i]], [None] standing for [undefined]. *)
Definition charAt (s : str) (i : nat) : option ascii := nth_error s i.

(* ================================================================== *)
(** ** Text normalizer ([stripLiteralsAndComments]) *)
(* ================================================================== *)

Module Normalizer.

(** What a masked position receives: the newline itself, else a blank. *)
Definition blank (c : ascii) : ascii := if ceq c nl then nl else sp.

(** Every inner [while] loop of the source is a function from the text at
    index [i] to the characters it pushes and the text at the index where
    it leaves the loop. *)

(** The loop after [//]: runs up to, and not over, the next newline. *)
Fixpoint lineCommentLoop (s : str) : str * str :=
  match s with
  | [] => ([], [])
  | c :: s' =>
      if ceq c nl then ([], s)
      else let (o, r) := lineCommentLoop s' in (sp :: o, r)
  end.

(** The loop after [/*]. *)
Fixpoint blockCommentLoop (s : str) : str * str :=
  match s with
  | [] => ([], [])
  | c :: s' =>
      match s' with
      | c2 :: s'' =>
          if ceq c "*" && ceq c2 "/" then ([sp; sp], s'')
          else let (o, r) := blockCommentLoop s' in (blank c :: o, r)
      | [] => ([blank c], [])
      end
  end.

(** The loop after an opening backtick, with its [depth] counter. *)
Fixpoint templateLoop (depth : nat) (s : str) : str * str :=
  match s with
  | [] => ([], [])
  | c :: s' =>
      let single :=
        if ceq c "}" && (0 <? depth) then
          let (o, r) := templateLoop (depth - 1) s' in (sp :: o, r)
        else if ceq c btick && (depth =? 0) then ([sp], s')
        else let (o, r) := templateLoop depth s' in (blank c :: o, r) in
      match s' with
      | c2 :: s'' =>
          if ceq c bslash then
            let (o, r) := templateLoop depth s'' in (sp :: sp :: o, r)
          else if ceq c "$" && ceq c2 "{" then
            let (o, r) := templateLoop (S depth) s'' in (sp :: sp :: o, r)
          else single
      | [] => single
      end
  end.

(** The loop after an opening [quote]. *)
Fixpoint stringLoop (quote : ascii) (s : str) : str * str :=
  match s with
  | [] => ([], [])
  | c :: s' =>
      let single :=
        if ceq c quote then ([sp], s')
        else if ceq c nl then ([nl], s')
        else let (o, r) := stringLoop quote s' in (sp :: o, r) in
      match s' with
      | c2 :: s'' =>
          if ceq c bslash then
            let (o, r) := stringLoop quote s'' in (sp :: sp :: o, r)
          else single
      | [] => single
      end
  end.

(** [source[i + 1] === c], false when [source[i + 1]] is [undefined]. *)
Definition is_char (x : option ascii) (c : ascii) : bool :=
  match x with Some y => ceq y c | None => false end.

(** The outer loop.  Each iteration consumes at least one character, so
    [length s] iterations always suffice; [fuel] counts them. *)
Fixpoint stripLoop (fuel : nat) (s : str) : str :=
  match fuel with
  | 0 => []
  | S fuel' =>
      match s with
      | [] => []
      | ch :: s' =>
          let next := hd_error s' in
          if ceq ch "/" && is_char next "/" then
            let (o, r) := lineCommentLoop (tl s') in
            sp :: sp :: o ++ stripLoop fuel' r
          else if ceq ch "/" && is_char next "*" then
            let (o, r) := blockCommentLoop (tl s') in
            sp :: sp :: o ++ stripLoop fuel' r
          else if ceq ch btick then
            let (o, r) := templateLoop 0 s' in
            sp :: o ++ stripLoop fuel' r
          else if ceq ch squote || ceq ch dquote then
            let (o, r) := stringLoop ch s' in
            sp :: o ++ stripLoop fuel' r
          else ch :: stripLoop fuel' s'
      end
  end.

Definition stripLiteralsAndComments (source : str) : str :=
  stripLoop (length source) source.

End Normalizer.


(* ================================================================== *)
(** ** Regular expressions

    The fallback extractor drives JavaScript's backtracking [RegExp]
    engine.  [regex] has the constructs the patterns of the source use;
    [run] is the engine's backtracking matcher in continuation-passing
    style: alternatives are tried left to right, quantifiers are greedy,
    and the first overall success wins. *)
(* ================================================================== *)

Module Regex.

(** [\s] (and what [trim] removes), on code units below 256. *)
Definition is_space (c : ascii) : bool :=
  let n := nat_of_ascii c in
  ((9 <=? n) && (n <=? 13)) || (n =? 32) || (n =? 160).

Definition is_digit (c : ascii) : bool :=
  let n := nat_of_ascii c in (48 <=? n) && (n <=? 57).

Definition is_alpha (c : ascii) : bool :=
  let n := nat_of_ascii c in
  ((65 <=? n) && (n <=? 90)) || ((97 <=? n) && (n <=? 122)).

(** [\w] *)
Definition is_word (c : ascii) : bool :=
  is_alpha c || is_digit c || ceq c "_".

(** [[a-zA-Z_$]] and [[a-zA-Z0-9_$]] *)
Definition is_ident_start (c : ascii) : bool :=
  is_alpha c || ceq c "_" || ceq c "$".
Definition is_ident_part (c : ascii) : bool :=
  is_alpha c || is_digit c || ceq c "_" || ceq c "$".

(** The classes [not a closing brace] and [not a quote], and the class
    of the two quote characters. *)
Definition not_rbrace (c : ascii) : bool := negb (ceq c "}").
Definition not_quote (c : ascii) : bool :=
  negb (ceq c squote || ceq c dquote).
Definition is_quote (c : ascii) : bool := ceq c squote || ceq c dquote.

Inductive regex : Type :=
| RLit (s : str)                  (* a literal run of characters *)
| RSet (p : ascii -> bool)        (* one character of a class *)
| RStar (p : ascii -> bool)       (* [class]*, greedy *)
| RPlus (p : ascii -> bool)       (* [class]+, greedy *)
| RSeq (a b : regex)
| RAlt (a b : regex)              (* a|b *)
| ROpt (a : regex)                (* (?:a)?, greedy *)
| RGroup (n : nat) (a : regex)    (* the n-th capturing group *)
| RWordB                          (* \b *)
| RNotAhead (a : regex).          (* (?!a) *)

(** The matcher's position: the character before the cursor, the index of
    the cursor, the text from the cursor on, and the captures so far. *)
Record mstate : Type := MState {
  m_prev : option ascii;
  m_pos : nat;
  m_rest : str;
  m_caps : list (nat * str)
}.

Definition cont := mstate -> option mstate.

Definition word_opt (x : option ascii) : bool :=
  match x with Some c => is_word c | None => false end.

Fixpoint litLoop (s : str) (k : cont) (prev : option ascii) (pos : nat)
    (rest : str) (caps : list (nat * str)) : option mstate :=
  match s with
  | [] => k (MState prev pos rest caps)
  | x :: s' =>
      match rest with
      | c :: rest' =>
          if ceq x c then litLoop s' k (Some c) (S pos) rest' caps else None
      | [] => None
      end
  end.

(** Greedy repetition of a class: the longest run first, then shorter
    ones as the continuation fails. *)
Fixpoint starLoop (p : ascii -> bool) (k : cont) (prev : option ascii)
    (pos : nat) (rest : str) (caps : list (nat * str)) : option mstate :=
  match rest with
  | c :: rest' =>
      if p c then
        match starLoop p k (Some c) (S pos) rest' caps with
        | Some r => Some r
        | None => k (MState prev pos rest caps)
        end
      else k (MState prev pos rest caps)
  | [] => k (MState prev pos rest caps)
  end.

Fixpoint run (r : regex) (k : cont) (st : mstate) : option mstate :=
  match r with
  | RLit s => litLoop s k (m_prev st) (m_pos st) (m_rest st) (m_caps st)
  | RSet p =>
      match m_rest st with
      | c :: rest' =>
          if p c then k (MState (Some c) (S (m_pos st)) rest' (m_caps st))
          else None
      | [] => None
      end
  | RStar p => starLoop p k (m_prev st) (m_pos st) (m_rest st) (m_caps st)
  | RPlus p =>
      match m_rest st with
      | c :: rest' =>
          if p c then starLoop p k (Some c) (S (m_pos st)) rest' (m_caps st)
          else None
      | [] => None
      end
  | RSeq a b => run a (run b k) st
  | RAlt a b =>
      match run a k st with
      | Some r => Some r
      | None => run b k st
      end
  | ROpt a =>
      match run a k st with
      | Some r => Some r
      | None => k st
      end
  | RGroup n a =>
      run a (fun st' =>
               k (MState (m_prev st') (m_pos st') (m_rest st')
                    ((n, firstn (m_pos st' - m_pos st) (m_rest st))
                       :: m_caps st')))
          st
  | RWordB =>
      if xorb (word_opt (m_prev st)) (word_opt (hd_error (m_rest st)))
      then k st else None
  | RNotAhead a =>
      match run a (fun st' => Some st') st with
      | Some _ => None
      | None => k st
      end
  end.

(** A match object: [match.index], the length of [match[0]], the groups. *)
Record rmatch : Type := RMatch {
  index : nat;
  mlen : nat;
  groups : list (nat * str)
}.

(** [match[n]]; [None] is [undefined]. *)
Fixpoint group (n : nat) (caps : list (nat * str)) : option str :=
  match caps with
  | [] => None
  | (m, s) :: caps' => if n =? m then Some s else group n caps'
  end.

(** One attempt at index [pos]. *)
Definition exec (r : regex) (prev : option ascii) (pos : nat) (s : str)
    : option rmatch :=
  match run r (fun st' => Some st') (MState prev pos s []) with
  | Some st' => Some (RMatch pos (m_pos st' - pos) (m_caps st'))
  | None => None
  end.

(** The scan of a global pattern: the next attempt starts where the last
    match ended (one further after an empty match).  [skip] counts the
    characters of the last match still to step over. *)
Fixpoint scan (r : regex) (prev : option ascii) (pos : nat) (s : str)
    (skip : nat) : list rmatch :=
  match skip with
  | S skip' =>
      match s with
      | [] => []
      | c :: s' => scan r (Some c) (S pos) s' skip'
      end
  | 0 =>
      match exec r prev pos s with
      | Some m =>
          m :: match s with
               | [] => []
               | c :: s' => scan r (Some c) (S pos) s' (mlen m - 1)
               end
      | None =>
          match s with
          | [] => []
          | c :: s' => scan r (Some c) (S pos) s' 0
          end
      end
  end.

(** [text.matchAll(r)] for a pattern with the [g] flag. *)
Definition matchAll (r : regex) (text : str) : list rmatch :=
  scan r None 0 text 0.

(** [r.test(text)] for a pattern without flags: is there a match at any
    index. *)
Fixpoint testFrom (r : regex) (prev : option ascii) (pos : nat) (s : str)
    : bool :=
  match exec r prev pos s with
  | Some _ => true
  | None =>
      match s with
      | [] => false
      | c :: s' => testFrom r (Some c) (S pos) s'
      end
  end.

Definition test (r : regex) (text : str) : bool := testFrom r None 0 text.

(** [text.split(r)]: the pieces between the matches of [r].  [cur] holds,
    reversed, the piece under construction. *)
Fixpoint splitLoop (r : regex) (prev : option ascii) (pos : nat) (s : str)
    (skip : nat) (cur : str) : list str :=
  match s with
  | [] => [rev cur]
  | c :: s' =>
      match skip with
      | S skip' => splitLoop r (Some c) (S pos) s' skip' cur
      | 0 =>
          match exec r prev pos s with
          | Some m =>
              match mlen m with
              | 0 =>
                  match cur with
                  | [] => splitLoop r (Some c) (S pos) s' 0 [c]
                  | _ => rev cur :: splitLoop r (Some c) (S pos) s' 0 [c]
                  end
              | S l => rev cur :: splitLoop r (Some c) (S pos) s' l []
              end
          | None => splitLoop r (Some c) (S pos) s' 0 (c :: cur)
          end
      end
  end.

Definition split (r : regex) (text : str) : list str :=
  match text with
  | [] => match exec r None 0 [] with Some _ => [] | None => [[]] end
  | _ => splitLoop r None 0 text 0 []
  end.

End Regex.

(** [text.split(c)] for a one-character separator. *)
Fixpoint splitChar (c : ascii) (s : str) : list str :=
  match s with
  | [] => [[]]
  | x :: s' =>
      if ceq x c then [] :: splitChar c s'
      else match splitChar c s' with
           | [] => [[x]]
           | piece :: pieces => (x :: piece) :: pieces
           end
  end.

(** [s.trim()] *)
Fixpoint trimStart (s : str) : str :=
  match s with
  | [] => []
  | c :: s' => if Regex.is_space c then trimStart s' else s
  end.

Definition trim (s : str) : str := rev (trimStart (rev (trimStart s))).

(* ================================================================== *)
(** ** Sets and maps of the source

    [Set<string>] is a duplicate-free list in insertion order,
    [Map<string, V>] an association list in insertion order of the keys. *)
(* ================================================================== *)

Definition set_has (s : list str) (x : str) : bool := existsb (str_eqb x) s.

Definition set_add (s : list str) (x : str) : list str :=
  if set_has s x then s else s ++ [x].

Definition set_delete (s : list str) (x : str) : list str :=
  filter (fun y => negb (str_eqb x y)) s.

Section Maps.
Variable V : Type.

Fixpoint map_get (m : list (str * V)) (k : str) : option V :=
  match m with
  | [] => None
  | (k', v) :: m' => if str_eqb k k' then Some v else map_get m' k
  end.

(** [m.set(k, v)]: an existing key keeps its place. *)
Fixpoint map_set (m : list (str * V)) (k : str) (v : V) : list (str * V) :=
  match m with
  | [] => [(k, v)]
  | (k', v') :: m' =>
      if str_eqb k k' then (k', v) :: m' else (k', v') :: map_set m' k v
  end.

Definition map_has (m : list (str * V)) (k : str) : bool :=
  match map_get m k with Some _ => true | None => false end.

End Maps.

(* ================================================================== *)
(** ** The platform: node's [fs] and [path] modules and the acorn parser *)
(* ================================================================== *)

(** The part of acorn's tree that the visitors of [buildExportGraph] read.
    A name is [None] where the source reads [undefined] through [?.name]
    (a string-literal export name, a destructuring pattern). *)
Record Specifier : Type := {
  spec_local : option str;
  spec_exported : option str
}.

Inductive Declaration : Type :=
| VariableDeclaration (declarations : list (option str))
| OtherDeclaration (id : option str).

Inductive ImportSpec : Type :=
| ImportSpecifier (imported : option str)
| ImportDefaultSpecifier
| ImportNamespaceSpecifier.

Inductive Node : Type :=
| ExportNamedDeclaration (specifiers : list Specifier)
    (source : option str) (declaration : option Declaration)
| ExportDefaultDeclaration
| ExportAllDeclaration (source : option str)
| ImportDeclaration (source : option str) (specifiers : list ImportSpec)
| OtherNode.

(** Calls that can throw return an [option], [None] being the throw.
    [acornParse] returns the nodes of the program in the order in which
    [walk.simple] visits them. *)
Record Platform : Type := {
  readFileSync : str -> option str;
  existsSync : str -> bool;
  statIsDirectory : str -> option bool;
  dirname : str -> str;
  resolve : str -> str -> str;
  join : str -> str -> str;
  relative : str -> str -> str;
  acornParse : str -> option (list Node)
}.

(** JavaScript truthiness of a string, and of a possibly undefined one. *)
Definition truthy (s : str) : bool :=
  match s with [] => false | _ => true end.

Definition truthy_opt (s : option str) : bool :=
  match s with Some x => truthy x | None => false end.

(* ================================================================== *)
(** ** Module resolver *)
(* ================================================================== *)

Module Resolver.
Section Resolver.
Variable pf : Platform.

Definition RESOLVE_EXTENSIONS : list str :=
  [lit ".ts"; lit ".tsx"; lit ".js"; lit ".jsx"; lit ".mjs"; lit ".mts"].

(** [for (const p of candidates) if (existsSync(p)) return p] *)
Fixpoint firstExisting (candidates : list str) : option str :=
  match candidates with
  | [] => None
  | p :: rest => if existsSync pf p then Some p else firstExisting rest
  end.

Definition resolveIndexFile (dirPath : str) : option str :=
  firstExisting
    (map (fun ext => join pf dirPath (lit "index" ++ ext))
       RESOLVE_EXTENSIONS).

(** [x || y] on a string or null [x]. *)
Definition orElse (x : option str) (y : str) : str :=
  match x with
  | Some s => if truthy s then s else y
  | None => y
  end.

Definition resolveImportPath (fromFile importPath : str) : str :=
  if startsWith importPath (lit ".") then
    let dir := dirname pf fromFile in
    let resolved := resolve pf dir importPath in
    if existsSync pf resolved then
      match statIsDirectory pf resolved with
      | Some true => orElse (resolveIndexFile resolved) resolved
      | _ => resolved
      end
    else
      match firstExisting
              (map (fun ext => resolved ++ ext) RESOLVE_EXTENSIONS) with
      | Some withExt => withExt
      | None =>
          let ts :=
            if endsWith resolved (lit ".js") then
              firstExisting
                (map (fun ext => slice_end resolved 3 ++ ext)
                   [lit ".ts"; lit ".tsx"; lit ".js"])
            else if endsWith resolved (lit ".jsx") then
              firstExisting
                (map (fun ext => slice_end resolved 4 ++ ext)
                   [lit ".tsx"; lit ".jsx"])
            else None in
          match ts with
          | Some p => p
          | None =>
              match resolveIndexFile resolved with
              | Some indexResolved =>
                  if truthy indexResolved then indexResolved else resolved
              | None => resolved
              end
          end
      end
  else importPath.

End Resolver.
End Resolver.

(* ================================================================== *)
(** ** Extraction of exports and imports *)
(* ================================================================== *)

Record ImportRecord : Type := {
  importedName : str;
  sourceFile : str
}.

Module Fallback.
Import Regex.

Fixpoint rcat (rs : list regex) : regex :=
  match rs with
  | [] => RLit []
  | [r] => r
  | r :: rs' => RSeq r (rcat rs')
  end.

Fixpoint ralt (rs : list regex) : regex :=
  match rs with
  | [] => RLit []
  | [r] => r
  | r :: rs' => RAlt r (ralt rs')
  end.

Definition kw (x : string) : regex := RLit (lit x).
Definition ws1 : regex := RPlus is_space.
Definition ident : regex := RSeq (RSet is_ident_start) (RStar is_ident_part).
(** A quoted specifier whose text is the group [n]. *)
Definition quoted (n : nat) : regex :=
  rcat [RSet is_quote; RGroup n (RPlus not_quote); RSet is_quote].

(** The patterns, in the order in which the source declares them. *)
Definition exportDefaultRegex : regex :=
  rcat [RWordB; kw "export"; ws1; kw "default"; RWordB].

Definition namedExportDeclRegex : regex :=
  rcat [RWordB; kw "export"; ws1;
        ralt [kw "const"; kw "let"; kw "var";
              RSeq (kw "function") (ROpt (kw "*"));
              kw "class"; kw "enum";
              rcat [kw "abstract"; ws1; kw "class"]];
        ws1; RGroup 1 ident].

Definition exportBraceRegex : regex :=
  rcat [RWordB; kw "export"; ws1; kw "{"; RGroup 1 (RPlus not_rbrace);
        kw "}";
        ROpt (rcat [ws1; kw "from"; ws1; quoted 2])].

Definition exportAllRegex : regex :=
  rcat [RWordB; kw "export"; ws1; kw "*"; ws1; kw "from"; ws1; quoted 1].

Definition tsExportTypeRegex : regex :=
  rcat [RWordB; kw "export"; ws1; ralt [kw "type"; kw "interface"];
        ws1; RGroup 1 ident].

Definition notType : regex := RNotAhead (RSeq (kw "type") RWordB).

Definition namedImportRegex : regex :=
  rcat [RWordB; kw "import"; ws1; notType; kw "{";
        RGroup 1 (RPlus not_rbrace); kw "}"; ws1; kw "from"; ws1; quoted 2].

Definition defaultImportRegex : regex :=
  rcat [RWordB; kw "import"; ws1; notType; RGroup 1 ident;
        ws1; kw "from"; ws1; quoted 2].

Definition namespaceImportRegex : regex :=
  rcat [RWordB; kw "import"; ws1; kw "*"; ws1; kw "as"; ws1; ident;
        ws1; kw "from"; ws1; quoted 1].

(** The separator of a renamed binding, [/\s+as\s+/]. *)
Definition asRegex : regex := rcat [ws1; kw "as"; ws1].

(** [match[n]], the empty string standing for a group that took no part. *)
Definition grp (n : nat) (m : rmatch) : str :=
  match group n (groups m) with Some s => s | None => [] end.

(** [strippedContent[index] !== " "] *)
Definition inCode (strippedContent : str) (idx : nat) : bool :=
  negb (Normalizer.is_char (nth_error strippedContent idx) sp).

(** [names.split(",").map(s => s.trim().split(/\s+as\s+/).pop().trim())] *)
Definition exportedNames (names : str) : list str :=
  map (fun s => trim (last (split asRegex (trim s)) []))
    (splitChar "," names).

(** [names.split(",").map(s => s.trim().split(/\s+as\s+/)[0].trim())] *)
Definition localNames (names : str) : list str :=
  map (fun s => trim (hd [] (split asRegex (trim s))))
    (splitChar "," names).

Section Fallback.
Variable pf : Platform.

Definition extraction : Type := (list str * list ImportRecord)%type.

Definition addExports (names : list str) (fileExports : list str)
    : list str :=
  fold_left (fun acc name => if truthy name then set_add acc name else acc)
    names fileExports.

Definition pushImports (file source : str) (names : list str)
    (fileImports : list ImportRecord) : list ImportRecord :=
  fold_left
    (fun acc name =>
       if truthy name then
         acc ++ [{| importedName := name;
                    sourceFile := Resolver.resolveImportPath pf file source |}]
       else acc)
    names fileImports.

(** The body of each [for (const match of ...)] loop. *)
Definition declStep (strippedContent : str) (acc : extraction) (m : rmatch)
    : extraction :=
  if negb (inCode strippedContent (index m)) then acc
  else (set_add (fst acc) (grp 1 m), snd acc).

Definition exportBraceStep (strippedContent file : str) (acc : extraction)
    (m : rmatch) : extraction :=
  if negb (inCode strippedContent (index m)) then acc
  else
    let exps := addExports (exportedNames (grp 1 m)) (fst acc) in
    if truthy_opt (group 2 (groups m)) then
      (exps, pushImports file (grp 2 m) (localNames (grp 1 m)) (snd acc))
    else (exps, snd acc).

Definition exportAllStep (strippedContent file : str) (acc : extraction)
    (m : rmatch) : extraction :=
  if negb (inCode strippedContent (index m)) then acc
  else
    (set_add (fst acc) (lit "* from " ++ grp 1 m),
     snd acc ++ [{| importedName := lit "*";
                    sourceFile :=
                      Resolver.resolveImportPath pf file (grp 1 m) |}]).

Definition namedImportStep (strippedContent file : str) (acc : extraction)
    (m : rmatch) : extraction :=
  if negb (inCode strippedContent (index m)) then acc
  else (fst acc, pushImports file (grp 2 m) (localNames (grp 1 m)) (snd acc)).

Definition defaultImportStep (strippedContent file : str) (acc : extraction)
    (m : rmatch) : extraction :=
  if negb (inCode strippedContent (index m)) then acc
  else
    (fst acc,
     snd acc ++ [{| importedName := lit "default";
                    sourceFile :=
                      Resolver.resolveImportPath pf file (grp 2 m) |}]).

Definition namespaceImportStep (strippedContent file : str)
    (acc : extraction) (m : rmatch) : extraction :=
  if negb (inCode strippedContent (index m)) then acc
  else
    (fst acc,
     snd acc ++ [{| importedName := lit "*";
                    sourceFile :=
                      Resolver.resolveImportPath pf file (grp 1 m) |}]).

Definition extractExportsAndImportsViaRegex (content strippedContent : str)
    (file : str) (fileExports : list str) (fileImports : list ImportRecord)
    : extraction :=
  let a0 : extraction :=
    (if test exportDefaultRegex strippedContent
     then set_add fileExports (lit "default") else fileExports,
     fileImports) in
  let a1 := fold_left (declStep strippedContent)
              (matchAll namedExportDeclRegex strippedContent) a0 in
  let a2 := fold_left (exportBraceStep strippedContent file)
              (matchAll exportBraceRegex content) a1 in
  let a3 := fold_left (exportAllStep strippedContent file)
              (matchAll exportAllRegex content) a2 in
  let a4 := fold_left (declStep strippedContent)
              (matchAll tsExportTypeRegex strippedContent) a3 in
  let a5 := fold_left (namedImportStep strippedContent file)
              (matchAll namedImportRegex content) a4 in
  let a6 := fold_left (defaultImportStep strippedContent file)
              (matchAll defaultImportRegex content) a5 in
  fold_left (namespaceImportStep strippedContent file)
    (matchAll namespaceImportRegex content) a6.

End Fallback.
End Fallback.

Module Primary.
Section Primary.
Variable pf : Platform.

(** [a?.name || b?.name] *)
Definition orName (a b : option str) : option str :=
  if truthy_opt a then a else b.

Definition addName (name : option str) (fileExports : list str) : list str :=
  match name with
  | Some n => if truthy n then set_add fileExports n else fileExports
  | None => fileExports
  end.

(** The body of the loop over [node.specifiers] of an
    [ExportNamedDeclaration]. *)
Definition exportSpecifierStep (file : str) (source : option str)
    (acc : Fallback.extraction) (spec : Specifier) : Fallback.extraction :=
  let exps := addName (orName (spec_exported spec) (spec_local spec))
                (fst acc) in
  match source with
  | Some value =>
      if truthy value then
        match spec_local spec with
        | Some localName =>
            if truthy localName then
              (exps,
               snd acc ++
                 [{| importedName := localName;
                     sourceFile :=
                       Resolver.resolveImportPath pf file value |}])
            else (exps, snd acc)
        | None => (exps, snd acc)
        end
      else (exps, snd acc)
  | None => (exps, snd acc)
  end.

Definition importSpecifierStep (file sourcePath : str)
    (acc : list ImportRecord) (spec : ImportSpec) : list ImportRecord :=
  let target := Resolver.resolveImportPath pf file sourcePath in
  match spec with
  | ImportSpecifier imported =>
      match imported with
      | Some name =>
          if truthy name then
            acc ++ [{| importedName := name; sourceFile := target |}]
          else acc
      | None => acc
      end
  | ImportDefaultSpecifier =>
      acc ++ [{| importedName := lit "default"; sourceFile := target |}]
  | ImportNamespaceSpecifier =>
      acc ++ [{| importedName := lit "*"; sourceFile := target |}]
  end.

(** The visitors passed to [walk.simple]. *)
Definition visit (file : str) (acc : Fallback.extraction) (node : Node)
    : Fallback.extraction :=
  match node with
  | ExportNamedDeclaration specifiers source declaration =>
      let acc1 := fold_left (exportSpecifierStep file source) specifiers acc in
      match declaration with
      | Some (VariableDeclaration declarations) =>
          (fold_left (fun exps id => addName id exps) declarations (fst acc1),
           snd acc1)
      | Some (OtherDeclaration id) => (addName id (fst acc1), snd acc1)
      | None => acc1
      end
  | ExportDefaultDeclaration => (set_add (fst acc) (lit "default"), snd acc)
  | ExportAllDeclaration source =>
      match source with
      | Some value =>
          if truthy value then
            (set_add (fst acc) (lit "* from " ++ value),
             snd acc ++
               [{| importedName := lit "*";
                   sourceFile := Resolver.resolveImportPath pf file value |}])
          else acc
      | None => acc
      end
  | ImportDeclaration source specifiers =>
      match source with
      | Some sourcePath =>
          if truthy sourcePath then
            (fst acc,
             fold_left (importSpecifierStep file sourcePath) specifiers
               (snd acc))
          else acc
      | None => acc
      end
  | OtherNode => acc
  end.

Definition walkSimple (file : str) (ast : list Node) : Fallback.extraction :=
  fold_left (visit file) ast ([], []).

End Primary.
End Primary.

(* ================================================================== *)
(** ** Graph builder *)
(* ================================================================== *)

Record ExportGraph : Type := {
  exports : list (str * list str);
  imports : list (str * list ImportRecord)
}.

Section Graph.
Variable pf : Platform.

(** What one readable file contributes: the primary extractor's records
    when acorn parses the text, the fallback's otherwise. *)
Definition extractFile (file content : str) : Fallback.extraction :=
  match acornParse pf content with
  | Some ast => Primary.walkSimple pf file ast
  | None =>
      Fallback.extractExportsAndImportsViaRegex pf content
        (Normalizer.stripLiteralsAndComments content) file [] []
  end.

(** The body of the loop over [files]; a file whose read throws leaves the
    graph as it was. *)
Definition buildStep (g : ExportGraph) (file : str) : ExportGraph :=
  match readFileSync pf file with
  | Some content =>
      let e := extractFile file content in
      {| exports := map_set (exports g) file (fst e);
         imports := map_set (imports g) file (snd e) |}
  | None => g
  end.

Definition buildExportGraph (files : list str) (projectPath : str)
    : ExportGraph :=
  fold_left buildStep files {| exports := []; imports := [] |}.

(* ================================================================== *)
(** ** Unused-export detector *)
(* ================================================================== *)

Record UnusedExport : Type := {
  ue_file : str;
  ue_exportName : str;
  ue_line : nat
}.

Fixpoint findLine (lines : list str) (exportName : str) (i : nat) : nat :=
  match lines with
  | [] => 0
  | line :: rest =>
      if includes line (lit "export") && includes line exportName
      then i + 1 else findLine rest exportName (S i)
  end.

Definition getExportLine (file exportName : str) : nat :=
  match readFileSync pf file with
  | Some content => findLine (splitChar nl content) exportName 0
  | None => 0
  end.

(** [if (!allImports.has(f)) allImports.set(f, new Set());
     allImports.get(f).add(name)] *)
Definition recordImport (allImports : list (str * list str))
    (r : ImportRecord) : list (str * list str) :=
  let names := match map_get allImports (sourceFile r) with
               | Some s => s
               | None => []
               end in
  map_set allImports (sourceFile r) (set_add names (importedName r)).

Definition collectImports (g : ExportGraph) : list (str * list str) :=
  fold_left (fun acc entry => fold_left recordImport (snd entry) acc)
    (imports g) [].

Definition isUsed (usedInFile : list str) (exportName : str) : bool :=
  set_has usedInFile exportName
  || set_has usedInFile (lit "*")
  || (str_eqb exportName (lit "default")
      && set_has usedInFile (lit "default")).

Definition checkExport (file : str) (usedInFile : list str)
    (acc : list UnusedExport) (exportName : str) : list UnusedExport :=
  if startsWith exportName (lit "*") then acc
  else if negb (isUsed usedInFile exportName) then
    acc ++ [{| ue_file := file; ue_exportName := exportName;
               ue_line := getExportLine file exportName |}]
  else acc.

Definition findUnusedExports (g : ExportGraph) (files : list str)
    (projectPath : str) : list UnusedExport :=
  let allImports := collectImports g in
  fold_left
    (fun acc entry =>
       let usedInFile := match map_get allImports (fst entry) with
                         | Some s => s
                         | None => []
                         end in
       fold_left (checkExport (fst entry) usedInFile) (snd entry) acc)
    (exports g) [].

(** [s.toLowerCase()] on code units below 256. *)
Definition lowerChar (c : ascii) : ascii :=
  let n := nat_of_ascii c in
  if ((65 <=? n) && (n <=? 90))
     || ((192 <=? n) && (n <=? 222) && negb (n =? 215))
  then ascii_of_nat (n + 32) else c.

Definition toLowerCase (s : str) : str := map lowerChar s.

Definition entryPatterns : list str :=
  [lit "src/index."; lit "src/main."; lit "src/app."; lit "index.";
   lit "main."].

Definition isEntryPoint (file projectPath : str) : bool :=
  let relPath := toLowerCase (relative pf projectPath file) in
  existsb (startsWith relPath) entryPatterns.

(* ================================================================== *)
(** ** Cycle detector *)
(* ================================================================== *)

(** The order of [Array.prototype.sort] without a comparator: by code
    units, a proper prefix first. *)
Fixpoint str_leb (a b : str) : bool :=
  match a, b with
  | [], _ => true
  | _ :: _, [] => false
  | x :: a', y :: b' =>
      if nat_of_ascii x <? nat_of_ascii y then true
      else if nat_of_ascii y <? nat_of_ascii x then false
      else str_leb a' b'
  end.

Fixpoint insertSorted (x : str) (l : list str) : list str :=
  match l with
  | [] => [x]
  | y :: l' => if str_leb x y then x :: l else y :: insertSorted x l'
  end.

(** [l.sort()]; the order is total, so the result does not depend on the
    sorting algorithm. *)
Definition sortStrings (l : list str) : list str :=
  fold_right insertSorted [] l.

(** [l.join(sep)] *)
Fixpoint joinWith (sep : str) (l : list str) : str :=
  match l with
  | [] => []
  | [x] => x
  | x :: l' => x ++ sep ++ joinWith sep l'
  end.

(** [path.indexOf(node)], [None] for [-1]. *)
Fixpoint indexOf (l : list str) (x : str) : option nat :=
  match l with
  | [] => None
  | y :: l' =>
      if str_eqb y x then Some 0
      else match indexOf l' x with Some i => Some (S i) | None => None end
  end.

Definition edgeKey (projectPath : str) (cycle : list str) : str :=
  joinWith (lit "|") (sortStrings (map (relative pf projectPath) cycle)).

(** [adjacency]: file -> set of imported files that are in [files]. *)
Definition localDeps (files : list str) (fileImports : list ImportRecord)
    : list str :=
  fold_left
    (fun deps r => if set_has files (sourceFile r)
                   then set_add deps (sourceFile r) else deps)
    fileImports [].

Definition buildAdjacency (g : ExportGraph) (files : list str)
    : list (str * list str) :=
  fold_left
    (fun adj entry => map_set adj (fst entry) (localDeps files (snd entry)))
    (imports g) [].

(** The variables that the closure [dfs] shares, and its [path] array. *)
Record DfsState : Type := {
  cycles : list (list str);
  visited : list str;
  inStack : list str;
  reportedEdges : list str;
  path : list str
}.

Definition foundCycle (projectPath node : str) (st : DfsState) : DfsState :=
  match indexOf (path st) node with
  | Some cycleStart =>
      let cycle := skipn cycleStart (path st) in
      let key := edgeKey projectPath cycle in
      if negb (set_has (reportedEdges st) key) then
        {| cycles := cycles st ++ [cycle];
           visited := visited st;
           inStack := inStack st;
           reportedEdges := set_add (reportedEdges st) key;
           path := path st |}
      else st
  | None => st
  end.

Definition enter (node : str) (st : DfsState) : DfsState :=
  {| cycles := cycles st; visited := visited st;
     inStack := set_add (inStack st) node;
     reportedEdges := reportedEdges st;
     path := path st ++ [node] |}.

Definition leave (node : str) (st : DfsState) : DfsState :=
  {| cycles := cycles st; visited := set_add (visited st) node;
     inStack := set_delete (inStack st) node;
     reportedEdges := reportedEdges st;
     path := removelast (path st) |}.

(** [dfs] recurses along import chains; [fuel] bounds the depth of the
    recursion, and [None] is a traversal cut short by it. *)
Fixpoint dfs (adjacency : list (str * list str)) (projectPath : str)
    (fuel : nat) (node : str) (st : DfsState) : option DfsState :=
  match fuel with
  | 0 => None
  | S fuel' =>
      if set_has (inStack st) node then Some (foundCycle projectPath node st)
      else if set_has (visited st) node then Some st
      else
        let deps := match map_get adjacency node with
                    | Some d => d
                    | None => []
                    end in
        match fold_left
                (fun acc dep =>
                   match acc with
                   | Some s => dfs adjacency projectPath fuel' dep s
                   | None => None
                   end)
                deps (Some (enter node st)) with
        | Some st' => Some (leave node st')
        | None => None
        end
  end.

(** The call [dfs(file, [])] of the loop over [files] passes a new
    array. *)
Definition freshPath (st : DfsState) : DfsState :=
  {| cycles := cycles st; visited := visited st; inStack := inStack st;
     reportedEdges := reportedEdges st; path := [] |}.

Definition dfsRoots (adjacency : list (str * list str)) (projectPath : str)
    (fuel : nat) (files : list str) (st : DfsState) : option DfsState :=
  fold_left
    (fun acc file =>
       match acc with
       | Some s =>
           if negb (set_has (visited s) file)
           then dfs adjacency projectPath fuel file (freshPath s)
           else Some s
       | None => None
       end)
    files (Some st).

(** No chain of distinct files is longer than [files], so the recursion
    never goes deeper than [S (length files)]. *)
Definition findCircularDependencies (g : ExportGraph) (files : list str)
    (projectPath : str) : option (list (list str)) :=
  let adjacency := buildAdjacency g files in
  match dfsRoots adjacency projectPath (S (length files)) files
          {| cycles := []; visited := []; inStack := [];
             reportedEdges := []; path := [] |} with
  | Some st => Some (cycles st)
  | None => None
  end.

(* ================================================================== *)
(** ** The analysis *)
(* ================================================================== *)

Inductive IssueType : Type := UnusedExportIssue | CircularDependencyIssue.
Inductive IssueSeverity : Type := Critical | High | Medium | Low.

(** A [TreeShakingIssue] without its prose ([description],
    [suggestion]). *)
Record TreeShakingIssue : Type := {
  i_type : IssueType;
  i_severity : IssueSeverity;
  i_file : str;
  i_line : option nat;
  i_pattern : str;
  i_estimatedImpact : nat
}.

Definition unusedExportIssues (projectPath : str)
    (unusedExports : list UnusedExport) : list TreeShakingIssue :=
  fold_left
    (fun issues u =>
       let relPath := relative pf projectPath (ue_file u) in
       if isEntryPoint (ue_file u) projectPath then issues
       else issues ++
              [{| i_type := UnusedExportIssue;
                  i_severity := Low;
                  i_file := relPath;
                  i_line := Some (ue_line u);
                  i_pattern := lit "export " ++ ue_exportName u;
                  i_estimatedImpact := 500 |}])
    unusedExports [].

Definition showNat (n : nat) : str :=
  lit (NilZero.string_of_uint (Nat.to_uint n)).

Definition cycleIssue (projectPath : str) (cycle : list str)
    : TreeShakingIssue :=
  let relFiles := map (relative pf projectPath) cycle in
  {| i_type := CircularDependencyIssue;
     i_severity := if length cycle <=? 2 then High else Critical;
     i_file := hd [] relFiles;
     i_line := None;
     i_pattern := lit "circular: " ++ showNat (length relFiles)
                    ++ lit " files";
     i_estimatedImpact := length cycle * 2000 |}.

Definition analyzeUnusedExports (files : list str) (projectPath : str)
    : option (list TreeShakingIssue) :=
  let graph := buildExportGraph files projectPath in
  let unusedExports := findUnusedExports graph files projectPath in
  let issues := unusedExportIssues projectPath unusedExports in
  match findCircularDependencies graph files projectPath with
  | Some cycles => Some (issues ++ map (cycleIssue projectPath) cycles)
  | None => None
  end.

End Graph.

(* ================================================================== *)
(** ** The report ([analyzeProject], after the analyzers have run) *)
(* ================================================================== *)

Module Report.
Section Report.

(** An issue of any analyzer.  The report reads its [severity] and its
    [estimatedImpact], and drops its [suggestion] on request. *)
Variable Issue : Type.
Variable severity : Issue -> IssueSeverity.
Variable estimatedImpact : Issue -> nat.
Variable withoutSuggestion : Issue -> Issue.

Definition severityOrder (s : IssueSeverity) : nat :=
  match s with Critical => 0 | High => 1 | Medium => 2 | Low => 3 end.

(** The comparator passed to [sort]. *)
Definition compareIssues (a b : Issue) : Z :=
  if negb (severityOrder (severity a) =? severityOrder (severity b)) then
    (Z.of_nat (severityOrder (severity a))
     - Z.of_nat (severityOrder (severity b)))%Z
  else (Z.of_nat (estimatedImpact b) - Z.of_nat (estimatedImpact a))%Z.

(** [Array.prototype.sort] with a comparator is a stable sort: of two
    elements that compare equal, the one that came first stays first. *)
Fixpoint insertIssue (x : Issue) (l : list Issue) : list Issue :=
  match l with
  | [] => [x]
  | y :: l' =>
      if (compareIssues x y <=? 0)%Z then x :: l else y :: insertIssue x l'
  end.

Definition sortIssues (l : list Issue) : list Issue :=
  fold_right insertIssue [] l.

Definition severity_eqb (a b : IssueSeverity) : bool :=
  severityOrder a =? severityOrder b.

(** [AnalysisSummary], without the fields that the report copies from its
    configuration ([projectPath], [bundler], [timestamp]). *)
Record AnalysisSummary : Type := {
  totalIssues : nat;
  criticalCount : nat;
  highCount : nat;
  mediumCount : nat;
  lowCount : nat;
  estimatedSavings : nat;
  analyzedFiles : nat
}.

Record AnalysisReport : Type := {
  summary : AnalysisSummary;
  issues : list Issue
}.

Definition countOf (s : IssueSeverity) (l : list Issue) : nat :=
  length (filter (fun i => severity_eqb (severity i) s) l).

(** The end of [analyzeProject]: [files] is the result of the glob,
    [collected] the array [issues] after every analyzer has pushed its
    findings. *)
Definition analyzeProject (files : list str) (collected : list Issue)
    (threshold : nat) (showSuggestions : bool) : AnalysisReport :=
  let filteredIssues :=
    sortIssues (filter (fun issue => threshold <=? estimatedImpact issue)
                  collected) in
  {| summary :=
       {| totalIssues := length filteredIssues;
          criticalCount := countOf Critical filteredIssues;
          highCount := countOf High filteredIssues;
          mediumCount := countOf Medium filteredIssues;
          lowCount := countOf Low filteredIssues;
          estimatedSavings :=
            fold_left (fun sum i => sum + estimatedImpact i) filteredIssues 0;
          analyzedFiles := length files |};
     issues := if showSuggestions then filteredIssues
               else map withoutSuggestion filteredIssues |}.

(** [index.ts], the [analyze] command once [analyzeProject] has
    returned: the process exits with code 1 when the report counts a
    critical issue. *)
Definition exitCode (report : AnalysisReport) : nat :=
  if 0 <? criticalCount (summary report) then 1 else 0.

End Report.
End Report.

(* ================================================================== *)
(** ** A small in-memory platform for the examples *)
(* ================================================================== *)

Module Demo.

(** The text before the last [/]. *)
Fixpoint demoDirname (p : str) : str :=
  match p with
  | [] => []
  | c :: p' => if existsb (ceq "/") p' then c :: demoDirname p' else []
  end.

Definition demoResolve (dir spec : str) : str :=
  if startsWith spec (lit "./") then dir ++ lit "/" ++ skipn 2 spec
  else dir ++ lit "/" ++ spec.

Definition demoJoin (dir name : str) : str := dir ++ lit "/" ++ name.

Definition demoRelative (from to : str) : str :=
  if startsWith to (from ++ lit "/") then skipn (length from + 1) to else to.

(** A project held in memory: the readable files with their text, the
    directories, and the trees acorn returns for the texts it parses. *)
Definition platform (files : list (str * str)) (dirs : list str)
    (parses : list (str * list Node)) : Platform :=
  {| readFileSync := map_get files;
     existsSync := fun p => map_has files p || set_has dirs p;
     statIsDirectory := fun p => Some (set_has dirs p);
     dirname := demoDirname;
     resolve := demoResolve;
     join := demoJoin;
     relative := demoRelative;
     acornParse := map_get parses |}.

End Demo.

(* ================================================================== *)
(** * Properties *)
(* ================================================================== *)

Unset Implicit Arguments.
Arguments lit : simpl never.

(** ** Equality of characters and strings *)

Lemma ceq_eq a b : ceq a b = true <-> a = b.
Proof. apply Ascii.eqb_eq. Qed.

Lemma str_eqb_eq a b : str_eqb a b = true <-> a = b.
Proof.
  revert b; induction a as [|x a IH]; intros [|y b]; simpl; split;
    try congruence; try reflexivity.
  - intros H. apply andb_true_iff in H as [H1 H2].
    apply ceq_eq in H1. apply IH in H2. congruence.
  - intros H. injection H as -> ->. apply andb_true_iff. split.
    + now apply ceq_eq.
    + now apply IH.
Qed.

Lemma str_eqb_refl a : str_eqb a a = true.
Proof. now apply str_eqb_eq. Qed.

Lemma str_eqb_neq a b : str_eqb a b = false <-> a <> b.
Proof.
  split.
  - intros H E. apply str_eqb_eq in E. congruence.
  - intros H. destruct (str_eqb a b) eqn:E; [|reflexivity].
    apply str_eqb_eq in E. contradiction.
Qed.

Lemma str_eqb_sym a b : str_eqb a b = str_eqb b a.
Proof.
  destruct (str_eqb a b) eqn:E.
  - apply str_eqb_eq in E. subst. symmetry. apply str_eqb_refl.
  - symmetry. apply str_eqb_neq. apply str_eqb_neq in E. congruence.
Qed.

(* ================================================================== *)
(** ** The text normalizer *)
(* ================================================================== *)

Module NormalizerFacts.
Import Normalizer.

(** Each inner loop pushes exactly as many characters as it steps over. *)
Lemma lineCommentLoop_length s :
  length (fst (lineCommentLoop s)) + length (snd (lineCommentLoop s))
  = length s.
Proof.
  induction s as [|c s IH]; simpl; [reflexivity|].
  destruct (ceq c nl); simpl; [reflexivity|].
  destruct (lineCommentLoop s) as [o r]; simpl in *. lia.
Qed.

(** Induction that reaches two characters back, for the loops that step
    over an escape or a two-character delimiter. *)
Lemma two_step_ind (P : str -> Prop) :
  P [] ->
  (forall c, P [] -> P [c]) ->
  (forall c c2 s, P s -> P (c2 :: s) -> P (c :: c2 :: s)) ->
  forall s, P s.
Proof.
  intros H0 H1 H2 s.
  assert (H : P s /\ forall c, P (c :: s)); [|apply H].
  induction s as [|c2 s [IH1 IH2]]; split; auto.
Qed.

Lemma blockCommentLoop_length s :
  length (fst (blockCommentLoop s)) + length (snd (blockCommentLoop s))
  = length s.
Proof.
  induction s as [|c|c c2 s IH1 IH2] using two_step_ind; try reflexivity.
  change (blockCommentLoop (c :: c2 :: s)) with
    (if ceq c "*" && ceq c2 "/" then ([sp; sp], s)
     else let (o, r) := blockCommentLoop (c2 :: s) in (blank c :: o, r)).
  destruct (ceq c "*" && ceq c2 "/"); [reflexivity|].
  destruct (blockCommentLoop (c2 :: s)) as [o r]. simpl in *. lia.
Qed.

Lemma templateLoop_length s : forall depth,
  length (fst (templateLoop depth s)) + length (snd (templateLoop depth s))
  = length s.
Proof.
  induction s as [|c|c c2 s IH1 IH2] using two_step_ind; intros depth.
  - reflexivity.
  - simpl. destruct (ceq c "}" && (0 <? depth)); [reflexivity|].
    destruct (ceq c btick && (depth =? 0)); reflexivity.
  - assert (Hsingle : forall d (x : str * str),
      x = (if ceq c "}" && (0 <? d) then
             let (o, r) := templateLoop (d - 1) (c2 :: s) in (sp :: o, r)
           else if ceq c btick && (d =? 0) then ([sp], c2 :: s)
           else let (o, r) := templateLoop d (c2 :: s) in (blank c :: o, r)) ->
      length (fst x) + length (snd x) = S (S (length s))).
    { intros d x ->.
      destruct (ceq c "}" && (0 <? d)).
      - specialize (IH2 (d - 1)).
        destruct (templateLoop (d - 1) (c2 :: s)); simpl in *; lia.
      - destruct (ceq c btick && (d =? 0)); [reflexivity|].
        specialize (IH2 d).
        destruct (templateLoop d (c2 :: s)); simpl in *; lia. }
    change (templateLoop depth (c :: c2 :: s)) with
      (let single :=
         if ceq c "}" && (0 <? depth) then
           let (o, r) := templateLoop (depth - 1) (c2 :: s) in (sp :: o, r)
         else if ceq c btick && (depth =? 0) then ([sp], c2 :: s)
         else let (o, r) := templateLoop depth (c2 :: s) in (blank c :: o, r)
       in
       if ceq c bslash then
         let (o, r) := templateLoop depth s in (sp :: sp :: o, r)
       else if ceq c "$" && ceq c2 "{" then
         let (o, r) := templateLoop (S depth) s in (sp :: sp :: o, r)
       else single).
    cbv zeta.
    destruct (ceq c bslash).
    + specialize (IH1 depth). destruct (templateLoop depth s); simpl in *; lia.
    + destruct (ceq c "$" && ceq c2 "{").
      * specialize (IH1 (S depth)).
        destruct (templateLoop (S depth) s); simpl in *; lia.
      * now apply (Hsingle depth).
Qed.

Lemma stringLoop_length quote s :
  length (fst (stringLoop quote s)) + length (snd (stringLoop quote s))
  = length s.
Proof.
  induction s as [|c|c c2 s IH1 IH2] using two_step_ind.
  - reflexivity.
  - simpl. destruct (ceq c quote); [reflexivity|].
    destruct (ceq c nl); reflexivity.
  - change (stringLoop quote (c :: c2 :: s)) with
      (let single :=
         if ceq c quote then ([sp], c2 :: s)
         else if ceq c nl then ([nl], c2 :: s)
         else let (o, r) := stringLoop quote (c2 :: s) in (sp :: o, r) in
       if ceq c bslash then
         let (o, r) := stringLoop quote s in (sp :: sp :: o, r)
       else single).
    cbv zeta.
    destruct (ceq c bslash).
    + destruct (stringLoop quote s); simpl in *; lia.
    + destruct (ceq c quote); [reflexivity|].
      destruct (ceq c nl); [reflexivity|].
      destruct (stringLoop quote (c2 :: s)); simpl in *; lia.
Qed.

(** With one unit of fuel for each character, the outer loop reaches the
    end of the text and has pushed one character for each one read. *)
Lemma stripLoop_length fuel : forall s,
  length s <= fuel -> length (stripLoop fuel s) = length s.
Proof.
  induction fuel as [|fuel IH]; intros s Hlen.
  - destruct s; simpl in *; [reflexivity|lia].
  - destruct s as [|ch s']; [reflexivity|].
    simpl in Hlen. cbn [stripLoop]. cbv zeta.
    destruct (ceq ch "/" && is_char (hd_error s') "/") eqn:E1.
    { destruct s' as [|c2 s'']; [simpl in E1; now rewrite andb_false_r in E1|].
      pose proof (lineCommentLoop_length s'') as L. cbn [tl].
      destruct (lineCommentLoop s'') as [o r]. simpl in *.
      rewrite length_app, IH by lia. lia. }
    destruct (ceq ch "/" && is_char (hd_error s') "*") eqn:E2.
    { destruct s' as [|c2 s'']; [simpl in E2; now rewrite andb_false_r in E2|].
      pose proof (blockCommentLoop_length s'') as L. cbn [tl].
      destruct (blockCommentLoop s'') as [o r]. simpl in *.
      rewrite length_app, IH by lia. lia. }
    destruct (ceq ch btick).
    { pose proof (templateLoop_length s' 0) as L.
      destruct (templateLoop 0 s') as [o r]. simpl in *.
      rewrite length_app, IH by lia. lia. }
    destruct (ceq ch squote || ceq ch dquote).
    { pose proof (stringLoop_length ch s') as L.
      destruct (stringLoop ch s') as [o r]. simpl in *.
      rewrite length_app, IH by lia. lia. }
    simpl. rewrite IH by lia. reflexivity.
Qed.

(** The normalized text has the length of the source. *)
Lemma strip_length source :
  length (stripLiteralsAndComments source) = length source.
Proof. apply stripLoop_length. lia. Qed.

(** A character of a masked region: a blank, or a newline kept in place. *)
Definition masked (c : ascii) : Prop := c = sp \/ c = nl.

Lemma blank_masked c : masked (blank c).
Proof. unfold masked, blank. destruct (ceq c nl); auto. Qed.

Lemma templateLoop_masked s : forall depth,
  Forall masked (fst (templateLoop depth s)).
Proof.
  assert (Hsp : masked sp) by (left; reflexivity).
  pose proof blank_masked as Hb.
  induction s as [|c|c c2 s IH1 IH2] using two_step_ind; intros depth.
  - constructor.
  - simpl. destruct (ceq c "}" && (0 <? depth)); [simpl; auto|].
    destruct (ceq c btick && (depth =? 0)); simpl; auto.
  - change (templateLoop depth (c :: c2 :: s)) with
      (let single :=
         if ceq c "}" && (0 <? depth) then
           let (o, r) := templateLoop (depth - 1) (c2 :: s) in (sp :: o, r)
         else if ceq c btick && (depth =? 0) then ([sp], c2 :: s)
         else let (o, r) := templateLoop depth (c2 :: s) in (blank c :: o, r)
       in
       if ceq c bslash then
         let (o, r) := templateLoop depth s in (sp :: sp :: o, r)
       else if ceq c "$" && ceq c2 "{" then
         let (o, r) := templateLoop (S depth) s in (sp :: sp :: o, r)
       else single).
    cbv zeta.
    destruct (ceq c bslash).
    { specialize (IH1 depth). destruct (templateLoop depth s). simpl; auto. }
    destruct (ceq c "$" && ceq c2 "{").
    { specialize (IH1 (S depth)). destruct (templateLoop (S depth) s).
      simpl; auto. }
    destruct (ceq c "}" && (0 <? depth)).
    { specialize (IH2 (depth - 1)).
      destruct (templateLoop (depth - 1) (c2 :: s)). simpl; auto. }
    destruct (ceq c btick && (depth =? 0)); [simpl; auto|].
    specialize (IH2 depth). destruct (templateLoop depth (c2 :: s)).
    simpl; auto.
Qed.

(** What the loop writes over the text of a template, whatever is
    literal text and whatever is a hole: two blanks over a backslash and
    the character it escapes, and over any other character a blank, or
    the newline itself. *)
Fixpoint maskEscapes (s : str) : str :=
  match s with
  | [] => []
  | c :: s' =>
      match s' with
      | c2 :: s'' =>
          if ceq c bslash then sp :: sp :: maskEscapes s''
          else blank c :: maskEscapes s'
      | [] => [blank c]
      end
  end.

(** The text that a loop has stepped over, and what it wrote over it. *)
Definition writes (s : str) (res : str * str) (consumed : str) : Prop :=
  s = consumed ++ snd res /\ fst res = maskEscapes consumed.

Lemma maskEscapes_plain c s :
  ceq c bslash = false -> maskEscapes (c :: s) = blank c :: maskEscapes s.
Proof. intros H. destruct s; simpl; [reflexivity|now rewrite H]. Qed.

Lemma blank_sp c : ceq c nl = false -> blank c = sp.
Proof. unfold blank. now intros ->. Qed.

(** The template loop writes [maskEscapes] of the text it steps over. *)
Lemma templateLoop_writes s : forall depth,
  exists consumed, writes s (templateLoop depth s) consumed.
Proof.
  induction s as [|c|c c2 s IH1 IH2] using two_step_ind; intros depth.
  - exists []. split; reflexivity.
  - simpl. destruct (ceq c "}" && (0 <? depth)) eqn:E1.
    { exists [c]. split; [reflexivity|]. simpl.
      apply andb_true_iff in E1 as [E1 _]. apply ceq_eq in E1. now subst. }
    destruct (ceq c btick && (depth =? 0)) eqn:E2.
    { exists [c]. split; [reflexivity|]. simpl.
      apply andb_true_iff in E2 as [E2 _]. apply ceq_eq in E2. now subst. }
    exists [c]. split; reflexivity.
  - change (templateLoop depth (c :: c2 :: s)) with
      (let single :=
         if ceq c "}" && (0 <? depth) then
           let (o, r) := templateLoop (depth - 1) (c2 :: s) in (sp :: o, r)
         else if ceq c btick && (depth =? 0) then ([sp], c2 :: s)
         else let (o, r) := templateLoop depth (c2 :: s) in (blank c :: o, r)
       in
       if ceq c bslash then
         let (o, r) := templateLoop depth s in (sp :: sp :: o, r)
       else if ceq c "$" && ceq c2 "{" then
         let (o, r) := templateLoop (S depth) s in (sp :: sp :: o, r)
       else single).
    cbv zeta.
    destruct (ceq c bslash) eqn:Eb.
    { destruct (IH1 depth) as (consumed & E & F).
      destruct (templateLoop depth s) as [o r]. cbn [fst snd] in *.
      exists (c :: c2 :: consumed). split; [cbn [app fst snd]; now rewrite E|].
      cbn [maskEscapes]. now rewrite Eb, F. }
    destruct (ceq c "$" && ceq c2 "{") eqn:Eh.
    { destruct (IH1 (S depth)) as (consumed & E & F).
      destruct (templateLoop (S depth) s) as [o r]. cbn [fst snd] in *.
      apply andb_true_iff in Eh as [H1 H2].
      apply ceq_eq in H1. apply ceq_eq in H2. subst c c2.
      exists ("$" :: "{" :: consumed). split; [cbn [app fst snd]; now rewrite E|].
      rewrite !maskEscapes_plain by reflexivity. now rewrite F. }
    destruct (ceq c "}" && (0 <? depth)) eqn:E1.
    { destruct (IH2 (depth - 1)) as (consumed & E & F).
      destruct (templateLoop (depth - 1) (c2 :: s)) as [o r].
      cbn [fst snd] in *.
      apply andb_true_iff in E1 as [E1 _]. apply ceq_eq in E1. subst c.
      exists ("}" :: consumed). split; [cbn [app fst snd]; now rewrite <- E|].
      rewrite maskEscapes_plain by reflexivity. now rewrite F. }
    destruct (ceq c btick && (depth =? 0)) eqn:E2.
    { apply andb_true_iff in E2 as [E2 _]. apply ceq_eq in E2. subst c.
      exists [btick]. split; reflexivity. }
    destruct (IH2 depth) as (consumed & E & F).
    destruct (templateLoop depth (c2 :: s)) as [o r]. cbn [fst snd] in *.
    exists (c :: consumed). split; [cbn [app fst snd]; now rewrite <- E|].
    rewrite maskEscapes_plain by exact Eb. now rewrite F.
Qed.



(** *** Newlines *)

(** Each character with the character before it. *)
Fixpoint withPrev (prev : option ascii) (s : str)
    : list (option ascii * ascii) :=
  match s with
  | [] => []
  | c :: s' => (prev, c) :: withPrev (Some c) s'
  end.

Definition lastOr (prev : option ascii) (s : str) : option ascii :=
  match rev s with
  | c :: _ => Some c
  | [] => prev
  end.

(** The output character [d] keeps the source character [c] when that is
    a newline not directly after a backslash. *)
Definition keeps (pc : option ascii * ascii) (d : ascii) : Prop :=
  snd pc = nl -> fst pc <> Some bslash -> d = nl.

Lemma withPrev_app prev s r :
  withPrev prev (s ++ r) = withPrev prev s ++ withPrev (lastOr prev s) r.
Proof.
  revert prev; induction s as [|c s IH]; intros prev; [reflexivity|].
  simpl. rewrite IH. do 2 f_equal. unfold lastOr. simpl.
  destruct (rev s) as [|x l] eqn:E; reflexivity.
Qed.

Lemma keeps_same p c : keeps (p, c) c.
Proof. intros H _. exact H. Qed.

Lemma keeps_blank p c : keeps (p, c) (blank c).
Proof. intros H _. simpl in H. subst. reflexivity. Qed.

Lemma keeps_not_nl p c d : c <> nl -> keeps (p, c) d.
Proof. intros H Hc. simpl in Hc. contradiction. Qed.

Lemma keeps_escaped c d : keeps (Some bslash, c) d.
Proof. intros _ H. now contradiction H. Qed.

Lemma ceq_not_nl c x : ceq c x = true -> x <> nl -> c <> nl.
Proof. intros H Hx. apply ceq_eq in H. now subst. Qed.

(** What a loop leaves behind: the characters it stepped over, each kept
    in the sense of [keeps], and the text where it stopped. *)
Definition loop_keeps (prev : option ascii) (s : str) (res : str * str)
    : Prop :=
  exists consumed,
    s = consumed ++ snd res
    /\ Forall2 keeps (withPrev prev consumed) (fst res).

Lemma loop_keeps_nil prev s : loop_keeps prev s ([], s).
Proof. exists []. split; [reflexivity|constructor]. Qed.

Lemma loop_keeps_one prev c s d res :
  keeps (prev, c) d -> loop_keeps (Some c) s res ->
  loop_keeps prev (c :: s) (d :: fst res, snd res).
Proof.
  intros Hd (consumed & -> & H). exists (c :: consumed).
  split; [reflexivity|]. simpl. now constructor.
Qed.

Lemma loop_keeps_two prev c c2 s d d2 res :
  keeps (prev, c) d -> keeps (Some c, c2) d2 ->
  loop_keeps (Some c2) s res ->
  loop_keeps prev (c :: c2 :: s) (d :: d2 :: fst res, snd res).
Proof.
  intros Hd Hd2 H. apply (loop_keeps_one prev c (c2 :: s) d (d2 :: fst res, snd res) Hd).
  now apply (loop_keeps_one (Some c) c2 s d2 res).
Qed.

Lemma lineCommentLoop_keeps s : forall prev,
  loop_keeps prev s (lineCommentLoop s).
Proof.
  induction s as [|c s IH]; intros prev; simpl; [apply loop_keeps_nil|].
  destruct (ceq c nl) eqn:E; [apply loop_keeps_nil|].
  specialize (IH (Some c)). destruct (lineCommentLoop s) as [o r].
  apply (loop_keeps_one prev c s sp (o, r)); [|exact IH].
  apply keeps_not_nl. intros ->. unfold ceq in E.
  now rewrite Ascii.eqb_refl in E.
Qed.

Lemma blockCommentLoop_keeps s : forall prev,
  loop_keeps prev s (blockCommentLoop s).
Proof.
  induction s as [|c|c c2 s IH1 IH2] using two_step_ind; intros prev.
  - apply loop_keeps_nil.
  - apply (loop_keeps_one prev c [] (blank c) ([], []));
      [apply keeps_blank|apply loop_keeps_nil].
  - change (blockCommentLoop (c :: c2 :: s)) with
      (if ceq c "*" && ceq c2 "/" then ([sp; sp], s)
       else let (o, r) := blockCommentLoop (c2 :: s) in (blank c :: o, r)).
    destruct (ceq c "*" && ceq c2 "/") eqn:E.
    + apply andb_true_iff in E as [E1 E2].
      apply (loop_keeps_two prev c c2 s sp sp ([], s));
        [| |apply loop_keeps_nil]; apply keeps_not_nl;
        eapply ceq_not_nl; eauto; discriminate.
    + specialize (IH2 (Some c)). destruct (blockCommentLoop (c2 :: s)) as [o r].
      apply (loop_keeps_one prev c (c2 :: s) (blank c) (o, r));
        [apply keeps_blank|exact IH2].
Qed.

Lemma templateLoop_keeps s : forall depth prev,
  loop_keeps prev s (templateLoop depth s).
Proof.
  assert (Hsingle : forall c s' depth prev,
    (forall d p, loop_keeps p s' (templateLoop d s')) ->
    loop_keeps prev (c :: s')
      (if ceq c "}" && (0 <? depth) then
         let (o, r) := templateLoop (depth - 1) s' in (sp :: o, r)
       else if ceq c btick && (depth =? 0) then ([sp], s')
       else let (o, r) := templateLoop depth s' in (blank c :: o, r))).
  { intros c s' depth prev IH.
    destruct (ceq c "}" && (0 <? depth)) eqn:E1.
    { apply andb_true_iff in E1 as [E1 _].
      specialize (IH (depth - 1) (Some c)).
      destruct (templateLoop (depth - 1) s') as [o r].
      apply (loop_keeps_one prev c s' sp (o, r)); [|exact IH].
      apply keeps_not_nl. eapply ceq_not_nl; eauto. discriminate. }
    destruct (ceq c btick && (depth =? 0)) eqn:E2.
    { apply andb_true_iff in E2 as [E2 _].
      apply (loop_keeps_one prev c s' sp ([], s')); [|apply loop_keeps_nil].
      apply keeps_not_nl. eapply ceq_not_nl; eauto. discriminate. }
    specialize (IH depth (Some c)). destruct (templateLoop depth s') as [o r].
    apply (loop_keeps_one prev c s' (blank c) (o, r));
      [apply keeps_blank|exact IH]. }
  induction s as [|c|c c2 s IH1 IH2] using two_step_ind; intros depth prev.
  - apply loop_keeps_nil.
  - apply (Hsingle c [] depth prev). intros d p. apply loop_keeps_nil.
  - change (templateLoop depth (c :: c2 :: s)) with
      (let single :=
         if ceq c "}" && (0 <? depth) then
           let (o, r) := templateLoop (depth - 1) (c2 :: s) in (sp :: o, r)
         else if ceq c btick && (depth =? 0) then ([sp], c2 :: s)
         else let (o, r) := templateLoop depth (c2 :: s) in (blank c :: o, r)
       in
       if ceq c bslash then
         let (o, r) := templateLoop depth s in (sp :: sp :: o, r)
       else if ceq c "$" && ceq c2 "{" then
         let (o, r) := templateLoop (S depth) s in (sp :: sp :: o, r)
       else single).
    cbv zeta.
    destruct (ceq c bslash) eqn:E1.
    { apply ceq_eq in E1. subst c.
      specialize (IH1 depth (Some c2)). destruct (templateLoop depth s) as [o r].
      apply (loop_keeps_two prev bslash c2 s sp sp (o, r));
        [apply keeps_not_nl; discriminate|apply keeps_escaped|exact IH1]. }
    destruct (ceq c "$" && ceq c2 "{") eqn:E2.
    { apply andb_true_iff in E2 as [E2 E3].
      specialize (IH1 (S depth) (Some c2)).
      destruct (templateLoop (S depth) s) as [o r].
      apply (loop_keeps_two prev c c2 s sp sp (o, r));
        [| |exact IH1]; apply keeps_not_nl; eapply ceq_not_nl; eauto;
        discriminate. }
    apply (Hsingle c (c2 :: s) depth prev). intros d p. apply IH2.
Qed.

Lemma stringLoop_keeps quote s : quote <> nl -> forall prev,
  loop_keeps prev s (stringLoop quote s).
Proof.
  intros Hq.
  assert (Hsingle : forall c s' prev,
    (forall p, loop_keeps p s' (stringLoop quote s')) ->
    loop_keeps prev (c :: s')
      (if ceq c quote then ([sp], s')
       else if ceq c nl then ([nl], s')
       else let (o, r) := stringLoop quote s' in (sp :: o, r))).
  { intros c s' prev IH.
    destruct (ceq c quote) eqn:E1.
    { apply (loop_keeps_one prev c s' sp ([], s')); [|apply loop_keeps_nil].
      apply keeps_not_nl. eapply ceq_not_nl; eauto. }
    destruct (ceq c nl) eqn:E2.
    { apply (loop_keeps_one prev c s' nl ([], s')); [|apply loop_keeps_nil].
      intros _ _. reflexivity. }
    specialize (IH (Some c)). destruct (stringLoop quote s') as [o r].
    apply (loop_keeps_one prev c s' sp (o, r)); [|exact IH].
    apply keeps_not_nl. intros ->. unfold ceq in E2.
    now rewrite Ascii.eqb_refl in E2. }
  induction s as [|c|c c2 s IH1 IH2] using two_step_ind; intros prev.
  - apply loop_keeps_nil.
  - apply (Hsingle c [] prev). intros p. apply loop_keeps_nil.
  - change (stringLoop quote (c :: c2 :: s)) with
      (let single :=
         if ceq c quote then ([sp], c2 :: s)
         else if ceq c nl then ([nl], c2 :: s)
         else let (o, r) := stringLoop quote (c2 :: s) in (sp :: o, r) in
       if ceq c bslash then
         let (o, r) := stringLoop quote s in (sp :: sp :: o, r)
       else single).
    cbv zeta.
    destruct (ceq c bslash) eqn:E1.
    { apply ceq_eq in E1. subst c.
      specialize (IH1 (Some c2)). destruct (stringLoop quote s) as [o r].
      apply (loop_keeps_two prev bslash c2 s sp sp (o, r));
        [apply keeps_not_nl; discriminate|apply keeps_escaped|exact IH1]. }
    apply (Hsingle c (c2 :: s) prev). exact IH2.
Qed.

Lemma loop_keeps_length prev s res :
  loop_keeps prev s res -> length (snd res) <= length s.
Proof. intros (consumed & -> & _). rewrite length_app. lia. Qed.

(** The outer loop after an inner one: the characters of the inner loop,
    then the rest of the text. *)
Lemma keeps_after_loop prev s res (rest_out : str) :
  loop_keeps prev s res ->
  (forall p, Forall2 keeps (withPrev p (snd res)) rest_out) ->
  Forall2 keeps (withPrev prev s) (fst res ++ rest_out).
Proof.
  intros (consumed & -> & H) Hrest. rewrite withPrev_app.
  apply Forall2_app; [exact H|apply Hrest].
Qed.

Lemma stripLoop_keeps fuel : forall s prev,
  length s <= fuel -> Forall2 keeps (withPrev prev s) (stripLoop fuel s).
Proof.
  induction fuel as [|fuel IH]; intros s prev Hlen.
  - destruct s; simpl in *; [constructor|lia].
  - destruct s as [|ch s']; [constructor|].
    simpl in Hlen. cbn [stripLoop]. cbv zeta.
    destruct (ceq ch "/" && is_char (hd_error s') "/") eqn:E1.
    { destruct s' as [|c2 s'']; [simpl in E1; now rewrite andb_false_r in E1|].
      apply andb_true_iff in E1 as [E1 E1']. cbn [tl hd_error is_char] in *.
      pose proof (lineCommentLoop_keeps s'' (Some c2)) as L.
      pose proof (loop_keeps_length _ _ _ L) as Ll.
      destruct (lineCommentLoop s'') as [o r]. simpl in Hlen, Ll.
      cbn [withPrev]. constructor; [|constructor].
      - apply keeps_not_nl. eapply ceq_not_nl; eauto. discriminate.
      - apply keeps_not_nl. eapply ceq_not_nl; eauto. discriminate.
      - apply (keeps_after_loop (Some c2) s'' (o, r)); [exact L|].
        intros p. apply IH. simpl. lia. }
    destruct (ceq ch "/" && is_char (hd_error s') "*") eqn:E2.
    { destruct s' as [|c2 s'']; [simpl in E2; now rewrite andb_false_r in E2|].
      apply andb_true_iff in E2 as [E2 E2']. cbn [tl hd_error is_char] in *.
      pose proof (blockCommentLoop_keeps s'' (Some c2)) as L.
      pose proof (loop_keeps_length _ _ _ L) as Ll.
      destruct (blockCommentLoop s'') as [o r]. simpl in Hlen, Ll.
      cbn [withPrev]. constructor; [|constructor].
      - apply keeps_not_nl. eapply ceq_not_nl; eauto. discriminate.
      - apply keeps_not_nl. eapply ceq_not_nl; eauto. discriminate.
      - apply (keeps_after_loop (Some c2) s'' (o, r)); [exact L|].
        intros p. apply IH. simpl. lia. }
    destruct (ceq ch btick) eqn:E3.
    { pose proof (templateLoop_keeps s' 0 (Some ch)) as L.
      pose proof (loop_keeps_length _ _ _ L) as Ll.
      destruct (templateLoop 0 s') as [o r]. simpl in Ll.
      cbn [withPrev]. constructor.
      - apply keeps_not_nl. eapply ceq_not_nl; eauto. discriminate.
      - apply (keeps_after_loop (Some ch) s' (o, r)); [exact L|].
        intros p. apply IH. simpl. lia. }
    destruct (ceq ch squote || ceq ch dquote) eqn:E4.
    { assert (Hq : ch <> nl).
      { apply orb_true_iff in E4 as [E4|E4]; eapply ceq_not_nl; eauto;
          discriminate. }
      pose proof (stringLoop_keeps ch s' Hq (Some ch)) as L.
      pose proof (loop_keeps_length _ _ _ L) as Ll.
      destruct (stringLoop ch s') as [o r]. simpl in Ll.
      cbn [withPrev]. constructor.
      - now apply keeps_not_nl.
      - apply (keeps_after_loop (Some ch) s' (o, r)); [exact L|].
        intros p. apply IH. simpl. lia. }
    cbn [withPrev]. constructor; [apply keeps_same|].
    apply IH. lia.
Qed.

Lemma Forall2_keeps_nth s : forall prev out i,
  Forall2 keeps (withPrev prev s) out ->
  nth_error s i = Some nl ->
  match i with
  | 0 => prev
  | S j => nth_error s j
  end <> Some bslash ->
  nth_error out i = Some nl.
Proof.
  induction s as [|c s IH]; intros prev out i H Hi Hp.
  - now destruct i.
  - simpl in H. inversion H as [|pc d l l' Hk Hrest]; subst.
    destruct i as [|i]; simpl in *.
    + injection Hi as ->. f_equal. now apply Hk.
    + apply (IH (Some c) l' i Hrest Hi). destruct i; exact Hp.
Qed.

(** A newline of the source that does not directly follow a backslash is
    a newline of the normalized text, at the same offset. *)
Lemma strip_keeps_newline source i :
  nth_error source i = Some nl ->
  match i with
  | 0 => None
  | S j => nth_error source j
  end <> Some bslash ->
  nth_error (stripLiteralsAndComments source) i = Some nl.
Proof.
  apply Forall2_keeps_nth. apply stripLoop_keeps. lia.
Qed.

(** C7: the normalized text has the length of the source, and a newline
    of the source that does not directly follow a backslash is kept at
    its offset; at the failing input, the string literal
    ['a\<newline>b'], the newline at offset 3 follows a backslash, the
    escape branch pushes two blanks over both characters, and the
    normalized text has a blank where the source has the newline. *)
Theorem escaped_newline_is_blanked :
  (forall source, length (stripLiteralsAndComments source) = length source)
  /\ (forall source i,
        nth_error source i = Some nl ->
        match i with
        | 0 => None
        | S j => nth_error source j
        end <> Some bslash ->
        nth_error (stripLiteralsAndComments source) i = Some nl)
  /\ let source := [squote; "a"; bslash; nl; "b"; squote] in
     nth_error source 3 = Some nl
     /\ nth_error (stripLiteralsAndComments source) 3 = Some sp.
Proof.
  split; [exact strip_length|]. split; [exact strip_keeps_newline|].
  repeat split.
Qed.

End NormalizerFacts.

(* ================================================================== *)
(** ** The module resolver *)
(* ================================================================== *)

Module ResolverFacts.
Import Resolver.

(** Two platforms answer every existence and directory query alike. *)
Definition same_snapshot (p q : Platform) : Prop :=
  (forall x, existsSync p x = existsSync q x)
  /\ (forall x, statIsDirectory p x = statIsDirectory q x).

(** Two platforms compute paths alike. *)
Definition same_paths (p q : Platform) : Prop :=
  (forall x, dirname p x = dirname q x)
  /\ (forall d x, resolve p d x = resolve q d x)
  /\ (forall d x, join p d x = join q d x).

Lemma firstExisting_ext p q candidates :
  (forall x, existsSync p x = existsSync q x) ->
  firstExisting p candidates = firstExisting q candidates.
Proof.
  intros H. induction candidates as [|c l IH]; simpl; [reflexivity|].
  rewrite H, IH. reflexivity.
Qed.

Lemma resolveIndexFile_ext p q dirPath :
  same_paths p q -> same_snapshot p q ->
  resolveIndexFile p dirPath = resolveIndexFile q dirPath.
Proof.
  intros (_ & _ & Hj) (He & _). unfold resolveIndexFile.
  rewrite (firstExisting_ext p q _ He). f_equal.
  apply map_ext. intros ext. apply Hj.
Qed.

(** C4: the resolved path is a function of the importing file, the
    specifier and the answers of the filesystem: two runs of the resolver
    on platforms that answer every query alike return the same path. *)
Theorem resolution_is_deterministic (p q : Platform) (fromFile importPath : str) :
  same_paths p q -> same_snapshot p q ->
  resolveImportPath p fromFile importPath
  = resolveImportPath q fromFile importPath.
Proof.
  intros Hp Hs. unfold resolveImportPath.
  assert (Hi : forall d, resolveIndexFile p d = resolveIndexFile q d)
    by (intros d; now apply resolveIndexFile_ext).
  destruct Hp as (Hd & Hr & Hj), Hs as (He & Hst).
  destruct (startsWith importPath (lit ".")); [|reflexivity].
  rewrite Hd, Hr. cbv zeta.
  set (resolved := resolve q (dirname q fromFile) importPath).
  rewrite He, Hst, Hi.
  rewrite !(firstExisting_ext p q _ He). reflexivity.
Qed.

(** *** The resolution order in the words of the specification *)

Section Order.
Variable pf : Platform.

Definition isDirectory (p : str) : bool :=
  match statIsDirectory pf p with Some true => true | _ => false end.

(** The compiled-output extensions: the stem of the literal path and the
    source extensions that stand for it. *)
Definition compiledOutput (literal : str) : list str :=
  if endsWith literal (lit ".js") then
    map (app (slice_end literal 3)) [lit ".ts"; lit ".tsx"]
  else if endsWith literal (lit ".jsx") then
    map (app (slice_end literal 4)) [lit ".tsx"]
  else [].

Definition orLiteral (found : option str) (literal : str) : str :=
  match found with Some p => p | None => literal end.

Definition resolveInOrder (fromFile specifier : str) : str :=
  if negb (startsWith specifier (lit ".")) then specifier
  else
    let literal := resolve pf (dirname pf fromFile) specifier in
    if existsSync pf literal && negb (isDirectory literal) then literal
    else if existsSync pf literal && isDirectory literal then
      orLiteral
        (firstExisting pf
           (map (fun ext => join pf literal (lit "index" ++ ext))
              RESOLVE_EXTENSIONS))
        literal
    else
      match firstExisting pf (map (app literal) RESOLVE_EXTENSIONS) with
      | Some p => p
      | None => orLiteral (firstExisting pf (compiledOutput literal)) literal
      end.

(** An index file of the path [literal] that exists lies in a path that
    exists, and has a path of its own: what [path.join] and [existsSync]
    give for the absolute path that [path.resolve] returns. *)
Definition index_inside (literal : str) : Prop :=
  forall ext,
    In ext RESOLVE_EXTENSIONS ->
    existsSync pf (join pf literal (lit "index" ++ ext)) = true ->
    existsSync pf literal = true
    /\ join pf literal (lit "index" ++ ext) <> [].

End Order.

Lemma startsWith_split s p :
  startsWith s p = true -> s = p ++ skipn (length p) s.
Proof.
  revert s; induction p as [|x p IH]; intros s H; [reflexivity|].
  destruct s as [|y s]; [discriminate|]. simpl in H.
  apply andb_true_iff in H as [H1 H2]. apply ceq_eq in H1. subst y.
  simpl. f_equal. now apply IH.
Qed.

Lemma endsWith_split s p :
  endsWith s p = true -> slice_end s (length p) ++ p = s.
Proof.
  unfold endsWith, slice_end. intros H. apply startsWith_split in H.
  assert (E : exists r, s = r ++ p).
  { exists (rev (skipn (length (rev p)) (rev s))).
    rewrite <- (rev_involutive s) at 1. rewrite H at 1.
    rewrite rev_app_distr, rev_involutive. reflexivity. }
  destruct E as [r ->].
  rewrite length_app, Nat.add_sub, firstn_app, Nat.sub_diag, firstn_all.
  simpl. now rewrite app_nil_r.
Qed.

Lemma firstExisting_exists pf l p :
  firstExisting pf l = Some p -> existsSync pf p = true.
Proof.
  induction l as [|c l IH]; simpl; [discriminate|].
  destruct (existsSync pf c) eqn:E; [|exact IH].
  now intros [= <-].
Qed.

Lemma firstExisting_In pf l p : firstExisting pf l = Some p -> In p l.
Proof.
  induction l as [|c l IH]; simpl; [discriminate|].
  destruct (existsSync pf c); [intros [= <-]; now left|].
  intros H. right. now apply IH.
Qed.

Lemma resolveIndexFile_of_missing pf d :
  index_inside pf d -> existsSync pf d = false -> resolveIndexFile pf d = None.
Proof.
  intros Hin Hd. unfold resolveIndexFile.
  destruct (firstExisting pf _) as [p|] eqn:E; [|reflexivity].
  pose proof (firstExisting_exists _ _ _ E) as Hp.
  apply firstExisting_In, in_map_iff in E as (ext & <- & Hext).
  destruct (Hin ext Hext Hp) as [H _]. congruence.
Qed.

Lemma resolveIndexFile_truthy pf d p :
  index_inside pf d -> resolveIndexFile pf d = Some p -> p <> [].
Proof.
  intros Hin E. unfold resolveIndexFile in E.
  pose proof (firstExisting_exists _ _ _ E) as Hp.
  apply firstExisting_In, in_map_iff in E as (ext & <- & Hext).
  now destruct (Hin ext Hext Hp).
Qed.

(** C5, as the code has it: a specifier that does not begin with [.] is
    returned unchanged; a relative one resolves to the first success among
    (1) the literal path, a file, (2) the literal path, a directory: its
    index file by the extension list, else the directory itself, (3) the
    literal path with an extension of the list, (4) for a literal path
    with a compiled-output extension, the source extensions, and (5)
    otherwise the literal path itself, which names nothing on disk.  The
    one hypothesis is about the literal path of this import: an index
    file of it that exists lies in an existing path. *)
Theorem resolution_order (pf : Platform) (fromFile importPath : str) :
  index_inside pf (resolve pf (dirname pf fromFile) importPath) ->
  resolveImportPath pf fromFile importPath
  = resolveInOrder pf fromFile importPath.
Proof.
  intros Hin.
  unfold resolveImportPath, resolveInOrder.
  destruct (startsWith importPath (lit ".")); [|reflexivity].
  cbv zeta. cbn [negb].
  set (resolved := resolve pf (dirname pf fromFile) importPath) in *.
  change (map (app resolved) RESOLVE_EXTENSIONS)
    with (map (fun ext => resolved ++ ext) RESOLVE_EXTENSIONS).
  destruct (existsSync pf resolved) eqn:Ex; cbn [andb].
  - unfold isDirectory.
    destruct (statIsDirectory pf resolved) as [[|]|]; cbn [negb];
      try reflexivity.
    unfold orElse, orLiteral.
    change (firstExisting pf
              (map (fun ext => join pf resolved (lit "index" ++ ext))
                 RESOLVE_EXTENSIONS))
      with (resolveIndexFile pf resolved).
    destruct (resolveIndexFile pf resolved) as [p|] eqn:Ef; [|reflexivity].
    apply (resolveIndexFile_truthy pf resolved p Hin) in Ef.
    destruct p; [congruence|reflexivity].
  - destruct (firstExisting pf (map (fun ext => resolved ++ ext) RESOLVE_EXTENSIONS))
      as [p|] eqn:E3; [reflexivity|].
    rewrite (resolveIndexFile_of_missing pf resolved Hin Ex).
    unfold compiledOutput, orLiteral.
    destruct (endsWith resolved (lit ".js")) eqn:Ejs.
    { pose proof (endsWith_split _ _ Ejs) as Es.
      change (length (lit ".js")) with 3 in Es.
      cbn [map firstExisting].
      destruct (existsSync pf (slice_end resolved 3 ++ lit ".ts"));
        [reflexivity|].
      destruct (existsSync pf (slice_end resolved 3 ++ lit ".tsx"));
        [reflexivity|].
      rewrite Es, Ex. reflexivity. }
    destruct (endsWith resolved (lit ".jsx")) eqn:Ejsx; [|reflexivity].
    pose proof (endsWith_split _ _ Ejsx) as Es.
    change (length (lit ".jsx")) with 4 in Es.
    cbn [map firstExisting].
    destruct (existsSync pf (slice_end resolved 4 ++ lit ".tsx"));
      [reflexivity|].
    rewrite Es, Ex. reflexivity.
Qed.

End ResolverFacts.

(* ================================================================== *)
(** ** Sets and maps *)
(* ================================================================== *)

Lemma set_has_In s x : set_has s x = true <-> In x s.
Proof.
  unfold set_has. rewrite existsb_exists. split.
  - intros (y & Hy & E). apply str_eqb_eq in E. now subst.
  - intros H. exists x. split; [exact H|apply str_eqb_refl].
Qed.

Lemma set_has_false s x : set_has s x = false <-> ~ In x s.
Proof.
  rewrite <- set_has_In. destruct (set_has s x); split; congruence.
Qed.

Lemma set_add_In s x y : In y (set_add s x) <-> In y s \/ y = x.
Proof.
  unfold set_add. destruct (set_has s x) eqn:E.
  - apply set_has_In in E. split; [auto|]. intros [H| ->]; assumption.
  - rewrite in_app_iff. simpl. intuition.
Qed.

Lemma set_has_add s x y :
  set_has (set_add s x) y = set_has s y || str_eqb y x.
Proof.
  destruct (set_has (set_add s x) y) eqn:E.
  - apply set_has_In, set_add_In in E. symmetry. apply orb_true_iff.
    destruct E as [E| ->]; [left; now apply set_has_In|right; apply str_eqb_refl].
  - symmetry. apply orb_false_iff. split.
    + apply set_has_false. intros H. apply set_has_false in E. apply E.
      apply set_add_In. now left.
    + apply str_eqb_neq. intros ->. apply set_has_false in E. apply E.
      apply set_add_In. now right.
Qed.

Lemma set_has_delete s x y :
  set_has (set_delete s x) y = set_has s y && negb (str_eqb y x).
Proof.
  unfold set_delete.
  destruct (set_has (filter _ s) y) eqn:E.
  - apply set_has_In, filter_In in E. destruct E as [H1 H2].
    apply set_has_In in H1. rewrite H1, str_eqb_sym, H2. reflexivity.
  - symmetry. apply andb_false_iff.
    destruct (set_has s y) eqn:H1; [right|now left].
    destruct (str_eqb y x) eqn:H2; [reflexivity|].
    apply set_has_false in E. exfalso. apply E. apply filter_In. split.
    + now apply set_has_In.
    + now rewrite str_eqb_sym, H2.
Qed.

Section MapFacts.
Variable V : Type.
Implicit Types (m : list (str * V)) (k : str) (v : V).

Lemma map_get_In m k v : map_get m k = Some v -> In (k, v) m.
Proof.
  induction m as [|[k' v'] m IH]; simpl; [discriminate|].
  destruct (str_eqb k k') eqn:E.
  - apply str_eqb_eq in E. subst. intros [= ->]. now left.
  - intros H. right. now apply IH.
Qed.

Lemma In_map_get m k v : In (k, v) m -> exists v', map_get m k = Some v'.
Proof.
  induction m as [|[k' v'] m IH]; simpl; [contradiction|].
  intros [[= -> ->]|H].
  - rewrite str_eqb_refl. eauto.
  - destruct (str_eqb k k'); eauto.
Qed.

Lemma map_get_set_same m k v : map_get (map_set m k v) k = Some v.
Proof.
  induction m as [|[k' v'] m IH]; simpl.
  - now rewrite str_eqb_refl.
  - destruct (str_eqb k k') eqn:E; simpl; rewrite E; auto.
Qed.

Lemma map_get_set_other m k k' v :
  k' <> k -> map_get (map_set m k v) k' = map_get m k'.
Proof.
  intros Hne. pose proof (proj2 (str_eqb_neq k' k) Hne) as Hb.
  induction m as [|[k0 v0] m IH]; simpl.
  - now rewrite Hb.
  - destruct (str_eqb k k0) eqn:E; simpl.
    + apply str_eqb_eq in E. subst k0. now rewrite Hb.
    + now rewrite IH.
Qed.

Lemma map_set_In m k v k' v' :
  In (k', v') (map_set m k v) -> In (k', v') m \/ (k' = k /\ v' = v).
Proof.
  induction m as [|[k0 v0] m IH]; simpl.
  - intros [[= <- <-]|[]]. now right.
  - destruct (str_eqb k k0) eqn:E; simpl.
    + apply str_eqb_eq in E. subst k0.
      intros [[= <- <-]|H]; [now right|left; now right].
    + intros [H|H]; [left; now left|].
      destruct (IH H) as [H'|H']; [left; now right|now right].
Qed.

Lemma map_set_keys m k v k' :
  In k' (map fst (map_set m k v)) <-> In k' (map fst m) \/ k' = k.
Proof.
  induction m as [|[k0 v0] m IH]; simpl.
  - intuition.
  - destruct (str_eqb k k0) eqn:E; simpl.
    + apply str_eqb_eq in E. subst k0. intuition.
    + rewrite IH. intuition.
Qed.

End MapFacts.

(* ================================================================== *)
(** ** The order of [sort] *)
(* ================================================================== *)

Module SortFacts.

Lemma nat_of_ascii_inj a b : nat_of_ascii a = nat_of_ascii b -> a = b.
Proof.
  intros H. rewrite <- (ascii_nat_embedding a), <- (ascii_nat_embedding b).
  now rewrite H.
Qed.

Lemma str_leb_total a : forall b, str_leb a b = true \/ str_leb b a = true.
Proof.
  induction a as [|x a IH]; intros [|y b]; simpl; auto.
  destruct (nat_of_ascii x <? nat_of_ascii y) eqn:E1; [auto|].
  destruct (nat_of_ascii y <? nat_of_ascii x) eqn:E2; [auto|].
  apply IH.
Qed.

Lemma str_leb_antisym a : forall b,
  str_leb a b = true -> str_leb b a = true -> a = b.
Proof.
  induction a as [|x a IH]; intros [|y b]; simpl; try congruence.
  destruct (nat_of_ascii x <? nat_of_ascii y) eqn:E1;
    destruct (nat_of_ascii y <? nat_of_ascii x) eqn:E2; try congruence.
  - apply Nat.ltb_lt in E1, E2. lia.
  - intros H1 H2. apply Nat.ltb_ge in E1, E2.
    f_equal; [apply nat_of_ascii_inj; lia|now apply IH].
Qed.

Lemma str_leb_trans a : forall b c,
  str_leb a b = true -> str_leb b c = true -> str_leb a c = true.
Proof.
  induction a as [|x a IH]; intros [|y b] [|z c]; simpl; try congruence.
  destruct (nat_of_ascii x <? nat_of_ascii y) eqn:E1;
    destruct (nat_of_ascii y <? nat_of_ascii x) eqn:E2;
    destruct (nat_of_ascii y <? nat_of_ascii z) eqn:E3;
    destruct (nat_of_ascii z <? nat_of_ascii y) eqn:E4;
    destruct (nat_of_ascii x <? nat_of_ascii z) eqn:E5;
    destruct (nat_of_ascii z <? nat_of_ascii x) eqn:E6;
    try congruence;
    rewrite ?Nat.ltb_lt, ?Nat.ltb_ge in *; try lia.
  apply IH.
Qed.

Definition le_str (a b : str) : Prop := str_leb a b = true.

Lemma insertSorted_perm x l : Permutation (insertSorted x l) (x :: l).
Proof.
  induction l as [|y l IH]; simpl; [reflexivity|].
  destruct (str_leb x y); [reflexivity|].
  rewrite IH. apply perm_swap.
Qed.

Lemma sortStrings_perm l : Permutation (sortStrings l) l.
Proof.
  induction l as [|x l IH]; simpl; [reflexivity|].
  rewrite insertSorted_perm. now constructor.
Qed.

Lemma insertSorted_sorted x l :
  StronglySorted le_str l -> StronglySorted le_str (insertSorted x l).
Proof.
  induction 1 as [|y l Hs IH Hall]; simpl.
  - repeat constructor.
  - destruct (str_leb x y) eqn:E.
    + constructor; [now constructor|]. constructor; [exact E|].
      eapply Forall_impl; [|exact Hall]. intros z Hz.
      eapply str_leb_trans; eassumption.
    + constructor; [exact IH|].
      assert (Hxl : Forall (le_str y) (x :: l)).
      { constructor; [|exact Hall].
        destruct (str_leb_total x y) as [H|H]; [congruence|exact H]. }
      rewrite Forall_forall in *. intros z Hz. apply Hxl.
      eapply Permutation_in; [apply insertSorted_perm|exact Hz].
Qed.

Lemma sortStrings_sorted l : StronglySorted le_str (sortStrings l).
Proof.
  induction l as [|x l IH]; simpl; [constructor|].
  now apply insertSorted_sorted.
Qed.

(** A list has one sorted arrangement. *)
Lemma sorted_perm_unique l1 : forall l2,
  StronglySorted le_str l1 -> StronglySorted le_str l2 ->
  Permutation l1 l2 -> l1 = l2.
Proof.
  induction l1 as [|a l1 IH]; intros l2 H1 H2 Hp.
  - apply Permutation_nil in Hp. now subst.
  - destruct l2 as [|b l2].
    { symmetry in Hp. now apply Permutation_nil in Hp. }
    inversion H1 as [|? ? Hs1 Ha]; subst.
    inversion H2 as [|? ? Hs2 Hb]; subst.
    assert (E : a = b).
    { assert (In a (b :: l2)) as [->|Ha2]
        by (eapply Permutation_in; [exact Hp|now left]); [reflexivity|].
      assert (In b (a :: l1)) as [->|Hb1]
        by (eapply Permutation_in; [symmetry; exact Hp|now left]);
        [reflexivity|].
      rewrite Forall_forall in Ha, Hb.
      apply str_leb_antisym; [now apply Ha|now apply Hb]. }
    subst b. f_equal. apply IH; auto.
    now apply Permutation_cons_inv in Hp.
Qed.

Lemma sortStrings_permutation l1 l2 :
  Permutation l1 l2 -> sortStrings l1 = sortStrings l2.
Proof.
  intros Hp. apply sorted_perm_unique; try apply sortStrings_sorted.
  rewrite !sortStrings_perm. exact Hp.
Qed.

End SortFacts.

(* ================================================================== *)
(** ** The cycle detector *)
(* ================================================================== *)

Module CycleFacts.
Section CycleFacts.
Variable pf : Platform.
Variable projectPath : str.
Variable files : list str.
Variable adjacency : list (str * list str).

(** Every edge of the adjacency list ends in a file of [files]. *)
Hypothesis adjacency_local :
  forall node deps dep,
    map_get adjacency node = Some deps -> In dep deps -> In dep files.

(** The stack of the traversal: [path] holds distinct files of [files],
    and [inStack] holds the same files. *)
Definition stack_ok (st : DfsState) : Prop :=
  NoDup (path st)
  /\ incl (path st) files
  /\ forall x, set_has (inStack st) x = true <-> In x (path st).

(** What a call leaves of the stack it was given. *)
Definition same_stack (st st' : DfsState) : Prop :=
  path st' = path st
  /\ forall x, set_has (inStack st') x = set_has (inStack st) x.

Lemma same_stack_ok st st' : stack_ok st -> same_stack st st' -> stack_ok st'.
Proof.
  intros (Hn & Hi & Hs) (Hp & Hm). unfold stack_ok. rewrite Hp.
  repeat split; auto; rewrite Hm; apply Hs.
Qed.

Lemma same_stack_trans a b c : same_stack a b -> same_stack b c -> same_stack a c.
Proof.
  intros (H1 & H2) (H3 & H4). split; [congruence|].
  intros x. now rewrite H4, H2.
Qed.

Lemma foundCycle_stack node st : same_stack st (foundCycle pf projectPath node st).
Proof.
  unfold foundCycle. destruct (indexOf (path st) node); [|split; auto].
  destruct (negb _); split; auto.
Qed.

Lemma enter_ok node st :
  stack_ok st -> In node files -> set_has (inStack st) node = false ->
  stack_ok (enter node st).
Proof.
  intros (Hn & Hi & Hs) Hf Hnot. unfold stack_ok, enter; simpl.
  repeat split.
  - apply NoDup_app; [exact Hn|repeat constructor; auto| ].
    intros x Hx [->|[]]. apply Hs in Hx. congruence.
  - intros x Hx. apply in_app_iff in Hx as [Hx|[<-|[]]]; auto.
  - rewrite set_has_In, set_add_In, in_app_iff. rewrite <- Hs, set_has_In.
    simpl. intuition.
  - rewrite set_has_In, set_add_In, in_app_iff. rewrite <- Hs, set_has_In.
    simpl. intuition.
Qed.

Lemma leave_stack node st st' :
  set_has (inStack st) node = false ->
  same_stack (enter node st) st' -> same_stack st (leave node st').
Proof.
  intros Hnot (Hp & Hm). unfold same_stack, leave; simpl. split.
  - rewrite Hp. simpl. apply removelast_last.
  - intros x. rewrite set_has_delete, Hm. simpl. rewrite set_has_add.
    destruct (str_eqb x node) eqn:E; simpl.
    + apply str_eqb_eq in E. subst. now rewrite Hnot, andb_false_r.
    + now rewrite orb_false_r, andb_true_r.
Qed.

Lemma path_bounded st : stack_ok st -> length (path st) <= length files.
Proof. intros (Hn & Hi & _). now apply NoDup_incl_length. Qed.

(** The loop over the dependencies of a node, as the source runs it. *)
Definition depsLoop (fuel : nat) (deps : list str) (st : DfsState)
    : option DfsState :=
  fold_left
    (fun acc dep =>
       match acc with
       | Some s => dfs pf adjacency projectPath fuel dep s
       | None => None
       end)
    deps (Some st).

Lemma depsLoop_none fuel deps :
  fold_left
    (fun acc dep =>
       match acc with
       | Some s => dfs pf adjacency projectPath fuel dep s
       | None => None
       end) deps None = None.
Proof. induction deps; simpl; auto. Qed.

Lemma dfs_unfold fuel node st :
  dfs pf adjacency projectPath (S fuel) node st =
  if set_has (inStack st) node then Some (foundCycle pf projectPath node st)
  else if set_has (visited st) node then Some st
  else match depsLoop fuel
               (match map_get adjacency node with Some d => d | None => [] end)
               (enter node st) with
       | Some st' => Some (leave node st')
       | None => None
       end.
Proof. reflexivity. Qed.

(** *** The traversal ends *)

Lemma dfs_total fuel : forall node st,
  stack_ok st -> In node files ->
  length files < fuel + length (path st) ->
  exists st', dfs pf adjacency projectPath fuel node st = Some st' /\ same_stack st st'.
Proof.
  induction fuel as [|fuel IH]; intros node st Hok Hnode Hfuel.
  - pose proof (path_bounded _ Hok). simpl in Hfuel. lia.
  - rewrite dfs_unfold.
    destruct (set_has (inStack st) node) eqn:Hin.
    { eexists. split; [reflexivity|apply foundCycle_stack]. }
    destruct (set_has (visited st) node).
    { exists st. split; [reflexivity|split; auto]. }
    assert (Hdeps : forall dep,
      In dep (match map_get adjacency node with Some d => d | None => [] end)
      -> In dep files).
    { destruct (map_get adjacency node) eqn:E; [|intros ? []].
      intros dep Hd. eapply adjacency_local; eassumption. }
    pose proof (enter_ok _ _ Hok Hnode Hin) as Hok1.
    assert (Hloop : forall deps s,
      (forall dep, In dep deps -> In dep files) ->
      same_stack (enter node st) s ->
      exists s', depsLoop fuel deps s = Some s' /\ same_stack (enter node st) s').
    { induction deps as [|dep deps IHd]; intros s Hd Hs.
      - exists s. split; [reflexivity|exact Hs].
      - unfold depsLoop. simpl.
        destruct (IH dep s) as (s1 & E1 & H1).
        + eapply same_stack_ok; eassumption.
        + apply Hd. now left.
        + destruct Hs as [Hp _]. rewrite Hp. simpl. rewrite length_app.
          simpl. lia.
        + rewrite E1. apply IHd.
          * intros d Hin'. apply Hd. now right.
          * eapply same_stack_trans; eassumption. }
    destruct (Hloop _ (enter node st) Hdeps) as (s' & E & Hs').
    { split; auto. }
    rewrite E. eexists. split; [reflexivity|].
    now apply leave_stack.
Qed.

(** The loop over [files], one iteration unfolded. *)
Definition rootsFrom (fuel : nat) (roots : list str) (acc : option DfsState)
    : option DfsState :=
  match acc with
  | Some st => dfsRoots pf adjacency projectPath fuel roots st
  | None => None
  end.

Lemma dfsRoots_cons fuel file roots st :
  dfsRoots pf adjacency projectPath fuel (file :: roots) st
  = rootsFrom fuel roots
      (if negb (set_has (visited st) file)
       then dfs pf adjacency projectPath fuel file (freshPath st)
       else Some st).
Proof.
  unfold dfsRoots, rootsFrom. cbn [fold_left].
  destruct (if negb (set_has (visited st) file)
            then dfs pf adjacency projectPath fuel file (freshPath st)
            else Some st); [reflexivity|].
  induction roots; simpl; auto.
Qed.

Lemma dfsRoots_total : forall roots st,
  incl roots files -> stack_ok st -> path st = [] ->
  exists st', dfsRoots pf adjacency projectPath (S (length files)) roots st
              = Some st'.
Proof.
  induction roots as [|file roots IH]; intros st Hincl Hok Hp.
  - exists st. reflexivity.
  - rewrite dfsRoots_cons.
    assert (Hincl' : incl roots files)
      by (intros x Hx; apply Hincl; now right).
    destruct (negb (set_has (visited st) file)).
    + assert (Hfresh : freshPath st = st).
      { destruct st; simpl in *. now subst. }
      rewrite Hfresh.
      destruct (dfs_total (S (length files)) file st) as (s1 & E1 & H1); auto.
      * apply Hincl. now left.
      * lia.
      * rewrite E1. simpl. apply IH; auto.
        -- eapply same_stack_ok; eassumption.
        -- destruct H1 as [H1 _]. congruence.
    + simpl. apply IH; auto.
Qed.

(** *** Each canonical key is reported once *)

(** The keys of the reported cycles are distinct, and [reportedEdges]
    holds exactly these keys. *)
Definition keys_ok (st : DfsState) : Prop :=
  NoDup (map (edgeKey pf projectPath) (cycles st))
  /\ forall k, set_has (reportedEdges st) k = true
               <-> In k (map (edgeKey pf projectPath) (cycles st)).

(** A step of the traversal only appends to the reported cycles, and
    keeps [keys_ok]. *)
Definition advances (st st' : DfsState) : Prop :=
  (exists more, cycles st' = cycles st ++ more)
  /\ (keys_ok st -> keys_ok st').

Lemma advances_refl st : advances st st.
Proof. split; [exists []; now rewrite app_nil_r|auto]. Qed.

Lemma advances_trans a b c : advances a b -> advances b c -> advances a c.
Proof.
  intros [[m1 H1] K1] [[m2 H2] K2]. split; [|auto].
  exists (m1 ++ m2). now rewrite H2, H1, app_assoc.
Qed.

Lemma foundCycle_keys node st :
  keys_ok st -> keys_ok (foundCycle pf projectPath node st).
Proof.
  intros [Hn Hr]. unfold foundCycle.
  destruct (indexOf (path st) node) as [i|]; [|now split].
  destruct (set_has (reportedEdges st)
              (edgeKey pf projectPath (skipn i (path st)))) eqn:E;
    simpl; [now split|].
  split; simpl.
  - rewrite map_app. simpl.
    apply NoDup_app; [exact Hn|repeat constructor; auto|].
    intros k Hk [<-|[]]. apply Hr in Hk. congruence.
  - intros k. rewrite set_has_add, orb_true_iff, str_eqb_eq, map_app,
      in_app_iff, Hr.
    simpl. intuition.
Qed.

Lemma foundCycle_advances node st :
  advances st (foundCycle pf projectPath node st).
Proof.
  split; [|apply foundCycle_keys].
  unfold foundCycle. destruct (indexOf (path st) node) as [i|];
    [|exists []; now rewrite app_nil_r].
  destruct (negb _); simpl; [eauto|exists []; now rewrite app_nil_r].
Qed.

(** The cycle found when [node] is on the stack has its key among the
    reported ones from then on. *)
Lemma foundCycle_reports node st i :
  keys_ok st -> indexOf (path st) node = Some i ->
  In (edgeKey pf projectPath (skipn i (path st)))
    (map (edgeKey pf projectPath)
       (cycles (foundCycle pf projectPath node st))).
Proof.
  intros [_ Hr] Hi. unfold foundCycle. rewrite Hi.
  destruct (set_has (reportedEdges st)
              (edgeKey pf projectPath (skipn i (path st)))) eqn:E; simpl.
  - now apply Hr.
  - rewrite map_app, in_app_iff. right. now left.
Qed.

Lemma enter_advances node st : advances st (enter node st).
Proof. split; [exists []; simpl; now rewrite app_nil_r|auto]. Qed.

Lemma leave_advances node st : advances st (leave node st).
Proof. split; [exists []; simpl; now rewrite app_nil_r|auto]. Qed.

Lemma freshPath_advances st : advances st (freshPath st).
Proof. split; [exists []; simpl; now rewrite app_nil_r|auto]. Qed.

Lemma dfs_advances fuel : forall node st st',
  dfs pf adjacency projectPath fuel node st = Some st' -> advances st st'.
Proof.
  induction fuel as [|fuel IH]; intros node st st' E; [discriminate|].
  rewrite dfs_unfold in E.
  destruct (set_has (inStack st) node).
  { injection E as <-. apply foundCycle_advances. }
  destruct (set_has (visited st) node).
  { injection E as <-. apply advances_refl. }
  assert (Hloop : forall deps s s',
    depsLoop fuel deps s = Some s' -> advances s s').
  { induction deps as [|dep deps IHd]; intros s s' Es.
    - injection Es as <-. apply advances_refl.
    - unfold depsLoop in Es. simpl in Es.
      destruct (dfs pf adjacency projectPath fuel dep s) as [s1|] eqn:E1.
      + eapply advances_trans; [eapply IH; exact E1|]. now apply IHd.
      + now rewrite depsLoop_none in Es. }
  destruct (depsLoop fuel _ (enter node st)) as [s1|] eqn:E1; [|discriminate].
  injection E as <-.
  eapply advances_trans; [apply enter_advances|].
  eapply advances_trans; [eapply Hloop; exact E1|apply leave_advances].
Qed.

Lemma dfsRoots_advances fuel : forall roots st st',
  dfsRoots pf adjacency projectPath fuel roots st = Some st' ->
  advances st st'.
Proof.
  induction roots as [|file roots IH]; intros st st' E.
  - injection E as <-. apply advances_refl.
  - rewrite dfsRoots_cons in E.
    destruct (negb (set_has (visited st) file)).
    + destruct (dfs pf adjacency projectPath fuel file (freshPath st))
        as [s1|] eqn:E1; [|discriminate].
      simpl in E.
      eapply advances_trans; [apply freshPath_advances|].
      eapply advances_trans; [eapply dfs_advances; exact E1|].
      now apply IH.
    + simpl in E. now apply IH.
Qed.

Lemma dfsRoots_keys fuel roots st st' :
  dfsRoots pf adjacency projectPath fuel roots st = Some st' ->
  keys_ok st -> keys_ok st'.
Proof. intros E. apply (dfsRoots_advances fuel roots st st' E). Qed.

End CycleFacts.
End CycleFacts.

Module GraphFacts.
Section GraphFacts.
Variable pf : Platform.

Lemma localDeps_local files recs dep :
  In dep (localDeps files recs) -> In dep files.
Proof.
  unfold localDeps.
  assert (H : forall acc, (forall d, In d acc -> In d files) ->
    forall d, In d (fold_left
      (fun deps r => if set_has files (sourceFile r)
                     then set_add deps (sourceFile r) else deps) recs acc)
    -> In d files).
  { induction recs as [|r recs IH]; intros acc Hacc d; simpl; [apply Hacc|].
    apply IH. intros d'.
    destruct (set_has files (sourceFile r)) eqn:E; [|apply Hacc].
    rewrite set_add_In. intros [H| ->]; [now apply Hacc|now apply set_has_In]. }
  apply H. intros d [].
Qed.

Lemma buildAdjacency_local g files node deps dep :
  map_get (buildAdjacency g files) node = Some deps ->
  In dep deps -> In dep files.
Proof.
  unfold buildAdjacency. intros Hget Hin. apply map_get_In in Hget.
  assert (H : forall entries acc,
    (forall n ds, In (n, ds) acc -> forall d, In d ds -> In d files) ->
    forall n ds, In (n, ds) (fold_left
      (fun adj entry => map_set adj (fst entry) (localDeps files (snd entry)))
      entries acc) -> forall d, In d ds -> In d files).
  { induction entries as [|e entries IH]; intros acc Hacc n ds; simpl;
      [apply Hacc|].
    apply IH. intros n' ds' Hin' d Hd.
    apply map_set_In in Hin' as [Hin'|[_ ->]].
    - eapply Hacc; eassumption.
    - eapply localDeps_local; eassumption. }
  eapply H; [|exact Hget|exact Hin]. intros n ds [].
Qed.

Definition initialState : DfsState :=
  {| cycles := []; visited := []; inStack := [];
     reportedEdges := []; path := [] |}.

(** The traversal ends within its fuel on every graph and file list. *)
Lemma findCircularDependencies_total g files projectPath :
  exists cs, findCircularDependencies pf g files projectPath = Some cs.
Proof.
  unfold findCircularDependencies.
  destruct (CycleFacts.dfsRoots_total pf projectPath files
              (buildAdjacency g files)
              (buildAdjacency_local g files) files initialState)
    as [st' E].
  - apply incl_refl.
  - repeat split; simpl; try constructor; try discriminate; try contradiction.
    intros x [].
  - reflexivity.
  - unfold initialState in E. rewrite E. eauto.
Qed.

Lemma findCircularDependencies_keys g files projectPath cs :
  findCircularDependencies pf g files projectPath = Some cs ->
  NoDup (map (edgeKey pf projectPath) cs).
Proof.
  unfold findCircularDependencies.
  destruct (dfsRoots pf _ _ _ _ _) as [st'|] eqn:E; [|discriminate].
  intros [= <-].
  apply CycleFacts.dfsRoots_keys in E; [apply E|].
  split; simpl; [constructor|]. intros k. split; [discriminate|intros []].
Qed.

Lemma edgeKey_permutation projectPath c1 c2 :
  Permutation c1 c2 -> edgeKey pf projectPath c1 = edgeKey pf projectPath c2.
Proof.
  intros Hp. unfold edgeKey. f_equal.
  apply SortFacts.sortStrings_permutation. now apply Permutation_map.
Qed.

Lemma two_files x y r1 r2 exps projectPath :
  x <> y -> sourceFile r1 = y -> sourceFile r2 = x ->
  findCircularDependencies pf
    {| exports := exps; imports := [(x, [r1]); (y, [r2])] |}
    [x; y] projectPath
  = Some [[x; y]].
Proof.
  intros Hxy <- <-. set (x := sourceFile r2) in *. set (y := sourceFile r1) in *.
  assert (Exy : str_eqb x y = false) by now apply str_eqb_neq.
  assert (Eyx : str_eqb y x = false) by (rewrite str_eqb_sym; exact Exy).
  unfold findCircularDependencies, buildAdjacency, localDeps, dfsRoots.
  repeat (progress (cbn -[str_eqb edgeKey];
                    unfold set_add, set_has, set_delete, foundCycle, enter,
                      leave, freshPath;
                    fold x; fold y;
                    rewrite ?str_eqb_refl, ?Exy, ?Eyx)).
  reflexivity.
Qed.

(** *** The graph builder *)

Lemma buildStep_unreadable g file :
  readFileSync pf file = None -> buildStep pf g file = g.
Proof. unfold buildStep. now intros ->. Qed.

(** Only files that were read have an entry in the maps. *)
Lemma build_keys_read files : forall g,
  (forall k, In k (map fst (exports g)) \/ In k (map fst (imports g)) ->
             readFileSync pf k <> None) ->
  forall k,
    In k (map fst (exports (fold_left (buildStep pf) files g)))
    \/ In k (map fst (imports (fold_left (buildStep pf) files g))) ->
    readFileSync pf k <> None.
Proof.
  induction files as [|f files IH]; intros g Hg; simpl; [exact Hg|].
  apply IH. intros k. unfold buildStep.
  destruct (readFileSync pf f) eqn:E; [|apply Hg]. simpl.
  rewrite !map_set_keys. intros [[H| ->]|[H| ->]]; auto; congruence.
Qed.

(** *** The unused-export detector *)

(** [allImports.get(file) || new Set()] *)
Definition namesOf (allImports : list (str * list str)) (file : str)
    : list str :=
  match map_get allImports file with Some s => s | None => [] end.

(** Some import record of the graph resolves to [file] and consumes
    [name]. *)
Definition consumes (g : ExportGraph) (file name : str) : Prop :=
  exists importer records r,
    In (importer, records) (imports g) /\ In r records
    /\ sourceFile r = file /\ importedName r = name.

(** The use of an export, in the words of the specification. *)
Definition used (g : ExportGraph) (file exportName : str) : Prop :=
  consumes g file exportName
  \/ consumes g file (lit "*")
  \/ (exportName = lit "default" /\ consumes g file (lit "default")).

Lemma recordImport_names allImports r file name :
  In name (namesOf (recordImport allImports r) file)
  <-> In name (namesOf allImports file)
      \/ (sourceFile r = file /\ importedName r = name).
Proof.
  unfold recordImport, namesOf.
  destruct (str_eqb file (sourceFile r)) eqn:E.
  - apply str_eqb_eq in E. subst file. rewrite map_get_set_same, set_add_In.
    intuition.
  - apply str_eqb_neq in E. rewrite map_get_set_other by exact E.
    intuition. congruence.
Qed.

Lemma recordImports_names records : forall allImports file name,
  In name (namesOf (fold_left recordImport records allImports) file)
  <-> In name (namesOf allImports file)
      \/ exists r, In r records /\ sourceFile r = file /\ importedName r = name.
Proof.
  induction records as [|r records IH]; intros allImports file name; simpl.
  - split; [auto|]. intros [H|(r & [] & _)]. exact H.
  - rewrite IH, recordImport_names. split.
    + intros [[H|H]|(r' & H1 & H2)]; eauto 6.
    + intros [H|(r' & [<-|H1] & H2)]; eauto 6.
Qed.

Lemma collectImports_names g file name :
  In name (namesOf (collectImports g) file) <-> consumes g file name.
Proof.
  unfold collectImports, consumes.
  assert (H : forall (entries : list (str * list ImportRecord)) allImports,
    In name (namesOf
      (fold_left (fun acc entry => fold_left recordImport (snd entry) acc)
         entries allImports) file)
    <-> In name (namesOf allImports file)
        \/ exists importer records r,
             In (importer, records) entries /\ In r records
             /\ sourceFile r = file /\ importedName r = name).
  { induction entries as [|[importer records] entries IH]; intros allImports;
      simpl.
    - split; [auto|]. intros [H|(i & rs & r & [] & _)]. exact H.
    - rewrite IH, recordImports_names. split.
      + intros [[H|(r & H1 & H2)]|(i & rs & r & H1 & H2)]; eauto 10.
      + intros [H|(i & rs & r & [[= <- <-]|H1] & H2)]; eauto 10. }
  rewrite H. simpl. intuition.
Qed.

Lemma isUsed_used g file exportName :
  isUsed (namesOf (collectImports g) file) exportName = true
  <-> used g file exportName.
Proof.
  unfold isUsed, used.
  rewrite !orb_true_iff, andb_true_iff, str_eqb_eq, !set_has_In,
    !collectImports_names.
  tauto.
Qed.

Lemma checkExports_In file usedInFile names : forall acc u,
  In u (fold_left (checkExport pf file usedInFile) names acc)
  <-> In u acc
      \/ (ue_file u = file /\ In (ue_exportName u) names
          /\ startsWith (ue_exportName u) (lit "*") = false
          /\ isUsed usedInFile (ue_exportName u) = false
          /\ ue_line u = getExportLine pf file (ue_exportName u)).
Proof.
  induction names as [|name names IH]; intros acc u; simpl.
  - intuition.
  - rewrite IH. unfold checkExport.
    destruct (startsWith name (lit "*")) eqn:Es;
      [|destruct (isUsed usedInFile name) eqn:Eu; cbn [negb]].
    + split; [tauto|].
      intros [H|(H1 & [<-|H2] & H3 & H4 & H5)]; [tauto|congruence|tauto].
    + split; [tauto|].
      intros [H|(H1 & [<-|H2] & H3 & H4 & H5)]; [tauto|congruence|tauto].
    + rewrite in_app_iff. cbn [In]. split.
      * intros [[H|[<-|[]]]|H]; [tauto|right; cbn; tauto|tauto].
      * intros [H|(H1 & [E|H2] & H3 & H4 & H5)]; [tauto| |tauto].
        left. right. left. destruct u; cbn in *. congruence.
Qed.

(** What [findUnusedExports] returns: the non-wildcard exports of the
    graph that no import uses. *)
Lemma findUnusedExports_In g files projectPath u :
  In u (findUnusedExports pf g files projectPath)
  <-> exists names,
        In (ue_file u, names) (exports g)
        /\ In (ue_exportName u) names
        /\ startsWith (ue_exportName u) (lit "*") = false
        /\ ~ used g (ue_file u) (ue_exportName u)
        /\ ue_line u = getExportLine pf (ue_file u) (ue_exportName u).
Proof.
  unfold findUnusedExports.
  assert (H : forall (entries : list (str * list str)) acc,
    In u (fold_left
      (fun acc entry =>
         fold_left
           (checkExport pf (fst entry)
              (match map_get (collectImports g) (fst entry) with
               | Some s => s | None => [] end))
           (snd entry) acc) entries acc)
    <-> In u acc
        \/ exists names,
             In (ue_file u, names) entries
             /\ In (ue_exportName u) names
             /\ startsWith (ue_exportName u) (lit "*") = false
             /\ ~ used g (ue_file u) (ue_exportName u)
             /\ ue_line u = getExportLine pf (ue_file u) (ue_exportName u)).
  { induction entries as [|[file names] entries IH]; intros acc; simpl.
    - split; [auto|]. intros [H|(x & [] & _)]. exact H.
    - rewrite IH, checkExports_In.
      fold (namesOf (collectImports g) file). split.
      + intros [[H|(H1 & H2 & H3 & H4 & H5)]|(ns & H1 & H2)]; auto.
        * right. exists names. subst file. repeat split; auto.
          rewrite <- isUsed_used. congruence.
        * right. exists ns. intuition.
      + intros [H|(ns & [[= <- <-]|H1] & H2 & H3 & H4 & H5)]; auto.
        * left. right. repeat split; auto.
          destruct (isUsed _ _) eqn:E; [|reflexivity].
          apply isUsed_used in E. contradiction.
        * right. exists ns. intuition. }
  rewrite H. simpl. intuition.
Qed.

(** The finding that the analysis makes of an unused export. *)
Definition unusedIssue (projectPath : str) (u : UnusedExport)
    : TreeShakingIssue :=
  {| i_type := UnusedExportIssue;
     i_severity := Low;
     i_file := relative pf projectPath (ue_file u);
     i_line := Some (ue_line u);
     i_pattern := lit "export " ++ ue_exportName u;
     i_estimatedImpact := 500 |}.

Lemma unusedExportIssues_In projectPath us i :
  In i (unusedExportIssues pf projectPath us)
  <-> exists u, In u us /\ isEntryPoint pf (ue_file u) projectPath = false
                /\ i = unusedIssue projectPath u.
Proof.
  unfold unusedExportIssues.
  assert (H : forall us acc,
    In i (fold_left
      (fun issues u =>
         let relPath := relative pf projectPath (ue_file u) in
         if isEntryPoint pf (ue_file u) projectPath then issues
         else issues ++ [unusedIssue projectPath u]) us acc)
    <-> In i acc
        \/ exists u, In u us /\ isEntryPoint pf (ue_file u) projectPath = false
                     /\ i = unusedIssue projectPath u).
  { clear us. induction us as [|u us IH]; intros acc; simpl.
    - split; [auto|]. intros [H|(x & [] & _)]. exact H.
    - rewrite IH. destruct (isEntryPoint pf (ue_file u) projectPath) eqn:E.
      + split.
        * intros [H|(u' & H1 & H2)]; [now left|right; exists u'; tauto].
        * intros [H|(u' & [<-|H1] & H2 & H3)];
            [now left|congruence|right; exists u'; tauto].
      + rewrite in_app_iff. cbn [In]. split.
        * intros [[H|[<-|[]]]|(u' & H1 & H2)];
            [now left|right; exists u; tauto|right; exists u'; tauto].
        * intros [H|(u' & [<-|H1] & H2 & H3)];
            [tauto|left; right; left; now symmetry|right; exists u'; tauto]. }
  change (fold_left _ us [])
    with (fold_left
            (fun issues u =>
               let relPath := relative pf projectPath (ue_file u) in
               if isEntryPoint pf (ue_file u) projectPath then issues
               else issues ++ [unusedIssue projectPath u]) us []).
  rewrite H. cbn [In]. tauto.
Qed.

(** The analysis returns: the cycle traversal ends within its fuel. *)
Lemma analyzeUnusedExports_total files projectPath :
  exists cs,
    findCircularDependencies pf (buildExportGraph pf files projectPath)
      files projectPath = Some cs
    /\ analyzeUnusedExports pf files projectPath
       = Some (unusedExportIssues pf projectPath
                 (findUnusedExports pf
                    (buildExportGraph pf files projectPath) files projectPath)
               ++ map (cycleIssue pf projectPath) cs).
Proof.
  destruct (findCircularDependencies_total
              (buildExportGraph pf files projectPath) files projectPath)
    as [cs E].
  exists cs. split; [exact E|]. unfold analyzeUnusedExports. now rewrite E.
Qed.

(** An unused-export finding that names [file] and [exportName]. *)
Definition findingFor (projectPath file exportName : str)
    (i : TreeShakingIssue) : Prop :=
  i_type i = UnusedExportIssue
  /\ i_file i = relative pf projectPath file
  /\ i_pattern i = lit "export " ++ exportName.

Lemma cycleIssue_type projectPath cs i :
  In i (map (cycleIssue pf projectPath) cs) ->
  i_type i = CircularDependencyIssue.
Proof. intros H. apply in_map_iff in H as (c & <- & _). reflexivity. Qed.

(** C1: for a file that is not an entry point and an export name of it
    that is not a wildcard, the analysis reports the export unused exactly
    when no import record that resolves to the file consumes the name, the
    namespace, or (for [default]) the default; for an entry point it
    reports no export of the file at all.  Findings name a file by its
    path relative to the project, which identifies the analyzed file. *)
Theorem unused_export_reported_iff (files : list str)
    (projectPath file : str) (names : list str) (exportName : str) :
  let g := buildExportGraph pf files projectPath in
  In (file, names) (exports g) ->
  In exportName names ->
  startsWith exportName (lit "*") = false ->
  (forall other, In other (map fst (exports g)) ->
     relative pf projectPath other = relative pf projectPath file ->
     other = file) ->
  exists issues,
    analyzeUnusedExports pf files projectPath = Some issues
    /\ if isEntryPoint pf file projectPath
       then forall i name, In i issues ->
                           ~ findingFor projectPath file name i
       else (exists i, In i issues
                       /\ findingFor projectPath file exportName i)
            <-> ~ used g file exportName.
Proof.
  intros g Hfile Hname Hstar Hinj.
  destruct (analyzeUnusedExports_total files projectPath) as (cs & _ & E).
  fold g in E. eexists. split; [exact E|].
  destruct (isEntryPoint pf file projectPath) eqn:Eentry.
  - intros i name Hi (Ht & Hf & _).
    apply in_app_iff in Hi as [Hi|Hi].
    + apply unusedExportIssues_In in Hi as (u & _ & Hu & ->).
      cbn in Hf. unfold isEntryPoint in Hu, Eentry. rewrite Hf in Hu.
      congruence.
    + apply cycleIssue_type in Hi. congruence.
  - split.
    + intros (i & Hi & Ht & Hf & Hp).
      apply in_app_iff in Hi as [Hi|Hi];
        [|apply cycleIssue_type in Hi; congruence].
      apply unusedExportIssues_In in Hi as (u & Hu & _ & ->).
      cbn in Hf, Hp. apply app_inv_head in Hp.
      apply findUnusedExports_In in Hu as (ns & H1 & H2 & H3 & H4 & H5).
      assert (ue_file u = file) as Ef.
      { apply Hinj; [|exact Hf]. apply in_map_iff.
        exists (ue_file u, ns). split; [reflexivity|exact H1]. }
      rewrite Ef, Hp in H4. exact H4.
    + intros Hunused.
      set (u := {| ue_file := file; ue_exportName := exportName;
                   ue_line := getExportLine pf file exportName |}).
      exists (unusedIssue projectPath u). split.
      * apply in_app_iff. left. apply unusedExportIssues_In.
        exists u. repeat split; [|exact Eentry].
        apply findUnusedExports_In. exists names. repeat split; auto.
      * repeat split.
Qed.

(** C9: a file whose read throws leaves the graph as it was and the loop
    goes on with the files after it: the graph is the graph of the run
    without the file, the file is a key of neither map, no unused export
    names it, the unused-export findings are those of the run without it,
    and the analysis returns. *)
Theorem unreadable_file_is_skipped (before after : list str)
    (file projectPath : str) :
  readFileSync pf file = None ->
  let g := buildExportGraph pf (before ++ file :: after) projectPath in
  (forall g0, buildStep pf g0 file = g0)
  /\ g = fold_left (buildStep pf) after
           (buildExportGraph pf before projectPath)
  /\ g = buildExportGraph pf (before ++ after) projectPath
  /\ map_get (exports g) file = None
  /\ map_get (imports g) file = None
  /\ (forall u,
        In u (findUnusedExports pf g (before ++ file :: after) projectPath) ->
        ue_file u <> file)
  /\ unusedExportIssues pf projectPath
       (findUnusedExports pf g (before ++ file :: after) projectPath)
     = unusedExportIssues pf projectPath
         (findUnusedExports pf
            (buildExportGraph pf (before ++ after) projectPath)
            (before ++ after) projectPath)
  /\ exists issues,
       analyzeUnusedExports pf (before ++ file :: after) projectPath
       = Some issues.
Proof.
  intros Hread g.
  assert (Hstep : forall g0, buildStep pf g0 file = g0)
    by (intros g0; now apply buildStep_unreadable).
  assert (Hg1 : g = fold_left (buildStep pf) after
                      (buildExportGraph pf before projectPath)).
  { unfold g, buildExportGraph. rewrite fold_left_app. simpl.
    now rewrite Hstep. }
  assert (Hg2 : g = buildExportGraph pf (before ++ after) projectPath).
  { rewrite Hg1. unfold buildExportGraph. now rewrite fold_left_app. }
  assert (Hkeys : forall k,
    In k (map fst (exports g)) \/ In k (map fst (imports g)) ->
    readFileSync pf k <> None).
  { apply build_keys_read. simpl. intros k [[]|[]]. }
  assert (Hexp : map_get (exports g) file = None).
  { destruct (map_get (exports g) file) eqn:E; [|reflexivity].
    apply map_get_In in E. exfalso. apply (Hkeys file); [|exact Hread].
    left. apply in_map_iff. now exists (file, l). }
  assert (Himp : map_get (imports g) file = None).
  { destruct (map_get (imports g) file) eqn:E; [|reflexivity].
    apply map_get_In in E. exfalso. apply (Hkeys file); [|exact Hread].
    right. apply in_map_iff. now exists (file, l). }
  repeat split; auto.
  - intros u Hu Ef. apply findUnusedExports_In in Hu as (ns & H1 & _).
    rewrite Ef in H1. apply In_map_get in H1 as [v Hv]. congruence.
  - rewrite <- Hg2. reflexivity.
  - destruct (analyzeUnusedExports_total (before ++ file :: after) projectPath)
      as (cs & _ & E).
    eauto.
Qed.

End GraphFacts.
End GraphFacts.

(* ================================================================== *)
(** ** The scan of a pattern *)
(* ================================================================== *)

Module RegexFacts.
Import Regex.

(** [text[i - 1]], the character before offset [i]. *)
Definition charBefore (text : str) (i : nat) : option ascii :=
  match i with
  | 0 => None
  | S j => nth_error text j
  end.

(** The pattern matches the text at offset [i]. *)
Definition matchAt (r : regex) (text : str) (i : nat) : option rmatch :=
  exec r (charBefore text i) i (skipn i text).

Lemma exec_index r prev pos s m : exec r prev pos s = Some m -> index m = pos.
Proof.
  unfold exec. destruct (run r _ _); [|discriminate]. now intros [= <-].
Qed.

(** Where the scan stands after [done] characters of [text]. *)
Lemma scan_sound r text : forall rest done skip m,
  text = done ++ rest ->
  In m (scan r (charBefore text (length done)) (length done) rest skip) ->
  matchAt r text (index m) = Some m.
Proof.
  induction rest as [|c rest IH]; intros done skip m Htext Hin.
  - destruct skip; simpl in Hin; [|contradiction].
    destruct (exec r _ _ []) eqn:E; [|contradiction].
    destruct Hin as [<-|[]]. rewrite (exec_index _ _ _ _ _ E).
    unfold matchAt. subst text. rewrite app_nil_r in *.
    rewrite skipn_all. exact E.
  - assert (Hnext : forall skip' m',
      In m' (scan r (Some c) (S (length done)) rest skip') ->
      matchAt r text (index m') = Some m').
    { intros skip' m' H. apply (IH (done ++ [c]) skip' m').
      - now rewrite <- app_assoc.
      - rewrite length_app, Nat.add_1_r. simpl.
        subst text. rewrite nth_error_app2, Nat.sub_diag by lia. exact H. }
    destruct skip; cbn [scan] in Hin; [|eauto].
    destruct (exec r _ _ (c :: rest)) eqn:E.
    + destruct Hin as [<-|Hin]; [|eauto].
      rewrite (exec_index _ _ _ _ _ E). unfold matchAt.
      subst text. rewrite skipn_app, skipn_all, Nat.sub_diag. exact E.
    + eauto.
Qed.

(** Every match that [matchAll] reports is a match of the pattern at its
    index. *)
Lemma matchAll_sound r text m :
  In m (matchAll r text) -> matchAt r text (index m) = Some m.
Proof. intros H. apply (scan_sound r text text [] 0 m); auto. Qed.

Lemma testFrom_sound r text : forall rest done,
  text = done ++ rest ->
  testFrom r (charBefore text (length done)) (length done) rest = true ->
  exists m, matchAt r text (index m) = Some m.
Proof.
  induction rest as [|c rest IH]; intros done Htext H; cbn [testFrom] in H.
  - destruct (exec r _ _ []) as [m|] eqn:E; [|discriminate].
    exists m. rewrite (exec_index _ _ _ _ _ E). unfold matchAt.
    subst text. rewrite app_nil_r in *. now rewrite skipn_all.
  - destruct (exec r _ _ (c :: rest)) as [m|] eqn:E.
    + exists m. rewrite (exec_index _ _ _ _ _ E). unfold matchAt.
      subst text. now rewrite skipn_app, skipn_all, Nat.sub_diag.
    + apply (IH (done ++ [c])).
      * now rewrite <- app_assoc.
      * rewrite length_app, Nat.add_1_r. simpl.
        subst text. now rewrite nth_error_app2, Nat.sub_diag by lia.
Qed.

Lemma test_sound r text :
  test r text = true -> exists m, matchAt r text (index m) = Some m.
Proof. intros H. now apply (testFrom_sound r text text []). Qed.

(** A scan that reports a match makes [test] succeed. *)
Lemma scan_test r : forall s prev pos skip,
  scan r prev pos s skip <> [] -> testFrom r prev pos s = true.
Proof.
  induction s as [|c s IH]; intros prev pos skip H; cbn [testFrom].
  - destruct skip; simpl in H; [|congruence].
    destruct (exec r prev pos []); [reflexivity|congruence].
  - destruct (exec r prev pos (c :: s)) eqn:E; [reflexivity|].
    destruct skip; cbn [scan] in H; [rewrite E in H|]; eapply IH; exact H.
Qed.

Lemma matchAll_test r text m : In m (matchAll r text) -> test r text = true.
Proof.
  intros H. apply (scan_test r text None 0 0). intros E.
  unfold matchAll in H. rewrite E in H. contradiction.
Qed.

(** A pattern that begins [\b] and a literal matches only where the text
    has the first character of the literal. *)
Lemma run_wordb_lit c l rest k st st' :
  run (RSeq RWordB (RSeq (RLit (c :: l)) rest)) k st = Some st' ->
  hd_error (m_rest st) = Some c.
Proof.
  cbn [run]. destruct (xorb _ _); [|discriminate].
  cbn [litLoop]. destruct (m_rest st) as [|x s]; [discriminate|].
  destruct (ceq c x) eqn:E; [|discriminate].
  apply ceq_eq in E. now subst.
Qed.

Lemma hd_skipn (s : str) i : hd_error (skipn i s) = nth_error s i.
Proof.
  revert s; induction i as [|i IH]; intros [|c s]; simpl; auto.
Qed.

Lemma matchAt_first_char c l rest text i m :
  matchAt (RSeq RWordB (RSeq (RLit (c :: l)) rest)) text i = Some m ->
  nth_error text i = Some c.
Proof.
  unfold matchAt, exec. intros H.
  destruct (run _ _ _) eqn:E; [|discriminate].
  apply run_wordb_lit in E. simpl in E. now rewrite hd_skipn in E.
Qed.

End RegexFacts.

(* ================================================================== *)
(** ** The fallback extractor *)
(* ================================================================== *)

Module FallbackFacts.
Import Regex Fallback RegexFacts.

Lemma fold_left_inv (A B : Type) (f : A -> B -> A) (P : A -> Prop)
    (l : list B) : forall a,
  P a -> (forall a b, In b l -> P a -> P (f a b)) -> P (fold_left f l a).
Proof.
  induction l as [|b l IH]; intros a Ha Hstep; simpl; [exact Ha|].
  apply IH.
  - apply Hstep; [now left|exact Ha].
  - intros a' b' Hb. apply Hstep. now right.
Qed.

(** A loop reaches the effect of each of its iterations, when later
    iterations keep it. *)
Lemma fold_left_reach (A B : Type) (f : A -> B -> A) (Q : A -> Prop)
    (l : list B) (b : B) : forall a,
  In b l -> (forall a, Q (f a b)) -> (forall a b', Q a -> Q (f a b')) ->
  Q (fold_left f l a).
Proof.
  induction l as [|b' l IH]; intros a Hin Hb Hkeep; [contradiction|].
  simpl. destruct Hin as [->|Hin].
  - apply fold_left_inv; [apply Hb|]. intros a' b'' _. apply Hkeep.
  - now apply IH.
Qed.

Lemma addExports_In names : forall fileExports n,
  In n (addExports names fileExports)
  <-> In n fileExports \/ (In n names /\ truthy n = true).
Proof.
  unfold addExports.
  induction names as [|name names IH]; intros fileExports n; simpl.
  - tauto.
  - rewrite IH. destruct (truthy name) eqn:E.
    + rewrite set_add_In. split.
      * intros [[H| ->]|H]; tauto.
      * intros [H|[[<-|H] Ht]]; tauto.
    + split; [tauto|]. intros [H|[[<-|H] Ht]]; [tauto|congruence|tauto].
Qed.

Section WithPlatform.
Variable pf : Platform.

Definition recordOf (file source name : str) : ImportRecord :=
  {| importedName := name;
     sourceFile := Resolver.resolveImportPath pf file source |}.

Lemma pushImports_In file source names : forall fileImports r,
  In r (pushImports pf file source names fileImports)
  <-> In r fileImports
      \/ exists n, In n names /\ truthy n = true
                   /\ r = recordOf file source n.
Proof.
  unfold pushImports.
  induction names as [|name names IH]; intros fileImports r; simpl.
  - split; [auto|]. intros [H|(n & [] & _)]. exact H.
  - rewrite IH. destruct (truthy name) eqn:E.
    + rewrite in_app_iff. cbn [In]. split.
      * intros [[H|[<-|[]]]|(n & H1 & H2)];
          [tauto|right; exists name; tauto|right; exists n; tauto].
      * intros [H|(n & [<-|H1] & H2 & ->)];
          [tauto|left; right; now left|right; exists n; tauto].
    + split.
      * intros [H|(n & H1 & H2)]; [tauto|right; exists n; tauto].
      * intros [H|(n & [<-|H1] & H2 & H3)];
          [tauto|congruence|right; exists n; tauto].
Qed.

(** *** The stages of the extractor, in the order of the source *)

Section Stages.
Variables (content file : str) (fileExports : list str)
  (fileImports : list ImportRecord).

Let stripped := Normalizer.stripLiteralsAndComments content.

Definition stage0 : extraction :=
  (if test exportDefaultRegex stripped
   then set_add fileExports (lit "default") else fileExports,
   fileImports).
Definition stage1 : extraction :=
  fold_left (declStep stripped) (matchAll namedExportDeclRegex stripped)
    stage0.
Definition stage2 : extraction :=
  fold_left (exportBraceStep pf stripped file)
    (matchAll exportBraceRegex content) stage1.
Definition stage3 : extraction :=
  fold_left (exportAllStep pf stripped file)
    (matchAll exportAllRegex content) stage2.
Definition stage4 : extraction :=
  fold_left (declStep stripped) (matchAll tsExportTypeRegex stripped) stage3.
Definition stage5 : extraction :=
  fold_left (namedImportStep pf stripped file)
    (matchAll namedImportRegex content) stage4.
Definition stage6 : extraction :=
  fold_left (defaultImportStep pf stripped file)
    (matchAll defaultImportRegex content) stage5.
Definition stage7 : extraction :=
  fold_left (namespaceImportStep pf stripped file)
    (matchAll namespaceImportRegex content) stage6.

Lemma extract_stages :
  extractExportsAndImportsViaRegex pf content stripped file fileExports
    fileImports = stage7.
Proof. reflexivity. Qed.

End Stages.

(** *** No step loses a record *)

Definition grows (a b : extraction) : Prop :=
  incl (fst a) (fst b) /\ incl (snd a) (snd b).

Lemma grows_refl a : grows a a.
Proof. split; apply incl_refl. Qed.

Lemma grows_trans a b c : grows a b -> grows b c -> grows a c.
Proof. intros [H1 H2] [H3 H4]. split; eapply incl_tran; eassumption. Qed.

Lemma fold_grows (step : extraction -> rmatch -> extraction) ms :
  (forall a m, grows a (step a m)) -> forall a, grows a (fold_left step ms a).
Proof.
  intros Hstep. induction ms as [|m ms IH]; intros a; simpl.
  - apply grows_refl.
  - eapply grows_trans; [apply Hstep|apply IH].
Qed.

Lemma incl_set_add s x : incl s (set_add s x).
Proof. intros y Hy. apply set_add_In. now left. Qed.

Lemma incl_addExports names s : incl s (addExports names s).
Proof. intros y Hy. apply addExports_In. now left. Qed.

Lemma incl_pushImports file source names l :
  incl l (pushImports pf file source names l).
Proof. intros y Hy. apply pushImports_In. now left. Qed.

Lemma declStep_grows s a m : grows a (declStep s a m).
Proof.
  unfold declStep. destruct (negb _); [apply grows_refl|].
  split; simpl; [apply incl_set_add|apply incl_refl].
Qed.

Lemma exportBraceStep_grows s file a m :
  grows a (exportBraceStep pf s file a m).
Proof.
  unfold exportBraceStep. destruct (negb _); [apply grows_refl|].
  destruct (truthy_opt _); split; simpl;
    auto using incl_addExports, incl_pushImports, incl_refl.
Qed.

Lemma exportAllStep_grows s file a m : grows a (exportAllStep pf s file a m).
Proof.
  unfold exportAllStep. destruct (negb _); [apply grows_refl|].
  split; simpl; [apply incl_set_add|apply incl_appl, incl_refl].
Qed.

Lemma namedImportStep_grows s file a m :
  grows a (namedImportStep pf s file a m).
Proof.
  unfold namedImportStep. destruct (negb _); [apply grows_refl|].
  split; simpl; [apply incl_refl|apply incl_pushImports].
Qed.

Lemma defaultImportStep_grows s file a m :
  grows a (defaultImportStep pf s file a m).
Proof.
  unfold defaultImportStep. destruct (negb _); [apply grows_refl|].
  split; simpl; [apply incl_refl|apply incl_appl, incl_refl].
Qed.

Lemma namespaceImportStep_grows s file a m :
  grows a (namespaceImportStep pf s file a m).
Proof.
  unfold namespaceImportStep. destruct (negb _); [apply grows_refl|].
  split; simpl; [apply incl_refl|apply incl_appl, incl_refl].
Qed.

Section StageGrowth.
Variables (content file : str) (fileExports : list str)
  (fileImports : list ImportRecord).

Let st (k : nat) : extraction :=
  match k with
  | 0 => stage0 content fileExports fileImports
  | 1 => stage1 content fileExports fileImports
  | 2 => stage2 content file fileExports fileImports
  | 3 => stage3 content file fileExports fileImports
  | 4 => stage4 content file fileExports fileImports
  | 5 => stage5 content file fileExports fileImports
  | 6 => stage6 content file fileExports fileImports
  | _ => stage7 content file fileExports fileImports
  end.

Lemma stage_step k : grows (st k) (st (S k)).
Proof.
  destruct k as [|[|[|[|[|[|[|k]]]]]]]; try apply grows_refl; cbn [st];
    apply fold_grows; intros a m;
    auto using declStep_grows, exportBraceStep_grows, exportAllStep_grows,
      namedImportStep_grows, defaultImportStep_grows,
      namespaceImportStep_grows.
Qed.

Lemma stage_grows k : forall j, k <= j -> grows (st k) (st j).
Proof.
  induction 1 as [|j _ IH]; [apply grows_refl|].
  eapply grows_trans; [exact IH|apply stage_step].
Qed.

Lemma stage_final k :
  grows (st k) (stage7 content file fileExports fileImports).
Proof.
  destruct (le_lt_dec k 7) as [H|H].
  - apply (stage_grows k 7 H).
  - do 8 (destruct k as [|k]; [lia|]). apply grows_refl.
Qed.

Lemma stage0_final :
  grows (stage0 content fileExports fileImports)
    (stage7 content file fileExports fileImports).
Proof. exact (stage_final 0). Qed.
Lemma stage1_final :
  grows (stage1 content fileExports fileImports)
    (stage7 content file fileExports fileImports).
Proof. exact (stage_final 1). Qed.
Lemma stage2_final :
  grows (stage2 content file fileExports fileImports)
    (stage7 content file fileExports fileImports).
Proof. exact (stage_final 2). Qed.
Lemma stage3_final :
  grows (stage3 content file fileExports fileImports)
    (stage7 content file fileExports fileImports).
Proof. exact (stage_final 3). Qed.
Lemma stage4_final :
  grows (stage4 content file fileExports fileImports)
    (stage7 content file fileExports fileImports).
Proof. exact (stage_final 4). Qed.

End StageGrowth.

(** *** Where the records come from *)

(** The pattern rules that produce export records. *)
Inductive ExportRule : Type :=
| DefaultRule | DeclRule | BraceRule | AllRule | TypeRule.

Definition pattern (rule : ExportRule) : regex :=
  match rule with
  | DefaultRule => exportDefaultRegex
  | DeclRule => namedExportDeclRegex
  | BraceRule => exportBraceRegex
  | AllRule => exportAllRegex
  | TypeRule => tsExportTypeRegex
  end.

(** The text that the source hands to each rule: the raw text to the
    brace and export-all rules, the normalized text to the others. *)
Definition scanned (rule : ExportRule) (content : str) : str :=
  match rule with
  | BraceRule | AllRule => content
  | _ => Normalizer.stripLiteralsAndComments content
  end.

(** The export names that a match of a rule stands for. *)
Definition yields (rule : ExportRule) (m : rmatch) (n : str) : Prop :=
  match rule with
  | DefaultRule => n = lit "default"
  | DeclRule | TypeRule => n = grp 1 m
  | BraceRule => In n (exportedNames (grp 1 m)) /\ truthy n = true
  | AllRule => n = lit "* from " ++ grp 1 m
  end.

(** The rule matches its text at offset [i]. *)
Definition occursAt (rule : ExportRule) (content : str) (i : nat)
    (m : rmatch) : Prop :=
  matchAt (pattern rule) (scanned rule content) i = Some m.

(** An export name with a match in real code behind it. *)
Definition hasOrigin (content : str) (n : str) : Prop :=
  exists rule m,
    occursAt rule content (index m) m
    /\ inCode (Normalizer.stripLiteralsAndComments content) (index m) = true
    /\ yields rule m n.

Lemma inCode_at_e stripped i :
  nth_error stripped i = Some "e" -> inCode stripped i = true.
Proof. unfold inCode. now intros ->. Qed.

Section Origins.
Variables (content file : str) (fileExports : list str)
  (fileImports : list ImportRecord).

Let stripped := Normalizer.stripLiteralsAndComments content.

Definition sourced (a : extraction) : Prop :=
  forall n, In n (fst a) -> In n fileExports \/ hasOrigin content n.

Lemma stage0_sourced : sourced (stage0 content fileExports fileImports).
Proof.
  unfold sourced, stage0. fold stripped.
  destruct (test exportDefaultRegex stripped) eqn:E; cbn [fst]; [|auto].
  intros n Hn. apply set_add_In in Hn as [Hn| ->]; [now left|right].
  apply test_sound in E as [m Hm].
  exists DefaultRule, m. split; [exact Hm|]. split; [|reflexivity].
  apply inCode_at_e. eapply matchAt_first_char. exact Hm.
Qed.

Lemma declStep_sourced rule a m :
  rule = DeclRule \/ rule = TypeRule ->
  In m (matchAll (pattern rule) stripped) ->
  sourced a -> sourced (declStep stripped a m).
Proof.
  intros Hrule Hm Ha. unfold declStep.
  destruct (inCode stripped (index m)) eqn:E; cbn [negb]; [|exact Ha].
  intros n Hn. cbn [fst] in Hn. apply set_add_In in Hn as [Hn| ->];
    [now apply Ha|right].
  exists rule, m. repeat split.
  - apply matchAll_sound. destruct Hrule as [-> | ->]; exact Hm.
  - exact E.
  - destruct Hrule as [-> | ->]; reflexivity.
Qed.

Lemma exportBraceStep_sourced a m :
  In m (matchAll exportBraceRegex content) ->
  sourced a -> sourced (exportBraceStep pf stripped file a m).
Proof.
  intros Hm Ha. unfold exportBraceStep.
  destruct (inCode stripped (index m)) eqn:E; cbn [negb]; [|exact Ha].
  assert (H : forall n, In n (addExports (exportedNames (grp 1 m)) (fst a)) ->
                        In n fileExports \/ hasOrigin content n).
  { intros n Hn. apply addExports_In in Hn as [Hn|Hn]; [now apply Ha|right].
    exists BraceRule, m. repeat split; try tauto.
    now apply matchAll_sound. }
  destruct (truthy_opt _); exact H.
Qed.

Lemma exportAllStep_sourced a m :
  In m (matchAll exportAllRegex content) ->
  sourced a -> sourced (exportAllStep pf stripped file a m).
Proof.
  intros Hm Ha. unfold exportAllStep.
  destruct (inCode stripped (index m)) eqn:E; cbn [negb]; [|exact Ha].
  intros n Hn. cbn [fst] in Hn. apply set_add_In in Hn as [Hn| ->];
    [now apply Ha|right].
  exists AllRule, m. repeat split; auto. now apply matchAll_sound.
Qed.

Lemma same_exports_sourced a b : fst b = fst a -> sourced a -> sourced b.
Proof. unfold sourced. now intros ->. Qed.

Lemma stage7_sourced : sourced (stage7 content file fileExports fileImports).
Proof.
  unfold stage7, stage6, stage5, stage4, stage3, stage2, stage1.
  fold stripped.
  apply fold_left_inv;
    [|intros a m _; apply same_exports_sourced; unfold namespaceImportStep;
      now destruct (negb _)].
  apply fold_left_inv;
    [|intros a m _; apply same_exports_sourced; unfold defaultImportStep;
      now destruct (negb _)].
  apply fold_left_inv;
    [|intros a m _; apply same_exports_sourced; unfold namedImportStep;
      now destruct (negb _)].
  apply fold_left_inv;
    [|intros a m Hm; apply (declStep_sourced TypeRule); auto].
  apply fold_left_inv; [|intros a m Hm; now apply exportAllStep_sourced].
  apply fold_left_inv; [|intros a m Hm; now apply exportBraceStep_sourced].
  apply fold_left_inv;
    [|intros a m Hm; apply (declStep_sourced DeclRule); auto].
  apply stage0_sourced.
Qed.

(** A match that the scan of a rule reports in real code is recorded. *)
Lemma scanned_match_recorded rule m n :
  In m (matchAll (pattern rule) (scanned rule content)) ->
  inCode stripped (index m) = true ->
  yields rule m n ->
  In n (fst (stage7 content file fileExports fileImports)).
Proof.
  intros Hm Hcode Hy. destruct rule; cbn [pattern scanned yields] in *.
  - apply (stage0_final content file fileExports fileImports).
    unfold stage0. rewrite (matchAll_test _ _ _ Hm).
    subst n. cbn [fst]. apply set_add_In. now right.
  - apply (stage1_final content file fileExports fileImports).
    unfold stage1. fold stripped.
    apply (fold_left_reach _ _ _ (fun a => In n (fst a)) _ m); auto.
    + intros a. unfold declStep. rewrite Hcode. cbn [negb fst].
      apply set_add_In. now right.
    + intros a m' Ha. now apply (declStep_grows stripped a m').
  - apply (stage2_final content file fileExports fileImports).
    unfold stage2. fold stripped.
    apply (fold_left_reach _ _ _ (fun a => In n (fst a)) _ m); auto.
    + intros a. unfold exportBraceStep. rewrite Hcode. cbn [negb].
      assert (In n (addExports (exportedNames (grp 1 m)) (fst a)))
        by (apply addExports_In; now right).
      now destruct (truthy_opt _).
    + intros a m' Ha. now apply (exportBraceStep_grows stripped file a m').
  - apply (stage3_final content file fileExports fileImports).
    unfold stage3. fold stripped.
    apply (fold_left_reach _ _ _ (fun a => In n (fst a)) _ m); auto.
    + intros a. unfold exportAllStep. rewrite Hcode. cbn [negb fst].
      apply set_add_In. now right.
    + intros a m' Ha. now apply (exportAllStep_grows stripped file a m').
  - apply (stage4_final content file fileExports fileImports).
    unfold stage4. fold stripped.
    apply (fold_left_reach _ _ _ (fun a => In n (fst a)) _ m); auto.
    + intros a. unfold declStep. rewrite Hcode. cbn [negb fst].
      apply set_add_In. now right.
    + intros a m' Ha. now apply (declStep_grows stripped a m').
Qed.

End Origins.

(** C8, as the code has it: every export record of the fallback
    extractor comes from a match whose start offset is not masked in the
    normalized text; hence a file in which every occurrence of every
    export pattern starts at a masked offset yields no export record;
    and every match that the left-to-right scan of a rule reports at a
    non-masked offset is recorded. *)
Theorem fallback_records_code_only (content file : str) :
  let stripped := Normalizer.stripLiteralsAndComments content in
  let e := extractExportsAndImportsViaRegex pf content stripped file [] [] in
  (forall n, In n (fst e) -> hasOrigin content n)
  /\ ((forall rule i m, occursAt rule content i m ->
                        inCode stripped i = false) ->
      fst e = [])
  /\ (forall rule m n,
        In m (matchAll (pattern rule) (scanned rule content)) ->
        inCode stripped (index m) = true ->
        yields rule m n ->
        In n (fst e)).
Proof.
  intros stripped e.
  assert (HA : forall n, In n (fst e) -> hasOrigin content n).
  { intros n Hn. destruct (stage7_sourced content file [] [] n Hn) as [[]|H].
    exact H. }
  split; [exact HA|split].
  - intros Hmasked. destruct (fst e) as [|n l] eqn:E; [reflexivity|].
    destruct (HA n) as (rule & m & Ho & Hc & _); [now left|].
    apply Hmasked in Ho. fold stripped in Hc. congruence.
  - intros rule m n. apply scanned_match_recorded.
Qed.

(** *** Type-only imports *)

(** The pattern rules that produce import records; each scans the raw
    text. *)
Inductive ImportRule : Type :=
| ReexportRule | ExportAllRule | NamedImportRule | DefaultImportRule
| NamespaceImportRule.

Definition ipattern (rule : ImportRule) : regex :=
  match rule with
  | ReexportRule => exportBraceRegex
  | ExportAllRule => exportAllRegex
  | NamedImportRule => namedImportRegex
  | DefaultImportRule => defaultImportRegex
  | NamespaceImportRule => namespaceImportRegex
  end.

Definition spaces (ws : str) : Prop := Forall (fun c => is_space c = true) ws.

(** The text at offset [i] reads [import], white space, and the whole
    word [type]. *)
Definition importTypeAt (content : str) (i : nat) : Prop :=
  exists ws rest,
    skipn i content = lit "import" ++ ws ++ lit "type" ++ rest
    /\ ws <> [] /\ spaces ws /\ word_opt (hd_error rest) = false.

Lemma space_is_no_token c :
  is_space c = true ->
  ceq "t" c = false /\ ceq "{" c = false /\ ceq "*" c = false
  /\ is_ident_start c = false.
Proof.
  destruct c as [[] [] [] [] [] [] [] []]; intros H;
    try discriminate H; repeat split.
Qed.

(** Greedy white space gives up only where the continuation fails on
    every suffix of the run. *)
Lemma starLoop_spaces_none (k : cont) caps tail : forall ws prev pos,
  spaces ws ->
  (forall c tail', tail = c :: tail' -> is_space c = false) ->
  (forall j prev' pos', j <= length ws ->
     k (MState prev' pos' (skipn j ws ++ tail) caps) = None) ->
  starLoop is_space k prev pos (ws ++ tail) caps = None.
Proof.
  induction ws as [|w ws IH]; intros prev pos Hws Htail Hk.
  - pose proof (Hk 0 prev pos (Nat.le_refl _)) as H0.
    cbn [skipn app] in *.
    destruct tail as [|c tail']; cbn [starLoop]; [exact H0|].
    now rewrite (Htail c tail' eq_refl).
  - inversion Hws as [|? ? Hw Hws']; subst. cbn [app starLoop]. rewrite Hw.
    rewrite IH; auto.
    + apply (Hk 0 prev pos). simpl. lia.
    + intros j prev' pos' Hj. apply (Hk (S j) prev' pos'). simpl. lia.
Qed.

Lemma skipn_spaces ws : forall j, spaces ws ->
  skipn j ws = [] \/ exists w ws', skipn j ws = w :: ws' /\ is_space w = true.
Proof.
  induction ws as [|w ws IH]; intros j Hws.
  - left. now destruct j.
  - inversion Hws; subst. destruct j as [|j]; simpl; [right; eauto|].
    now apply IH.
Qed.

Lemma named_import_not_type prev pos caps k s rest :
  (s = lit "type" ++ rest /\ word_opt (hd_error rest) = false)
  \/ (exists w s', s = w :: s' /\ is_space w = true) ->
  run (rcat [notType; kw "{"; RGroup 1 (RPlus not_rbrace); kw "}"; ws1;
             kw "from"; ws1; quoted 2]) k (MState prev pos s caps) = None.
Proof.
  intros [[-> Hw]|(w & s' & -> & Hw)].
  - unfold kw, lit. cbn. now destruct (litLoop _ _ _ _ _ _).
  - destruct (space_is_no_token w Hw) as (H1 & H2 & _).
    unfold notType, kw, lit. cbn -[ceq]. now rewrite H1, H2.
Qed.

Lemma default_import_not_type prev pos caps k s rest :
  (s = lit "type" ++ rest /\ word_opt (hd_error rest) = false)
  \/ (exists w s', s = w :: s' /\ is_space w = true) ->
  run (rcat [notType; RGroup 1 ident; ws1; kw "from"; ws1; quoted 2]) k
    (MState prev pos s caps) = None.
Proof.
  intros [[-> Hw]|(w & s' & -> & Hw)].
  - unfold notType, kw, lit.
    destruct rest as [|c rest]; cbn -[is_word] in *;
      [reflexivity|now rewrite Hw].
  - destruct (space_is_no_token w Hw) as (H1 & _ & _ & H4).
    unfold notType, kw, lit. cbn -[ceq is_ident_start]. now rewrite H1, H4.
Qed.

Lemma namespace_import_not_type prev pos caps k s rest :
  (s = lit "type" ++ rest /\ word_opt (hd_error rest) = false)
  \/ (exists w s', s = w :: s' /\ is_space w = true) ->
  run (rcat [kw "*"; ws1; kw "as"; ws1; ident; ws1; kw "from"; ws1;
             quoted 1]) k (MState prev pos s caps) = None.
Proof.
  intros [[-> Hw]|(w & s' & -> & Hw)].
  - reflexivity.
  - destruct (space_is_no_token w Hw) as (_ & _ & H3 & _).
    unfold kw, lit. cbn -[ceq]. now rewrite H3.
Qed.

(** After [import] and its white space, no import rule goes on over the
    word [type]. *)
Lemma import_rule_fails (tailRule : regex) prev pos ws rest :
  (forall prev' pos' caps k s,
     (s = lit "type" ++ rest /\ word_opt (hd_error rest) = false)
     \/ (exists w s', s = w :: s' /\ is_space w = true) ->
     run tailRule k (MState prev' pos' s caps) = None) ->
  ws <> [] -> spaces ws -> word_opt (hd_error rest) = false ->
  exec (RSeq RWordB (RSeq (kw "import") (RSeq ws1 tailRule))) prev pos
    (lit "import" ++ ws ++ lit "type" ++ rest) = None.
Proof.
  intros Htail Hne Hws Hrest. unfold exec.
  cbn [run m_prev m_pos m_rest m_caps].
  destruct (xorb _ _); [|reflexivity].
  destruct ws as [|w ws]; [congruence|]. inversion Hws as [|? ? Hw Hws']; subst.
  unfold kw, ws1, lit.
  cbn [run m_prev m_pos m_rest m_caps litLoop list_ascii_of_string app ceq
         Ascii.eqb Bool.eqb andb].
  rewrite Hw.
  change ("t" :: "y" :: "p" :: "e" :: rest) with (lit "type" ++ rest).
  rewrite starLoop_spaces_none; auto.
  - intros c tail' [= <- _]. reflexivity.
  - intros j prev' pos' Hj. apply Htail.
    destruct (skipn_spaces ws j Hws') as [->|(w' & ws' & -> & Hw')].
    + left. split; [reflexivity|exact Hrest].
    + right. exists w', (ws' ++ lit "type" ++ rest).
      split; [reflexivity|exact Hw'].
Qed.



Lemma export_rule_fails_at_import (tailRule : regex) prev pos s :
  exec (RSeq RWordB (RSeq (kw "export") tailRule)) prev pos
    (lit "import" ++ s) = None.
Proof.
  unfold exec. cbn [run m_prev m_pos m_rest m_caps].
  now destruct (xorb _ _).
Qed.

Lemma no_rule_at_import_type content i :
  importTypeAt content i ->
  forall rule, matchAt (ipattern rule) content i = None.
Proof.
  intros (ws & rest & E & Hne & Hws & Hrest) rule. unfold matchAt.
  rewrite E. destruct rule; cbn [ipattern].
  - apply export_rule_fails_at_import.
  - apply export_rule_fails_at_import.
  - apply import_rule_fails; auto.
    intros prev' pos' caps k s. apply named_import_not_type.
  - apply import_rule_fails; auto.
    intros prev' pos' caps k s. apply default_import_not_type.
  - apply import_rule_fails; auto.
    intros prev' pos' caps k s. apply namespace_import_not_type.
Qed.

(** The specifier that a match of an import rule carries. *)
Definition specifierOf (rule : ImportRule) (m : rmatch) : str :=
  match rule with
  | ReexportRule | NamedImportRule | DefaultImportRule => grp 2 m
  | ExportAllRule | NamespaceImportRule => grp 1 m
  end.

(** An import record with a match in real code behind it. *)
Definition importOrigin (content file : str) (r : ImportRecord) : Prop :=
  exists rule m,
    matchAt (ipattern rule) content (index m) = Some m
    /\ inCode (Normalizer.stripLiteralsAndComments content) (index m) = true
    /\ sourceFile r
       = Resolver.resolveImportPath pf file (specifierOf rule m).

Section ImportOrigins.
Variables (content file : str) (fileExports : list str)
  (fileImports : list ImportRecord).

Let stripped := Normalizer.stripLiteralsAndComments content.

Definition isourced (a : extraction) : Prop :=
  forall r, In r (snd a) -> In r fileImports \/ importOrigin content file r.

Lemma same_imports_isourced a b : snd b = snd a -> isourced a -> isourced b.
Proof. unfold isourced. now intros ->. Qed.

Lemma import_step_isourced rule (step : extraction -> rmatch -> extraction)
    a m :
  In m (matchAll (ipattern rule) content) ->
  (inCode stripped (index m) = false -> step a m = a) ->
  (forall r, In r (snd (step a m)) ->
     In r (snd a)
     \/ sourceFile r
        = Resolver.resolveImportPath pf file (specifierOf rule m)) ->
  isourced a -> isourced (step a m).
Proof.
  intros Hm Hskip Hnew Ha. destruct (inCode stripped (index m)) eqn:E.
  - intros r Hr. destruct (Hnew r Hr) as [H|H]; [now apply Ha|].
    right. exists rule, m. repeat split; auto. now apply matchAll_sound.
  - now rewrite Hskip.
Qed.

Lemma pushed_source file' source names l r :
  In r (pushImports pf file' source names l) ->
  In r l \/ sourceFile r = Resolver.resolveImportPath pf file' source.
Proof.
  intros H. apply pushImports_In in H as [H|(n & _ & _ & ->)]; auto.
Qed.

Lemma appended_source (l : list ImportRecord) x r :
  In r (l ++ [x]) -> In r l \/ sourceFile r = sourceFile x.
Proof.
  intros H. apply in_app_iff in H as [H|[<-|[]]]; auto.
Qed.

Lemma stage7_isourced :
  isourced (stage7 content file fileExports fileImports).
Proof.
  unfold stage7, stage6, stage5, stage4, stage3, stage2, stage1.
  fold stripped.
  apply fold_left_inv.
  2:{ intros a m Hm. apply (import_step_isourced NamespaceImportRule); auto;
      unfold namespaceImportStep; [now intros ->|].
      destruct (negb _); [auto|]. intros r. apply appended_source. }
  apply fold_left_inv.
  2:{ intros a m Hm. apply (import_step_isourced DefaultImportRule); auto;
      unfold defaultImportStep; [now intros ->|].
      destruct (negb _); [auto|]. intros r. apply appended_source. }
  apply fold_left_inv.
  2:{ intros a m Hm. apply (import_step_isourced NamedImportRule); auto;
      unfold namedImportStep; [now intros ->|].
      destruct (negb _); [auto|]. intros r. apply pushed_source. }
  apply fold_left_inv.
  2:{ intros a m _. apply same_imports_isourced. unfold declStep.
      now destruct (negb _). }
  apply fold_left_inv.
  2:{ intros a m Hm. apply (import_step_isourced ExportAllRule); auto;
      unfold exportAllStep; [now intros ->|].
      destruct (negb _); [auto|]. intros r. apply appended_source. }
  apply fold_left_inv.
  2:{ intros a m Hm. apply (import_step_isourced ReexportRule); auto;
      unfold exportBraceStep; [now intros ->|].
      destruct (negb _); [auto|]. destruct (truthy_opt _); [|auto].
      intros r. apply pushed_source. }
  apply fold_left_inv.
  2:{ intros a m _. apply same_imports_isourced. unfold declStep.
      now destruct (negb _). }
  intros r Hr. now left.
Qed.

End ImportOrigins.

End WithPlatform.

(** A project of two TypeScript files, which acorn does not parse:
    [a.ts] exports [Foo], and [b.ts] consumes it through [importLine]. *)
Definition typeProject (importLine : string) : Platform :=
  Demo.platform
    [(lit "/p/src/a.ts", lit "export interface Foo { n: number }");
     (lit "/p/src/b.ts", lit importLine ++ lit "
let n: number = 1;")]
    [lit "/p"; lit "/p/src"] [].

Definition typeProjectFiles : list str :=
  [lit "/p/src/a.ts"; lit "/p/src/b.ts"].

(** C10: every import record of the fallback extractor comes from a
    match of an import-producing rule that starts in real code, and no
    such rule matches where the text reads [import], white space and the
    word [type]: a statement that begins [import type] produces no
    import record.  So an export consumed only through a type-only import
    is reported unused, while the same import without [type] uses it. *)
Theorem type_only_import_leaves_no_record :
  (forall pf content file,
     let stripped := Normalizer.stripLiteralsAndComments content in
     let e := extractExportsAndImportsViaRegex pf content stripped file
                [] [] in
     (forall r, In r (snd e) -> importOrigin pf content file r)
     /\ (forall i, importTypeAt content i ->
                   forall rule, matchAt (ipattern rule) content i = None))
  /\ analyzeUnusedExports (typeProject "import type { Foo } from './a';")
       typeProjectFiles (lit "/p")
     = Some [{| i_type := UnusedExportIssue; i_severity := Low;
                i_file := lit "src/a.ts"; i_line := Some 1;
                i_pattern := lit "export Foo";
                i_estimatedImpact := 500 |}]
  /\ analyzeUnusedExports (typeProject "import { Foo } from './a';")
       typeProjectFiles (lit "/p")
     = Some [].
Proof.
  split; [|split; vm_compute; reflexivity].
  intros pf content file stripped e. split.
  - intros r Hr.
    destruct (stage7_isourced pf content file [] [] r Hr) as [[]|H].
    exact H.
  - intros i. apply no_rule_at_import_type.
Qed.

End FallbackFacts.

(* ================================================================== *)
(** ** Re-exports *)
(* ================================================================== *)

Module ReexportFacts.
Import Regex Fallback RegexFacts FallbackFacts GraphFacts.

Section ReexportFacts.
Variable pf : Platform.

(** *** The primary extractor *)

Lemma addName_grows name exps : incl exps (Primary.addName name exps).
Proof.
  unfold Primary.addName. destruct name as [n|]; [|apply incl_refl].
  destruct (truthy n); [apply incl_set_add|apply incl_refl].
Qed.

Lemma exportSpecifierStep_grows file source a spec :
  grows a (Primary.exportSpecifierStep pf file source a spec).
Proof.
  unfold Primary.exportSpecifierStep.
  destruct source as [value|]; [destruct (truthy value)|];
    [destruct (spec_local spec) as [l|]; [destruct (truthy l)|]| |];
    split; cbn [fst snd]; auto using addName_grows, incl_refl, incl_appl.
Qed.

Lemma importSpecifierStep_grows file sourcePath acc spec :
  incl acc (Primary.importSpecifierStep pf file sourcePath acc spec).
Proof.
  unfold Primary.importSpecifierStep.
  destruct spec as [[name|]| |]; [destruct (truthy name)| | |];
    auto using incl_refl, incl_appl.
Qed.

Lemma fold_incl (A B : Type) (f : list A -> B -> list A) (l : list B) :
  (forall acc b, incl acc (f acc b)) ->
  forall acc, incl acc (fold_left f l acc).
Proof.
  intros Hf. induction l as [|b l IH]; intros acc; simpl; [apply incl_refl|].
  eapply incl_tran; [apply Hf|apply IH].
Qed.

Lemma fold_step_grows (B : Type) (f : extraction -> B -> extraction)
    (l : list B) :
  (forall a b, grows a (f a b)) -> forall a, grows a (fold_left f l a).
Proof.
  intros Hf. induction l as [|b l IH]; intros a; simpl; [apply grows_refl|].
  eapply grows_trans; [apply Hf|apply IH].
Qed.

Lemma visit_grows file a node : grows a (Primary.visit pf file a node).
Proof.
  destruct node as [specs source decl| |source|source specs|]; cbn [Primary.visit].
  - eapply grows_trans.
    + apply (fold_step_grows _ (Primary.exportSpecifierStep pf file source)).
      intros a' s. apply exportSpecifierStep_grows.
    + destruct decl as [[ids|id]|]; [| |apply grows_refl];
        split; cbn [fst snd]; auto using incl_refl, addName_grows.
      apply (fold_incl _ _ (fun exps id => Primary.addName id exps)).
      intros acc b. apply addName_grows.
  - split; cbn [fst snd]; auto using incl_refl, incl_set_add.
  - destruct source as [value|]; [|apply grows_refl].
    destruct (truthy value); [|apply grows_refl].
    split; cbn [fst snd]; auto using incl_set_add, incl_appl, incl_refl.
  - destruct source as [value|]; [|apply grows_refl].
    destruct (truthy value); [|apply grows_refl].
    split; cbn [fst snd]; [apply incl_refl|].
    apply (fold_incl _ _ (Primary.importSpecifierStep pf file value)).
    intros acc b. apply importSpecifierStep_grows.
  - apply grows_refl.
Qed.

(** What the two extractors record of a name and of an import of it. *)
Definition records (file : str) (e : extraction) (X source : str) : Prop :=
  In X (fst e)
  /\ In {| importedName := X;
           sourceFile := Resolver.resolveImportPath pf file source |} (snd e).

Lemma records_grows file a b X source :
  grows a b -> records file a X source -> records file b X source.
Proof. intros [H1 H2] [H3 H4]. split; auto. Qed.

(** acorn's tree has a re-export of [X] from [source]. *)
Definition primaryReexport (ast : list Node) (X source : str) : Prop :=
  exists specifiers declaration spec,
    In (ExportNamedDeclaration specifiers (Some source) declaration) ast
    /\ In spec specifiers
    /\ spec_local spec = Some X
    /\ (spec_exported spec = Some X \/ spec_exported spec = None).

Lemma walkSimple_reexport file ast X source :
  truthy X = true -> truthy source = true ->
  primaryReexport ast X source ->
  records file (Primary.walkSimple pf file ast) X source.
Proof.
  intros HX Hs (specs & decl & spec & Hnode & Hspec & Hl & He).
  unfold Primary.walkSimple.
  apply (fold_left_reach _ _ (Primary.visit pf file)
           (fun a => records file a X source) ast
           (ExportNamedDeclaration specs (Some source) decl)); auto.
  - intros a. cbn [Primary.visit].
    assert (H1 : records file
      (fold_left (Primary.exportSpecifierStep pf file (Some source)) specs a)
      X source).
    { apply (fold_left_reach _ _ _ (fun a => records file a X source)
               specs spec); auto.
      - intros a'. unfold Primary.exportSpecifierStep.
        rewrite Hs, Hl, HX.
        assert (Ho : Primary.orName (spec_exported spec) (Some X) = Some X).
        { unfold Primary.orName.
          destruct He as [-> | ->]; cbn [truthy_opt]; [now rewrite HX|auto]. }
        rewrite Ho. split; cbn [fst snd].
        + unfold Primary.addName. rewrite HX. apply set_add_In. now right.
        + apply in_app_iff. right. now left.
      - intros a' s Ha'. eapply records_grows; [|exact Ha'].
        apply exportSpecifierStep_grows. }
    destruct decl as [[ids|id]|]; [| |exact H1];
      (eapply records_grows; [|exact H1]);
      split; cbn [fst snd]; auto using incl_refl, addName_grows.
    apply (fold_incl _ _ (fun exps id => Primary.addName id exps)).
    intros acc b. apply addName_grows.
  - intros a node Ha. eapply records_grows; [|exact Ha]. apply visit_grows.
Qed.

(** *** The fallback extractor *)

(** The brace rule matches a re-export of [X] from [source] in real
    code. *)
Definition fallbackReexport (content X source : str) : Prop :=
  exists m,
    In m (matchAll exportBraceRegex content)
    /\ inCode (Normalizer.stripLiteralsAndComments content) (index m) = true
    /\ group 2 (groups m) = Some source
    /\ In X (exportedNames (grp 1 m))
    /\ In X (localNames (grp 1 m)).

Lemma fallback_reexport file content X source :
  truthy X = true -> truthy source = true ->
  fallbackReexport content X source ->
  records file
    (extractExportsAndImportsViaRegex pf content
       (Normalizer.stripLiteralsAndComments content) file [] [])
    X source.
Proof.
  intros HX Hs (m & Hm & Hcode & Hg & He & Hl). split.
  - apply (scanned_match_recorded pf content file [] [] BraceRule m X);
      auto.
    split; assumption.
  - apply (stage2_final pf content file [] []).
    unfold stage2.
    apply (fold_left_reach _ _ _
             (fun a => In {| importedName := X;
                             sourceFile :=
                               Resolver.resolveImportPath pf file source |}
                          (snd a)) _ m); auto.
    + intros a. unfold exportBraceStep. rewrite Hcode, Hg. cbn [negb truthy_opt].
      rewrite Hs. cbn [snd]. apply pushImports_In. right.
      exists X. repeat split; auto.
      unfold recordOf, grp. now rewrite Hg.
    + intros a m' Ha.
      now apply (exportBraceStep_grows pf
                   (Normalizer.stripLiteralsAndComments content) file a m').
Qed.

(** *** The graph *)

(** The file re-exports [X] from [source], as seen by the extractor that
    handles it. *)
Definition reexports (content X source : str) : Prop :=
  truthy X = true /\ truthy source = true
  /\ match acornParse pf content with
     | Some ast => primaryReexport ast X source
     | None => fallbackReexport content X source
     end.

Lemma extractFile_reexport file content X source :
  reexports content X source ->
  records file (extractFile pf file content) X source.
Proof.
  intros (HX & Hs & H). unfold extractFile.
  destruct (acornParse pf content) as [ast|].
  - now apply walkSimple_reexport.
  - now apply fallback_reexport.
Qed.

(** A readable file of the list has its records in the graph. *)
Lemma build_entry files projectPath file content :
  In file files -> readFileSync pf file = Some content ->
  let g := buildExportGraph pf files projectPath in
  map_get (exports g) file = Some (fst (extractFile pf file content))
  /\ map_get (imports g) file = Some (snd (extractFile pf file content)).
Proof.
  intros Hin Hread. cbv zeta. unfold buildExportGraph.
  apply (fold_left_reach _ _ (buildStep pf)
           (fun g => map_get (exports g) file
                     = Some (fst (extractFile pf file content))
                     /\ map_get (imports g) file
                        = Some (snd (extractFile pf file content)))
           files file); auto.
  - intros g. unfold buildStep. rewrite Hread. cbn [exports imports].
    now rewrite !map_get_set_same.
  - intros g f [H1 H2]. unfold buildStep.
    destruct (readFileSync pf f) as [c|] eqn:E; [|now split].
    cbn [exports imports].
    destruct (str_eqb file f) eqn:Ef.
    + apply str_eqb_eq in Ef. subst f.
      assert (c = content) by congruence. subst c.
      now rewrite !map_get_set_same.
    + apply str_eqb_neq in Ef. now rewrite !map_get_set_other.
Qed.


End ReexportFacts.
End ReexportFacts.

(* ================================================================== *)
(** * Worked projects *)
(* ================================================================== *)

Module Examples.
Import Regex Fallback RegexFacts FallbackFacts GraphFacts ResolverFacts
  ReexportFacts.

Definition root : str := lit "/p".
Definition aTs : str := lit "/p/src/a.ts".
Definition bTs : str := lit "/p/src/b.ts".

Lemma endsWith_app (d suffix : str) : endsWith (d ++ suffix) suffix = true.
Proof.
  unfold endsWith. rewrite rev_app_distr.
  induction (rev suffix) as [|c l IH]; simpl; [now destruct (rev d)|].
  unfold ceq. now rewrite Ascii.eqb_refl.
Qed.

(** A path that does not end in [suffix] is no [d ++ suffix]. *)
Lemma not_suffixed (d suffix target : str) :
  endsWith target suffix = false -> d ++ suffix <> target.
Proof. intros H <-. now rewrite endsWith_app in H. Qed.

(** *** Unused exports (C1) *)

(** [a.ts] exports [foo] and [bar]; [b.ts] imports [foo]. *)
Definition twoExports : Platform :=
  Demo.platform
    [(aTs, lit "export const foo = 1;
export const bar: number = 2;");
     (bTs, lit "import { foo } from './a';
const n: number = foo;")]
    [root; lit "/p/src"] [].

Lemma unused_export_example :
  exists issues,
    analyzeUnusedExports twoExports [aTs; bTs] root = Some issues
    /\ ((exists i, In i issues
                   /\ findingFor twoExports root aTs (lit "bar") i)
        <-> ~ used (buildExportGraph twoExports [aTs; bTs] root) aTs
                (lit "bar")).
Proof.
  apply (unused_export_reported_iff twoExports [aTs; bTs] root aTs
           [lit "foo"; lit "bar"] (lit "bar")).
  - vm_compute. left. reflexivity.
  - right. left. reflexivity.
  - reflexivity.
  - intros other Hin Hrel. vm_compute in Hin.
    destruct Hin as [<-|[<-|[]]]; [reflexivity|].
    vm_compute in Hrel. discriminate Hrel.
Defined.

(** *** Re-exports (C2) *)

(** [a.ts] declares [X]; the TypeScript barrel [b.ts], which acorn does
    not parse, and the JavaScript barrel [c.js], which it does, re-export
    it. *)
Definition cJs : str := lit "/p/src/c.js".

Definition barrelText : str := lit "export { X } from './a';
let n: number = 1;".

Definition barrels : Platform :=
  Demo.platform
    [(aTs, lit "export const X: number = 1;");
     (bTs, barrelText);
     (cJs, lit "export { X } from './a';")]
    [root; lit "/p/src"]
    [(lit "export { X } from './a';",
      [ExportNamedDeclaration
         [{| spec_local := Some (lit "X"); spec_exported := Some (lit "X") |}]
         (Some (lit "./a")) None])].

Definition barrelTree : list Node :=
  [ExportNamedDeclaration
     [{| spec_local := Some (lit "X"); spec_exported := Some (lit "X") |}]
     (Some (lit "./a")) None].


(** *** Cycles *)

(** Through the whole analysis: two files that import each other give
    one finding of a cycle, of severity high, and nothing else. *)
Definition mutual : Platform :=
  Demo.platform
    [(aTs, lit "import { b } from './b';
export const a: number = b;");
     (bTs, lit "import { a } from './a';
export const b: number = a;")]
    [root; lit "/p/src"] [].

Lemma mutual_import_analysis :
  analyzeUnusedExports mutual [aTs; bTs] root
  = Some [{| i_type := CircularDependencyIssue; i_severity := High;
             i_file := lit "src/a.ts"; i_line := None;
             i_pattern := lit "circular: 2 files";
             i_estimatedImpact := 4000 |}].
Proof. vm_compute. reflexivity. Qed.

(** *** Resolution (C4, C5) *)

(** The snapshot of [twoExports] with other file contents: every query
    of the resolver has the same answer. *)
Definition twoExportsEdited : Platform :=
  Demo.platform
    [(aTs, lit "export const foo = 3;"); (bTs, lit "")]
    [root; lit "/p/src"] [].

Lemma resolution_deterministic_example :
  Resolver.resolveImportPath twoExports bTs (lit "./a")
  = Resolver.resolveImportPath twoExportsEdited bTs (lit "./a").
Proof.
  apply resolution_is_deterministic.
  - repeat split.
  - split; intros x; [|reflexivity].
    unfold twoExports, twoExportsEdited, Demo.platform, existsSync, map_has.
    simpl. destruct (str_eqb x aTs); [reflexivity|].
    destruct (str_eqb x bTs); reflexivity.
Defined.

(** [b.ts] imports the directory [lib], which holds [index.ts] and
    [index.js]. *)
Definition libIndexTs : str := lit "/p/src/lib/index.ts".

Definition withIndex : Platform :=
  Demo.platform
    [(aTs, lit "export const foo: number = 1;");
     (bTs, lit "import { bar } from './lib';
const n: number = bar;");
     (libIndexTs, lit "export const bar: number = 2;");
     (lit "/p/src/lib/index.js", lit "export const bar = 2;")]
    [root; lit "/p/src"; lit "/p/src/lib"] [].

(** In [withIndex], [./lib] from [b.ts] resolves by rule (2): the literal
    path is a directory, and of its two index files the one with the
    first extension of the list is taken. *)
Lemma resolution_order_example :
  existsSync withIndex (lit "/p/src/lib") = true
  /\ statIsDirectory withIndex (lit "/p/src/lib") = Some true
  /\ existsSync withIndex libIndexTs = true
  /\ existsSync withIndex (lit "/p/src/lib/index.js") = true
  /\ Resolver.resolveImportPath withIndex bTs (lit "./lib")
     = resolveInOrder withIndex bTs (lit "./lib")
  /\ resolveInOrder withIndex bTs (lit "./lib") = libIndexTs.
Proof.
  do 4 (split; [reflexivity|]). split; [|reflexivity].
  apply resolution_order.
  intros ext Hext Hex. split; [reflexivity|].
  change (resolve withIndex (dirname withIndex bTs) (lit "./lib"))
    with (lit "/p/src/lib").
  unfold withIndex, Demo.platform, join, Demo.demoJoin, lit. cbn.
  discriminate.
Defined.

(** C5, as the claim states it, fails on a specifier that is an absolute
    path: [/p/src/a.ts] does not begin with the relative-path marker, is
    returned unchanged, and is the node of the analyzed file [a.ts], to
    which the importing file gets an edge. *)
Definition absoluteImport : Platform :=
  Demo.platform
    [(aTs, lit "export const foo: number = 1;");
     (bTs, lit "import { foo } from '/p/src/a.ts';
const n: number = foo;")]
    [root; lit "/p/src"] [].

Lemma absolute_specifier_is_project_node :
  let files := [aTs; bTs] in
  let g := buildExportGraph absoluteImport files root in
  startsWith aTs (lit ".") = false
  /\ Resolver.resolveImportPath absoluteImport bTs aTs = aTs
  /\ In aTs files
  /\ map_get (imports g) bTs
     = Some [{| importedName := lit "foo"; sourceFile := aTs |}]
  /\ map_get (buildAdjacency g files) bTs = Some [aTs]
  /\ findUnusedExports absoluteImport g files root = [].
Proof. repeat split; vm_compute; auto. Qed.

(** *** The fallback extractor (C8, C10) *)

(** C8, as the claim states it, fails: in this TypeScript text the
    pattern [export { A }] stands once in the comment and once, at offset
    26, as real code, where the brace rule matches it; but the scan has
    gone over it with the match that starts at offset 3 inside the comment
    and runs to the quote of the string, and it rejects that one: the
    file has no export record. *)
Definition shadowedText : str :=
  lit "/* export { A } from ' */ export { A }; const s: string = 'x';".

Definition shadowed : Platform :=
  Demo.platform [(bTs, shadowedText)] [root; lit "/p/src"] [].

Lemma export_in_code_can_be_missed :
  let stripped := Normalizer.stripLiteralsAndComments shadowedText in
  exists m,
    occursAt BraceRule shadowedText 26 m
    /\ inCode stripped 26 = true
    /\ yields BraceRule m (lit "A")
    /\ map index (matchAll exportBraceRegex shadowedText) = [3]
    /\ inCode stripped 3 = false
    /\ fst (extractExportsAndImportsViaRegex shadowed shadowedText stripped
              bTs [] []) = []
    /\ map_get (exports (buildExportGraph shadowed [bTs] root)) bTs = Some [].
Proof.
  eexists. split; [vm_compute; reflexivity|].
  repeat split; vm_compute; auto.
Qed.

(** A pattern in a comment and the same pattern as code on the next
    line: the scan reports the second, and it is recorded; the comment
    alone yields nothing. *)
Definition commentedText : str :=
  lit "// export const foo: number = 1;
export const foo: number = 1;".

Lemma commented_export_example :
  let stripped := Normalizer.stripLiteralsAndComments commentedText in
  let e := extractExportsAndImportsViaRegex twoExports commentedText
             stripped bTs [] [] in
  map index (matchAll namedExportDeclRegex stripped) = [33]
  /\ In (lit "foo") (fst e)
  /\ fst (extractExportsAndImportsViaRegex twoExports
            (lit "// export const foo: number = 1;")
            (Normalizer.stripLiteralsAndComments
               (lit "// export const foo: number = 1;")) bTs [] []) = [].
Proof.
  split; [reflexivity|]. split; [|reflexivity].
  destruct (fallback_records_code_only twoExports commentedText bTs)
    as (_ & _ & H).
  eapply (H DeclRule).
  - vm_compute. left. reflexivity.
  - reflexivity.
  - reflexivity.
Defined.

Lemma import_type_example :
  let content := lit "import type { Foo } from './a';" in
  matchAt namedImportRegex content 0 = None
  /\ matchAt defaultImportRegex
       (lit "import type Foo from './a';") 0 = None.
Proof.
  destruct type_only_import_leaves_no_record as (H & _).
  split.
  - destruct (H twoExports (lit "import type { Foo } from './a';") bTs)
      as (_ & H2).
    apply (H2 0 ltac:(exists [sp], (lit " { Foo } from './a';");
                      repeat split; [discriminate|repeat constructor])
              NamedImportRule).
  - destruct (H twoExports (lit "import type Foo from './a';") bTs)
      as (_ & H2).
    apply (H2 0 ltac:(exists [sp], (lit " Foo from './a';");
                      repeat split; [discriminate|repeat constructor])
              DefaultImportRule).
Defined.

(** *** Unreadable files (C9) *)

(** [missing.ts] is in the list of files and cannot be read. *)
Definition missingTs : str := lit "/p/src/missing.ts".

Lemma unreadable_file_example :
  let g := buildExportGraph twoExports [aTs; missingTs; bTs] root in
  g = buildExportGraph twoExports [aTs; bTs] root
  /\ map_get (exports g) missingTs = None
  /\ map_get (imports g) missingTs = None
  /\ exists issues,
       analyzeUnusedExports twoExports [aTs; missingTs; bTs] root
       = Some issues.
Proof.
  destruct (unreadable_file_is_skipped twoExports [aTs] [bTs] missingTs root
              eq_refl) as (_ & _ & H1 & H2 & H3 & _ & _ & H4).
  repeat split; assumption.
Defined.

End Examples.

(* ================================================================== *)
(** * Further properties of the text normalizer *)
(* ================================================================== *)

Module NormalizerMore.
Import Normalizer NormalizerFacts.

(** The outer loop does not depend on the fuel, once it has one unit for
    each character. *)
Lemma stripLoop_fuel f1 : forall f2 s,
  length s <= f1 -> length s <= f2 -> stripLoop f1 s = stripLoop f2 s.
Proof.
  induction f1 as [|f1 IH]; intros f2 s H1 H2.
  - destruct s; simpl in *; [now destruct f2|lia].
  - destruct f2 as [|f2]; [destruct s; simpl in *; [reflexivity|lia]|].
    destruct s as [|ch s']; [reflexivity|]. simpl in H1, H2.
    cbn [stripLoop]. cbv zeta.
    destruct (ceq ch "/" && is_char (hd_error s') "/").
    { pose proof (lineCommentLoop_length (tl s')) as L.
      destruct (lineCommentLoop (tl s')) as [o r]. simpl in L.
      assert (length (tl s') <= length s') by (destruct s'; simpl; lia).
      rewrite (IH f2 r) by lia. reflexivity. }
    destruct (ceq ch "/" && is_char (hd_error s') "*").
    { pose proof (blockCommentLoop_length (tl s')) as L.
      destruct (blockCommentLoop (tl s')) as [o r]. simpl in L.
      assert (length (tl s') <= length s') by (destruct s'; simpl; lia).
      rewrite (IH f2 r) by lia. reflexivity. }
    destruct (ceq ch btick).
    { pose proof (templateLoop_length s' 0) as L.
      destruct (templateLoop 0 s') as [o r]. simpl in L.
      rewrite (IH f2 r) by lia. reflexivity. }
    destruct (ceq ch squote || ceq ch dquote).
    { pose proof (stringLoop_length ch s') as L.
      destruct (stringLoop ch s') as [o r]. simpl in L.
      rewrite (IH f2 r) by lia. reflexivity. }
    rewrite (IH f2 s') by lia. reflexivity.
Qed.

(** One iteration of the outer loop, on the whole function. *)
Definition afterLoop (res : str * str) : str :=
  fst res ++ stripLiteralsAndComments (snd res).

Lemma strip_unfold ch s' :
  stripLiteralsAndComments (ch :: s') =
  if ceq ch "/" && is_char (hd_error s') "/" then
    sp :: sp :: afterLoop (lineCommentLoop (tl s'))
  else if ceq ch "/" && is_char (hd_error s') "*" then
    sp :: sp :: afterLoop (blockCommentLoop (tl s'))
  else if ceq ch btick then sp :: afterLoop (templateLoop 0 s')
  else if ceq ch squote || ceq ch dquote then
    sp :: afterLoop (stringLoop ch s')
  else ch :: stripLiteralsAndComments s'.
Proof.
  unfold stripLiteralsAndComments at 1, afterLoop.
  cbn [length stripLoop]. cbv zeta.
  assert (Ht : length (tl s') <= length s') by (destruct s'; simpl; lia).
  destruct (ceq ch "/" && is_char (hd_error s') "/").
  { pose proof (lineCommentLoop_length (tl s')) as L.
    destruct (lineCommentLoop (tl s')) as [o r]. simpl in *.
    unfold stripLiteralsAndComments.
    now rewrite (stripLoop_fuel (length s') (length r) r) by lia. }
  destruct (ceq ch "/" && is_char (hd_error s') "*").
  { pose proof (blockCommentLoop_length (tl s')) as L.
    destruct (blockCommentLoop (tl s')) as [o r]. simpl in *.
    unfold stripLiteralsAndComments.
    now rewrite (stripLoop_fuel (length s') (length r) r) by lia. }
  destruct (ceq ch btick).
  { pose proof (templateLoop_length s' 0) as L.
    destruct (templateLoop 0 s') as [o r]. simpl in *.
    unfold stripLiteralsAndComments.
    now rewrite (stripLoop_fuel (length s') (length r) r) by lia. }
  destruct (ceq ch squote || ceq ch dquote).
  { pose proof (stringLoop_length ch s') as L.
    destruct (stringLoop ch s') as [o r]. simpl in *.
    unfold stripLiteralsAndComments.
    now rewrite (stripLoop_fuel (length s') (length r) r) by lia. }
  reflexivity.
Qed.

Lemma strip_nil : stripLiteralsAndComments [] = [].
Proof. reflexivity. Qed.

(** *** Text without literals and comments *)

(** A character that opens no literal. *)
Definition opensLiteral (c : ascii) : bool :=
  ceq c btick || ceq c squote || ceq c dquote.

(** [/] followed by [/] or [*]. *)
Definition opensComment (c : ascii) (next : option ascii) : bool :=
  ceq c "/" && (is_char next "/" || is_char next "*").

(** Text in which nothing opens a literal or a comment. *)
Fixpoint plain (s : str) : Prop :=
  match s with
  | [] => True
  | c :: s' =>
      opensLiteral c = false /\ opensComment c (hd_error s') = false
      /\ plain s'
  end.

Lemma strip_regular ch s' :
  opensLiteral ch = false -> opensComment ch (hd_error s') = false ->
  stripLiteralsAndComments (ch :: s') = ch :: stripLiteralsAndComments s'.
Proof.
  unfold opensLiteral, opensComment. intros Hl Hc. rewrite strip_unfold.
  apply orb_false_iff in Hl as [Hl H3]. apply orb_false_iff in Hl as [H1 H2].
  rewrite H1, H2, H3. cbn [orb].
  destruct (ceq ch "/"); cbn [andb] in *; [|reflexivity].
  apply orb_false_iff in Hc as [-> ->]. reflexivity.
Qed.

Lemma strip_plain_id (source : str) :
  plain source -> stripLiteralsAndComments source = source.
Proof.
  induction source as [|c s IH]; [reflexivity|].
  intros (Hl & Hc & Hs). rewrite strip_regular by assumption.
  now rewrite IH.
Qed.

(** X1: text in which no character opens a literal (quote, double quote,
    backtick) and no [/] is followed by [/] or [*] is returned as it
    is. *)
Theorem plain_text_unchanged (source : str) :
  plain source -> stripLiteralsAndComments source = source.
Proof. apply strip_plain_id. Qed.

Lemma plain_text_unchanged_example :
  plain (lit "export const a = b / 2") /\
  stripLiteralsAndComments (lit "export const a = b / 2")
  = lit "export const a = b / 2".
Proof.
  assert (H : plain (lit "export const a = b / 2"))
    by (unfold lit; simpl; repeat split).
  split; [exact H|]. apply (plain_text_unchanged _ H).
Defined.

(** Plain code before a character [d] is copied, and the loop goes on at
    [d]. *)
Lemma strip_plain_app code d t :
  plain (code ++ [d]) ->
  stripLiteralsAndComments (code ++ d :: t)
  = code ++ stripLiteralsAndComments (d :: t).
Proof.
  induction code as [|c code IH]; [reflexivity|].
  cbn [app plain]. intros (Hl & Hc & Hp).
  rewrite strip_regular, IH; auto.
  destruct code; exact Hc.
Qed.

(** The same before a character that cannot continue a comment opener. *)
Lemma strip_plain_before code d t :
  plain code -> d <> "/" /\ d <> "*" ->
  stripLiteralsAndComments (code ++ d :: t)
  = code ++ stripLiteralsAndComments (d :: t).
Proof.
  intros Hp [H1 H2]. induction code as [|c code IH]; [reflexivity|].
  cbn [app plain] in *. destruct Hp as (Hl & Hc & Hp).
  rewrite strip_regular, IH; auto.
  destruct code; [|exact Hc]. unfold opensComment. cbn [app hd_error is_char].
  destruct (ceq d "/") eqn:E1; [apply ceq_eq in E1; contradiction|].
  destruct (ceq d "*") eqn:E2; [apply ceq_eq in E2; contradiction|].
  apply andb_false_r.
Qed.

(** *** The normalized text is plain *)

Lemma lineCommentLoop_masked s : Forall masked (fst (lineCommentLoop s)).
Proof.
  induction s as [|c s IH]; simpl; [constructor|].
  destruct (ceq c nl); [constructor|].
  destruct (lineCommentLoop s). simpl in *. constructor; [now left|exact IH].
Qed.

Lemma blockCommentLoop_masked s : Forall masked (fst (blockCommentLoop s)).
Proof.
  assert (Hsp : masked sp) by (left; reflexivity).
  pose proof blank_masked as Hb.
  induction s as [|c|c c2 s IH1 IH2] using two_step_ind.
  - constructor.
  - simpl; auto.
  - change (blockCommentLoop (c :: c2 :: s)) with
      (if ceq c "*" && ceq c2 "/" then ([sp; sp], s)
       else let (o, r) := blockCommentLoop (c2 :: s) in (blank c :: o, r)).
    destruct (ceq c "*" && ceq c2 "/"); [simpl; auto|].
    destruct (blockCommentLoop (c2 :: s)). simpl in *; auto.
Qed.

Lemma stringLoop_step quote c s' :
  ceq c bslash = false ->
  stringLoop quote (c :: s') =
  if ceq c quote then ([sp], s')
  else if ceq c nl then ([nl], s')
  else let (o, r) := stringLoop quote s' in (sp :: o, r).
Proof. intros H. destruct s'; simpl; rewrite ?H; reflexivity. Qed.

Lemma stringLoop_masked quote s : Forall masked (fst (stringLoop quote s)).
Proof.
  assert (Hsp : masked sp) by (left; reflexivity).
  assert (Hnl : masked nl) by (right; reflexivity).
  induction s as [|c|c c2 s IH1 IH2] using two_step_ind.
  - constructor.
  - simpl. destruct (ceq c quote); [simpl; auto|].
    destruct (ceq c nl); simpl; auto.
  - destruct (ceq c bslash) eqn:E.
    + change (stringLoop quote (c :: c2 :: s)) with
        (let single :=
           if ceq c quote then ([sp], c2 :: s)
           else if ceq c nl then ([nl], c2 :: s)
           else let (o, r) := stringLoop quote (c2 :: s) in (sp :: o, r) in
         if ceq c bslash then
           let (o, r) := stringLoop quote s in (sp :: sp :: o, r)
         else single).
      cbv zeta. rewrite E. destruct (stringLoop quote s). simpl in *; auto.
    + rewrite stringLoop_step by exact E.
      destruct (ceq c quote); [simpl; auto|].
      destruct (ceq c nl); [simpl; auto|].
      destruct (stringLoop quote (c2 :: s)). simpl in *; auto.
Qed.

Lemma masked_plain c : masked c ->
  opensLiteral c = false /\ forall next, opensComment c next = false.
Proof. intros [-> | ->]; split; reflexivity || (intros; reflexivity). Qed.

Lemma plain_masked_app o t : Forall masked o -> plain t -> plain (o ++ t).
Proof.
  induction 1 as [|c o Hc Ho IH]; intros Ht; [exact Ht|].
  cbn [app plain]. destruct (masked_plain c Hc) as [H1 H2]. auto.
Qed.

Lemma hd_app_masked o t d :
  Forall masked o -> hd_error (o ++ t) = Some d ->
  masked d \/ hd_error t = Some d.
Proof.
  intros Ho H. destruct o as [|c o]; [now right|].
  inversion Ho; subst. injection H as <-. now left.
Qed.

(** The first character pushed is a masked one, or the first
    character of the text. *)
Lemma hd_stripLoop fuel s d :
  hd_error (stripLoop fuel s) = Some d -> masked d \/ hd_error s = Some d.
Proof.
  assert (Hsp : masked sp) by (left; reflexivity).
  destruct fuel as [|fuel]; [discriminate|].
  destruct s as [|ch s']; [discriminate|].
  cbn [stripLoop]. cbv zeta.
  destruct (ceq ch "/" && is_char (hd_error s') "/").
  { destruct (lineCommentLoop (tl s')). intros [= <-]. auto. }
  destruct (ceq ch "/" && is_char (hd_error s') "*").
  { destruct (blockCommentLoop (tl s')). intros [= <-]. auto. }
  destruct (ceq ch btick).
  { destruct (templateLoop 0 s'). intros [= <-]. auto. }
  destruct (ceq ch squote || ceq ch dquote).
  { destruct (stringLoop ch s'). intros [= <-]. auto. }
  intros [= <-]. now right.
Qed.

Lemma stripLoop_plain fuel : forall s, plain (stripLoop fuel s).
Proof.
  assert (Hsp : masked sp) by (left; reflexivity).
  induction fuel as [|fuel IH]; intros s; [exact I|].
  destruct s as [|ch s']; [exact I|].
  cbn [stripLoop]. cbv zeta.
  destruct (ceq ch "/" && is_char (hd_error s') "/") eqn:E1.
  { pose proof (lineCommentLoop_masked (tl s')) as M.
    destruct (lineCommentLoop (tl s')) as [o r]. simpl in M.
    apply (plain_masked_app (sp :: sp :: o)); auto. }
  destruct (ceq ch "/" && is_char (hd_error s') "*") eqn:E2.
  { pose proof (blockCommentLoop_masked (tl s')) as M.
    destruct (blockCommentLoop (tl s')) as [o r]. simpl in M.
    apply (plain_masked_app (sp :: sp :: o)); auto. }
  destruct (ceq ch btick) eqn:E3.
  { pose proof (templateLoop_masked s' 0) as M.
    destruct (templateLoop 0 s') as [o r]. simpl in M.
    apply (plain_masked_app (sp :: o)); auto. }
  destruct (ceq ch squote || ceq ch dquote) eqn:E4.
  { pose proof (stringLoop_masked ch s') as M.
    destruct (stringLoop ch s') as [o r]. simpl in M.
    apply (plain_masked_app (sp :: o)); auto. }
  cbn [plain]. split; [|split; [|apply IH]].
  - unfold opensLiteral. rewrite E3. apply orb_false_iff in E4 as [-> ->].
    reflexivity.
  - unfold opensComment.
    destruct (ceq ch "/") eqn:Es; [|reflexivity]. cbn [andb] in *.
    destruct (hd_error (stripLoop fuel s')) as [d|] eqn:Hd; [|reflexivity].
    apply hd_stripLoop in Hd as [[-> | ->] | Hd]; try reflexivity.
    rewrite Hd in E1, E2. cbn [is_char] in *. now rewrite E1, E2.
Qed.

(** X2: the normalized text holds no quote, no double quote and no
    backtick, and in it no [/] is followed by [/] or [*]: every delimiter
    of a literal or a comment has been blanked. *)
Theorem normalized_text_is_plain (source : str) :
  plain (stripLiteralsAndComments source)
  /\ Forall (fun c => c <> squote /\ c <> dquote /\ c <> btick)
       (stripLiteralsAndComments source).
Proof.
  assert (H : plain (stripLiteralsAndComments source))
    by apply stripLoop_plain.
  split; [exact H|].
  induction (stripLiteralsAndComments source) as [|c s IH]; constructor.
  - destruct H as (Hl & _). unfold opensLiteral in Hl.
    apply orb_false_iff in Hl as [Hl H3]. apply orb_false_iff in Hl as [H1 H2].
    repeat split; intros ->; discriminate.
  - apply IH, H.
Qed.

(** X3: normalizing is idempotent: the normalized text is a fixed point of
    the normalizer. *)
Theorem normalizing_twice_changes_nothing (source : str) :
  stripLiteralsAndComments (stripLiteralsAndComments source)
  = stripLiteralsAndComments source.
Proof. apply strip_plain_id, stripLoop_plain. Qed.

(** *** Where a comment or a literal ends *)

Definition blanks (n : nat) : str := repeat sp n.

Lemma lineCommentLoop_end body rest :
  ~ In nl body -> hd_error rest = None \/ hd_error rest = Some nl ->
  lineCommentLoop (body ++ rest) = (blanks (length body), rest).
Proof.
  intros Hb Hr. induction body as [|c body IH]; cbn [app].
  - destruct rest as [|d rest]; [reflexivity|].
    destruct Hr as [Hr|Hr]; [discriminate|]. injection Hr as ->. reflexivity.
  - cbn [lineCommentLoop]. destruct (ceq c nl) eqn:E.
    + apply ceq_eq in E. subst c. exfalso. apply Hb. now left.
    + rewrite IH by (intros H; apply Hb; now right). reflexivity.
Qed.

Lemma strip_newline s :
  stripLiteralsAndComments (nl :: s) = nl :: stripLiteralsAndComments s.
Proof. apply strip_regular; reflexivity. Qed.

Lemma strip_line_comment s :
  stripLiteralsAndComments ("/" :: "/" :: s)
  = sp :: sp :: afterLoop (lineCommentLoop s).
Proof. rewrite strip_unfold. reflexivity. Qed.

Lemma strip_block_comment s :
  stripLiteralsAndComments ("/" :: "*" :: s)
  = sp :: sp :: afterLoop (blockCommentLoop s).
Proof. rewrite strip_unfold. reflexivity. Qed.

Lemma strip_template s :
  stripLiteralsAndComments (btick :: s) = sp :: afterLoop (templateLoop 0 s).
Proof. rewrite strip_unfold. reflexivity. Qed.

Lemma strip_string q s :
  q = squote \/ q = dquote ->
  stripLiteralsAndComments (q :: s) = sp :: afterLoop (stringLoop q s).
Proof. intros [-> | ->]; rewrite strip_unfold; reflexivity. Qed.

(** X4: a line comment that follows plain code (not ending in [/]) is
    blanked up to, and not over, the end of its line; the code before it
    is kept, the newline is kept, and the text of the next line is
    normalized on its own. *)
Theorem line_comment_ends_at_newline (code body rest : str) :
  plain (code ++ lit "/") -> ~ In nl body ->
  stripLiteralsAndComments (code ++ lit "//" ++ body ++ nl :: rest)
  = code ++ blanks (2 + length body) ++ nl :: stripLiteralsAndComments rest
  /\ stripLiteralsAndComments (code ++ lit "//" ++ body)
     = code ++ blanks (2 + length body).
Proof.
  intros Hc Hb. unfold lit in *. cbn [list_ascii_of_string app] in *. split.
  - rewrite strip_plain_app by exact Hc. rewrite strip_line_comment.
    rewrite lineCommentLoop_end by (auto; now right).
    unfold afterLoop. cbn [fst snd]. now rewrite strip_newline.
  - rewrite strip_plain_app by exact Hc. rewrite strip_line_comment.
    rewrite <- (app_nil_r body) at 1.
    rewrite lineCommentLoop_end by (auto; now left).
    unfold afterLoop. cbn [fst snd]. rewrite strip_nil, app_nil_r.
    reflexivity.
Qed.

Lemma line_comment_example :
  (plain (lit "a = 1; " ++ lit "/") /\ ~ In nl (lit " it's"))
  /\ stripLiteralsAndComments
       (lit "a = 1; " ++ lit "//" ++ lit " it's" ++ nl :: lit "b")
     = lit "a = 1; " ++ blanks 7 ++ nl :: lit "b".
Proof.
  assert (H1 : plain (lit "a = 1; " ++ lit "/"))
    by (unfold lit; simpl; repeat split).
  assert (H2 : ~ In nl (lit " it's"))
    by (unfold lit; simpl; intros H; repeat destruct H as [H|H];
        try discriminate; exact H).
  split; [split; assumption|].
  exact (proj1 (line_comment_ends_at_newline _ _ (lit "b") H1 H2)).
Defined.

(** Whether [*] directly followed by [/] occurs in the text. *)
Fixpoint closes (s : str) : bool :=
  match s with
  | [] => false
  | c :: s' =>
      match s' with
      | c2 :: _ => (ceq c "*" && ceq c2 "/") || closes s'
      | [] => false
      end
  end.

Lemma blockCommentLoop_open body :
  closes body = false -> blockCommentLoop body = (map blank body, []).
Proof.
  induction body as [|c|c c2 s IH1 IH2] using two_step_ind; intros H.
  - reflexivity.
  - reflexivity.
  - change (closes (c :: c2 :: s)) with
      ((ceq c "*" && ceq c2 "/") || closes (c2 :: s)) in H.
    apply orb_false_iff in H as [H1 H2].
    change (blockCommentLoop (c :: c2 :: s)) with
      (if ceq c "*" && ceq c2 "/" then ([sp; sp], s)
       else let (o, r) := blockCommentLoop (c2 :: s) in (blank c :: o, r)).
    rewrite H1, IH2 by exact H2. reflexivity.
Qed.

Lemma blockCommentLoop_end body : forall rest,
  closes (body ++ lit "*") = false ->
  blockCommentLoop (body ++ lit "*/" ++ rest)
  = (map blank body ++ [sp; sp], rest).
Proof.
  unfold lit. cbn [list_ascii_of_string].
  induction body as [|c body IH]; intros rest H; [reflexivity|].
  cbn [app map].
  destruct (body ++ "*" :: "/" :: rest) as [|c2 t] eqn:Et;
    [now destruct body|].
  assert (Hd : hd_error (body ++ ["*"]) = Some c2).
  { destruct body as [|b body]; cbn [app] in *;
      injection Et as <- _; reflexivity. }
  cbn [app] in H.
  destruct (body ++ ["*"]) as [|c2' t'] eqn:Et'; [discriminate|].
  injection Hd as ->.
  change (closes (c :: c2 :: t')) with
    ((ceq c "*" && ceq c2 "/") || closes (c2 :: t')) in H.
  apply orb_false_iff in H as [H1 H2].
  change (blockCommentLoop (c :: c2 :: t)) with
    (if ceq c "*" && ceq c2 "/" then ([sp; sp], t)
     else let (o, r) := blockCommentLoop (c2 :: t) in (blank c :: o, r)).
  rewrite H1, <- Et. cbn [app] in IH. rewrite IH by exact H2. reflexivity.
Qed.

(** X5: a block comment that follows plain code (not ending in [/]) is
    blanked, newlines kept, up to the first [*/] after its opener, and the
    text after that is normalized on its own; a block comment that is
    never closed masks the whole rest of the text. *)
Theorem block_comment_ends_at_first_close (code body rest : str) :
  plain (code ++ lit "/") ->
  (closes (body ++ lit "*") = false ->
   stripLiteralsAndComments (code ++ lit "/*" ++ body ++ lit "*/" ++ rest)
   = code ++ blanks 2 ++ map blank body ++ blanks 2
       ++ stripLiteralsAndComments rest)
  /\ (closes body = false ->
      stripLiteralsAndComments (code ++ lit "/*" ++ body)
      = code ++ blanks 2 ++ map blank body).
Proof.
  intros Hc. split; intros Hb.
  - pose proof (blockCommentLoop_end body rest Hb) as E.
    unfold lit in *. cbn [list_ascii_of_string app] in *.
    rewrite strip_plain_app by exact Hc. rewrite strip_block_comment, E.
    unfold afterLoop, blanks. cbn [fst snd repeat app].
    now rewrite <- app_assoc.
  - unfold lit in *. cbn [list_ascii_of_string app] in *.
    rewrite strip_plain_app by exact Hc.
    rewrite strip_block_comment, blockCommentLoop_open by exact Hb.
    unfold afterLoop, blanks. cbn [fst snd repeat app].
    now rewrite strip_nil, app_nil_r.
Qed.

Lemma block_comment_example :
  plain (lit "x " ++ lit "/")
  /\ stripLiteralsAndComments
       (lit "x " ++ lit "/*" ++ lit "/ export *" ++ lit "*/" ++ lit " y")
     = lit "x " ++ blanks 2 ++ blanks 10 ++ blanks 2 ++ lit " y".
Proof.
  assert (H1 : plain (lit "x " ++ lit "/"))
    by (unfold lit; simpl; repeat split).
  split; [exact H1|].
  exact (proj1 (block_comment_ends_at_first_close _ (lit "/ export *")
                  (lit " y") H1) eq_refl).
Defined.

(** A string body: no closing quote, no escape and no newline. *)
Definition stringBody (q : ascii) (body : str) : Prop :=
  Forall (fun c => c <> q /\ c <> bslash /\ c <> nl) body.

Lemma ceq_neq a b : a <> b -> ceq a b = false.
Proof.
  intros H. destruct (ceq a b) eqn:E; [|reflexivity].
  apply ceq_eq in E. contradiction.
Qed.

Lemma ceq_refl a : ceq a a = true.
Proof. destruct (ceq a a) eqn:E; [reflexivity|].
  exfalso. revert E. unfold ceq. now rewrite Ascii.eqb_refl. Qed.

Lemma stringLoop_body q body : forall t,
  stringBody q body ->
  stringLoop q (body ++ t)
  = (blanks (length body) ++ fst (stringLoop q t), snd (stringLoop q t)).
Proof.
  induction body as [|c body IH]; intros t H.
  - cbn [app length blanks repeat]. now destruct (stringLoop q t).
  - inversion H as [|? ? (H1 & H2 & H3) Hb]; subst. cbn [app].
    rewrite stringLoop_step by now apply ceq_neq.
    rewrite (ceq_neq _ _ H1), (ceq_neq _ _ H3), IH by exact Hb.
    reflexivity.
Qed.

Lemma stringLoop_quote q t : q <> bslash -> stringLoop q (q :: t) = ([sp], t).
Proof.
  intros H. rewrite stringLoop_step by now apply ceq_neq.
  now rewrite ceq_refl.
Qed.

Lemma stringLoop_newline q t : q <> nl -> stringLoop q (nl :: t) = ([nl], t).
Proof.
  intros H. rewrite stringLoop_step by reflexivity.
  rewrite (ceq_neq nl q) by congruence. reflexivity.
Qed.

Lemma blanks_app n m : blanks n ++ blanks m = blanks (n + m).
Proof. unfold blanks. now rewrite repeat_app. Qed.

(** X6: a string literal without escapes that follows plain code is
    blanked from its opening quote to its closing quote; when the line
    ends first, the string ends there: the newline is kept and the next
    line is normalized as code; when the text ends first, the rest is
    blanked. *)
Theorem string_ends_at_quote_or_newline (q : ascii) (code body rest : str) :
  q = squote \/ q = dquote -> plain code -> stringBody q body ->
  stripLiteralsAndComments (code ++ q :: body ++ q :: rest)
  = code ++ blanks (length body + 2) ++ stripLiteralsAndComments rest
  /\ stripLiteralsAndComments (code ++ q :: body ++ nl :: rest)
     = code ++ blanks (length body + 1)
         ++ nl :: stripLiteralsAndComments rest
  /\ stripLiteralsAndComments (code ++ q :: body)
     = code ++ blanks (length body + 1).
Proof.
  intros Hq Hc Hb.
  assert (Hq' : q <> "/" /\ q <> "*")
    by (destruct Hq as [-> | ->]; split; discriminate).
  assert (Hqb : q <> bslash) by (destruct Hq as [-> | ->]; discriminate).
  assert (Hqn : q <> nl) by (destruct Hq as [-> | ->]; discriminate).
  assert (Hstr : forall t,
    stripLiteralsAndComments (code ++ q :: body ++ t)
    = code ++ blanks (length body + 1)
        ++ afterLoop (stringLoop q t)).
  { intros t. rewrite strip_plain_before, strip_string by assumption.
    unfold afterLoop. rewrite stringLoop_body by exact Hb.
    cbn [fst snd]. rewrite (Nat.add_comm (length body) 1). unfold blanks.
    cbn [Nat.add repeat app]. now rewrite <- app_assoc. }
  repeat split.
  - rewrite Hstr, stringLoop_quote by assumption. unfold afterLoop.
    cbn [fst snd]. change [sp] with (blanks 1).
    rewrite !app_assoc, <- (app_assoc code), blanks_app.
    now rewrite <- Nat.add_assoc.
  - rewrite Hstr, stringLoop_newline by assumption. reflexivity.
  - rewrite <- (app_nil_r body) at 1. rewrite Hstr. unfold afterLoop.
    cbn [stringLoop fst snd app]. now rewrite strip_nil, app_nil_r.
Qed.

Lemma string_example :
  ((dquote = squote \/ dquote = dquote) /\ plain (lit "f(")
   /\ stringBody dquote (lit "it's // here"))
  /\ stripLiteralsAndComments
       (lit "f(" ++ dquote :: lit "it's // here" ++ dquote :: lit ")")
     = lit "f(" ++ blanks 14 ++ lit ")".
Proof.
  assert (H0 : dquote = squote \/ dquote = dquote) by now right.
  assert (H1 : plain (lit "f(")) by (unfold lit; simpl; repeat split).
  assert (H2 : stringBody dquote (lit "it's // here"))
    by (unfold lit; simpl; repeat constructor; discriminate).
  split; [repeat split; assumption|].
  exact (proj1 (string_ends_at_quote_or_newline dquote _ _ (lit ")")
                  H0 H1 H2)).
Defined.

(** A template body: no backtick, no escape and no hole. *)
Definition templateBody (body : str) : Prop :=
  Forall (fun c => c <> btick /\ c <> bslash /\ c <> "$") body.

Lemma templateLoop_step depth c s' :
  ceq c bslash = false -> ceq c "$" = false ->
  templateLoop depth (c :: s') =
  if ceq c "}" && (0 <? depth) then
    let (o, r) := templateLoop (depth - 1) s' in (sp :: o, r)
  else if ceq c btick && (depth =? 0) then ([sp], s')
  else let (o, r) := templateLoop depth s' in (blank c :: o, r).
Proof. intros H1 H2. destruct s'; simpl; rewrite ?H1, ?H2; reflexivity. Qed.

Lemma templateLoop_body body : forall t,
  templateBody body ->
  templateLoop 0 (body ++ t)
  = (map blank body ++ fst (templateLoop 0 t), snd (templateLoop 0 t)).
Proof.
  induction body as [|c body IH]; intros t H.
  - cbn [app map]. now destruct (templateLoop 0 t).
  - inversion H as [|? ? (H1 & H2 & H3) Hb]; subst. cbn [app map].
    rewrite templateLoop_step by now apply ceq_neq.
    rewrite (ceq_neq _ _ H1), andb_false_r. cbn [andb Nat.ltb Nat.leb].
    rewrite IH by exact Hb. reflexivity.
Qed.

Lemma templateLoop_close s : templateLoop 0 (btick :: s) = ([sp], s).
Proof. destruct s; reflexivity. Qed.

(** Without a backtick in the text the template loop runs to its end. *)
Lemma templateLoop_open (s : str) : forall depth,
  ~ In btick s -> snd (templateLoop depth s) = [].
Proof.
  induction s as [|c|c c2 s IH1 IH2] using two_step_ind; intros depth H.
  - reflexivity.
  - assert (E : ceq c btick = false)
      by (apply ceq_neq; intros ->; apply H; now left).
    simpl. rewrite E. destruct (ceq c "}" && (0 <? depth)); reflexivity.
  - assert (E : ceq c btick = false)
      by (apply ceq_neq; intros ->; apply H; now left).
    assert (Hs : ~ In btick s) by (intros X; apply H; now do 2 right).
    assert (Hs2 : ~ In btick (c2 :: s)) by (intros X; apply H; now right).
    change (templateLoop depth (c :: c2 :: s)) with
      (let single :=
         if ceq c "}" && (0 <? depth) then
           let (o, r) := templateLoop (depth - 1) (c2 :: s) in (sp :: o, r)
         else if ceq c btick && (depth =? 0) then ([sp], c2 :: s)
         else let (o, r) := templateLoop depth (c2 :: s) in (blank c :: o, r)
       in
       if ceq c bslash then
         let (o, r) := templateLoop depth s in (sp :: sp :: o, r)
       else if ceq c "$" && ceq c2 "{" then
         let (o, r) := templateLoop (S depth) s in (sp :: sp :: o, r)
       else single).
    cbv zeta. rewrite E. cbn [andb].
    destruct (ceq c bslash).
    { specialize (IH1 depth Hs). now destruct (templateLoop depth s). }
    destruct (ceq c "$" && ceq c2 "{").
    { specialize (IH1 (S depth) Hs). now destruct (templateLoop (S depth) s). }
    destruct (ceq c "}" && (0 <? depth)).
    { specialize (IH2 (depth - 1) Hs2).
      now destruct (templateLoop (depth - 1) (c2 :: s)). }
    specialize (IH2 depth Hs2). now destruct (templateLoop depth (c2 :: s)).
Qed.

(** X7: a template literal without escapes and holes that follows plain
    code is blanked up to its closing backtick, over any number of lines,
    the newlines kept; and when no backtick follows the opening one, the
    whole rest of the text is masked: unlike a string, a template does not
    end with its line. *)
Theorem template_ends_at_backtick_only (code body rest : str) :
  plain code ->
  (templateBody body ->
   stripLiteralsAndComments (code ++ btick :: body ++ btick :: rest)
   = code ++ sp :: map blank body ++ sp :: stripLiteralsAndComments rest)
  /\ (~ In btick rest ->
      exists m, stripLiteralsAndComments (code ++ btick :: rest) = code ++ m
                /\ Forall masked m /\ length m = S (length rest)).
Proof.
  intros Hc.
  assert (Hb : btick <> "/" /\ btick <> "*") by (split; discriminate).
  split.
  - intros Hbody. rewrite strip_plain_before, strip_template by assumption.
    rewrite templateLoop_body by exact Hbody. unfold afterLoop.
    rewrite templateLoop_close. cbn [fst snd]. now rewrite <- app_assoc.
  - intros Hopen. rewrite strip_plain_before, strip_template by assumption.
    unfold afterLoop. rewrite templateLoop_open by exact Hopen.
    rewrite strip_nil, app_nil_r.
    exists (sp :: fst (templateLoop 0 rest)). split; [reflexivity|].
    split.
    + constructor; [now left|apply templateLoop_masked].
    + pose proof (templateLoop_length rest 0) as L.
      rewrite templateLoop_open in L by exact Hopen. simpl in *. lia.
Qed.

Lemma template_example :
  plain (lit "x = ")
  /\ stripLiteralsAndComments
       (lit "x = " ++ btick :: (nl :: lit "export") ++ btick :: lit ";")
     = lit "x = " ++ sp :: (nl :: blanks 6) ++ sp :: lit ";".
Proof.
  assert (H1 : plain (lit "x = ")) by (unfold lit; simpl; repeat split).
  split; [exact H1|].
  refine (proj1 (template_ends_at_backtick_only _ (nl :: lit "export")
                   (lit ";") H1) _).
  unfold lit; simpl; repeat constructor; discriminate.
Defined.

(** *** The normalizer only blanks *)

(** The character pushed for [c]: [c] itself, or a blank. *)
Definition blanked (c d : ascii) : Prop := d = c \/ d = sp.

(** What an inner loop pushes stands for the text it steps over. *)
Definition covers (s : str) (res : str * str) : Prop :=
  exists consumed,
    s = consumed ++ snd res /\ Forall2 blanked consumed (fst res).

Lemma blank_blanked c : blanked c (blank c).
Proof.
  unfold blanked, blank. destruct (ceq c nl) eqn:E; [|now right].
  apply ceq_eq in E. now left.
Qed.

Lemma covers_nil : covers [] ([], []).
Proof. exists []. split; [reflexivity|constructor]. Qed.

Lemma covers_stop s : covers s ([], s).
Proof. exists []. split; [reflexivity|constructor]. Qed.

Lemma covers_one c d s : blanked c d -> covers (c :: s) ([d], s).
Proof.
  intros H. exists [c]. split; [reflexivity|].
  constructor; [exact H|constructor].
Qed.

Lemma covers_step c d s res :
  blanked c d -> covers s res -> covers (c :: s) (d :: fst res, snd res).
Proof.
  intros H (consumed & E & F). exists (c :: consumed). split.
  - cbn [snd app]. now rewrite <- E.
  - now constructor.
Qed.

Lemma covers_step2 c c2 s res :
  covers s res -> covers (c :: c2 :: s) (sp :: sp :: fst res, snd res).
Proof.
  intros (consumed & E & F). exists (c :: c2 :: consumed). split.
  - cbn [snd app]. now rewrite <- E.
  - constructor; [now right|]. constructor; [now right|exact F].
Qed.

Lemma lineCommentLoop_covers s : covers s (lineCommentLoop s).
Proof.
  induction s as [|c s IH]; cbn [lineCommentLoop]; [apply covers_nil|].
  destruct (ceq c nl); [apply covers_stop|].
  destruct (lineCommentLoop s) as [o r].
  apply (covers_step c sp s (o, r)); [now right|exact IH].
Qed.

Lemma blockCommentLoop_covers s : covers s (blockCommentLoop s).
Proof.
  induction s as [|c|c c2 s IH1 IH2] using two_step_ind.
  - apply covers_nil.
  - apply covers_one, blank_blanked.
  - change (blockCommentLoop (c :: c2 :: s)) with
      (if ceq c "*" && ceq c2 "/" then ([sp; sp], s)
       else let (o, r) := blockCommentLoop (c2 :: s) in (blank c :: o, r)).
    destruct (ceq c "*" && ceq c2 "/").
    + apply (covers_step2 c c2 s ([], s)), covers_stop.
    + destruct (blockCommentLoop (c2 :: s)) as [o r].
      apply (covers_step c (blank c) (c2 :: s) (o, r));
        [apply blank_blanked|exact IH2].
Qed.

Lemma templateLoop_covers s : forall depth, covers s (templateLoop depth s).
Proof.
  induction s as [|c|c c2 s IH1 IH2] using two_step_ind; intros depth.
  - apply covers_nil.
  - simpl. destruct (ceq c "}" && (0 <? depth));
      [apply covers_one; now right|].
    destruct (ceq c btick && (depth =? 0)); apply covers_one;
      [now right|apply blank_blanked].
  - change (templateLoop depth (c :: c2 :: s)) with
      (let single :=
         if ceq c "}" && (0 <? depth) then
           let (o, r) := templateLoop (depth - 1) (c2 :: s) in (sp :: o, r)
         else if ceq c btick && (depth =? 0) then ([sp], c2 :: s)
         else let (o, r) := templateLoop depth (c2 :: s) in (blank c :: o, r)
       in
       if ceq c bslash then
         let (o, r) := templateLoop depth s in (sp :: sp :: o, r)
       else if ceq c "$" && ceq c2 "{" then
         let (o, r) := templateLoop (S depth) s in (sp :: sp :: o, r)
       else single).
    cbv zeta.
    destruct (ceq c bslash).
    { specialize (IH1 depth). destruct (templateLoop depth s) as [o r].
      exact (covers_step2 c c2 s (o, r) IH1). }
    destruct (ceq c "$" && ceq c2 "{").
    { specialize (IH1 (S depth)). destruct (templateLoop (S depth) s) as [o r].
      exact (covers_step2 c c2 s (o, r) IH1). }
    destruct (ceq c "}" && (0 <? depth)).
    { specialize (IH2 (depth - 1)).
      destruct (templateLoop (depth - 1) (c2 :: s)) as [o r].
      apply (covers_step c sp (c2 :: s) (o, r)); [now right|exact IH2]. }
    destruct (ceq c btick && (depth =? 0)); [apply covers_one; now right|].
    specialize (IH2 depth). destruct (templateLoop depth (c2 :: s)) as [o r].
    apply (covers_step c (blank c) (c2 :: s) (o, r));
      [apply blank_blanked|exact IH2].
Qed.

Lemma stringLoop_covers quote s : covers s (stringLoop quote s).
Proof.
  induction s as [|c|c c2 s IH1 IH2] using two_step_ind.
  - apply covers_nil.
  - simpl. destruct (ceq c quote); [apply covers_one; now right|].
    destruct (ceq c nl) eqn:E; apply covers_one; [|now right].
    apply ceq_eq in E. now left.
  - destruct (ceq c bslash) eqn:Eb.
    + change (stringLoop quote (c :: c2 :: s)) with
        (let single :=
           if ceq c quote then ([sp], c2 :: s)
           else if ceq c nl then ([nl], c2 :: s)
           else let (o, r) := stringLoop quote (c2 :: s) in (sp :: o, r) in
         if ceq c bslash then
           let (o, r) := stringLoop quote s in (sp :: sp :: o, r)
         else single).
      cbv zeta. rewrite Eb. destruct (stringLoop quote s) as [o r].
      exact (covers_step2 c c2 s (o, r) IH1).
    + rewrite stringLoop_step by exact Eb.
      destruct (ceq c quote); [apply covers_one; now right|].
      destruct (ceq c nl) eqn:E.
      * apply covers_one. apply ceq_eq in E. now left.
      * destruct (stringLoop quote (c2 :: s)) as [o r].
        apply (covers_step c sp (c2 :: s) (o, r)); [now right|exact IH2].
Qed.

Lemma covers_length s res :
  covers s res -> length (snd res) <= length s.
Proof. intros (consumed & -> & _). rewrite length_app. lia. Qed.

Lemma strip_blanked n : forall s,
  length s <= n -> Forall2 blanked s (stripLiteralsAndComments s).
Proof.
  assert (Hsp : forall c, blanked c sp) by (intros c; now right).
  assert (Hafter : forall m s res,
    (forall t, length t <= m -> Forall2 blanked t (stripLiteralsAndComments t))
    -> length s <= m -> covers s res -> Forall2 blanked s (afterLoop res)).
  { intros m s res IH Hlen Hc. pose proof (covers_length _ _ Hc) as Hl.
    destruct Hc as (consumed & E & F). unfold afterLoop.
    rewrite E at 1. apply Forall2_app; [exact F|]. apply IH. lia. }
  induction n as [|n IH]; intros s Hlen.
  - destruct s; [constructor|simpl in Hlen; lia].
  - destruct s as [|ch s']; [constructor|]. simpl in Hlen.
    assert (Hs' : length s' <= n) by lia.
    assert (Ht : length (tl s') <= n) by (destruct s'; simpl in *; lia).
    rewrite strip_unfold.
    destruct (ceq ch "/" && is_char (hd_error s') "/") eqn:E1.
    { destruct s' as [|c2 s'']; [simpl in E1; now rewrite andb_false_r in E1|].
      cbn [tl] in *. constructor; [apply Hsp|]. constructor; [apply Hsp|].
      apply (Hafter n); auto. apply lineCommentLoop_covers. }
    destruct (ceq ch "/" && is_char (hd_error s') "*") eqn:E2.
    { destruct s' as [|c2 s'']; [simpl in E2; now rewrite andb_false_r in E2|].
      cbn [tl] in *. constructor; [apply Hsp|]. constructor; [apply Hsp|].
      apply (Hafter n); auto. apply blockCommentLoop_covers. }
    destruct (ceq ch btick).
    { constructor; auto. apply (Hafter n); auto. apply templateLoop_covers. }
    destruct (ceq ch squote || ceq ch dquote).
    { constructor; auto. apply (Hafter n); auto. apply stringLoop_covers. }
    constructor; [now left|now apply IH].
Qed.

(** X22: the normalizer only blanks: at every offset the normalized text
    has the character of the source or a blank; it moves no character and
    writes none that the source does not have there.  In particular a
    newline of the normalized text is a newline of the source. *)
Theorem normalizer_only_blanks (source : str) :
  Forall2 blanked source (stripLiteralsAndComments source)
  /\ forall i c,
       nth_error (stripLiteralsAndComments source) i = Some c ->
       c <> sp -> nth_error source i = Some c.
Proof.
  assert (H : Forall2 blanked source (stripLiteralsAndComments source))
    by (apply (strip_blanked (length source)); lia).
  split; [exact H|].
  induction H as [|c d s o Hcd _ IH]; intros i x Hx Hsp.
  - now destruct i.
  - destruct i as [|i]; cbn [nth_error] in *; [|now apply IH].
    injection Hx as ->. destruct Hcd as [Hd|Hd]; [now subst|contradiction].
Qed.

End NormalizerMore.

(* ================================================================== *)
(** * Further properties of the path resolver *)
(* ================================================================== *)

Module ResolverMore.
Import Resolver ResolverFacts.

(** [firstExisting] returns the first candidate that exists. *)
Lemma firstExisting_some pf l p :
  firstExisting pf l = Some p <->
  exists before after,
    l = before ++ p :: after /\ existsSync pf p = true
    /\ Forall (fun c => existsSync pf c = false) before.
Proof.
  induction l as [|c l IH]; cbn [firstExisting].
  - split; [discriminate|]. intros (b & a & H & _). now destruct b.
  - destruct (existsSync pf c) eqn:E.
    + split.
      * intros [= <-]. exists [], l. auto.
      * intros ([|b before] & after & Hl & Hp & Hb).
        -- now injection Hl as ->.
        -- injection Hl as -> _. inversion Hb; congruence.
    + rewrite IH. split.
      * intros (b & a & -> & Hp & Hb). exists (c :: b), a. auto.
      * intros ([|b before] & after & Hl & Hp & Hb).
        -- injection Hl as -> _. congruence.
        -- injection Hl as -> ->. inversion Hb; subst.
           exists before, after. auto.
Qed.

Lemma firstExisting_none pf l :
  firstExisting pf l = None <-> Forall (fun c => existsSync pf c = false) l.
Proof.
  induction l as [|c l IH]; cbn [firstExisting].
  - split; auto.
  - destruct (existsSync pf c) eqn:E.
    + split; [discriminate|]. intros H. inversion H; congruence.
    + rewrite IH. split; [now constructor|]. intros H. now inversion H.
Qed.

(** The index file of [dir] with extension [ext]. *)
Definition indexFile (pf : Platform) (dir ext : str) : str :=
  join pf dir (lit "index" ++ ext).

(** X8: the index file of a directory is the one with the first extension
    of the list, in its order [.ts, .tsx, .js, .jsx, .mjs, .mts], whose
    file exists: every index file with an earlier extension is missing;
    there is none exactly when no index file with an extension of the list
    exists. *)
Theorem index_file_is_first_existing (pf : Platform) (dir : str) :
  (forall p, resolveIndexFile pf dir = Some p <->
     exists before ext after,
       RESOLVE_EXTENSIONS = before ++ ext :: after
       /\ p = indexFile pf dir ext /\ existsSync pf p = true
       /\ Forall (fun e => existsSync pf (indexFile pf dir e) = false) before)
  /\ (resolveIndexFile pf dir = None <->
      Forall (fun e => existsSync pf (indexFile pf dir e) = false)
        RESOLVE_EXTENSIONS).
Proof.
  change (resolveIndexFile pf dir)
    with (firstExisting pf (map (indexFile pf dir) RESOLVE_EXTENSIONS)).
  split.
  - intros p. rewrite firstExisting_some. split.
    + intros (b & a & Hl & Hp & Hb).
      apply map_eq_app in Hl as (b' & r & Hl & <- & Hr).
      apply map_eq_cons in Hr as (ext & a' & -> & <- & <-).
      exists b', ext, a'. repeat split; auto.
      now apply Forall_map in Hb.
    + intros (b & ext & a & -> & -> & Hp & Hb).
      exists (map (indexFile pf dir) b), (map (indexFile pf dir) a).
      rewrite map_app. repeat split; auto. now apply Forall_map.
  - rewrite firstExisting_none. apply Forall_map.
Qed.

(** X9: whatever the filesystem, a relative specifier resolves to a path
    that exists, or else to the literal path, and then only when the
    literal path does not exist and no extension of the list makes it
    exist. *)
Theorem resolved_path_exists_or_is_literal (pf : Platform)
    (fromFile importPath : str) :
  startsWith importPath (lit ".") = true ->
  let literal := resolve pf (dirname pf fromFile) importPath in
  let resolved := resolveImportPath pf fromFile importPath in
  existsSync pf resolved = true
  \/ (resolved = literal /\ existsSync pf literal = false
      /\ Forall (fun ext => existsSync pf (literal ++ ext) = false)
           RESOLVE_EXTENSIONS).
Proof.
  intros Hrel. cbv zeta. unfold resolveImportPath. rewrite Hrel. cbv zeta.
  set (literal := resolve pf (dirname pf fromFile) importPath).
  destruct (existsSync pf literal) eqn:Ex.
  - left. destruct (statIsDirectory pf literal) as [[|]|]; auto.
    unfold orElse. destruct (resolveIndexFile pf literal) as [p|] eqn:Ei; auto.
    destruct (truthy p); auto.
    now apply firstExisting_exists in Ei.
  - destruct (firstExisting pf (map (fun ext => literal ++ ext)
                                  RESOLVE_EXTENSIONS)) as [p|] eqn:E3.
    { left. now apply firstExisting_exists in E3. }
    apply firstExisting_none, Forall_map in E3.
    match goal with
    | |- context [match ?ts with Some p => p | None => _ end] =>
        destruct ts as [p|] eqn:Ets
    end.
    { left.
      destruct (endsWith literal (lit ".js"));
        [now apply firstExisting_exists in Ets|].
      destruct (endsWith literal (lit ".jsx"));
        [now apply firstExisting_exists in Ets|discriminate]. }
    destruct (resolveIndexFile pf literal) as [p|] eqn:Ei; [|now right].
    destruct (truthy p); [|now right].
    left. now apply firstExisting_exists in Ei.
Qed.

End ResolverMore.

(* ================================================================== *)
(** * Further properties of the graph and of the detectors *)
(* ================================================================== *)

Module GraphMore.
Import Regex Fallback RegexFacts FallbackFacts GraphFacts ReexportFacts.

Section GraphMore.
Variable pf : Platform.

(** *** The line of a finding *)

(** The test that [getExportLine] makes on a line. *)
Definition exportLine (exportName line : str) : bool :=
  includes line (lit "export") && includes line exportName.

Lemma findLine_spec lines exportName : forall i,
  match findLine lines exportName i with
  | 0 => Forall (fun line => exportLine exportName line = false) lines
  | S n =>
      exists before line after,
        lines = before ++ line :: after
        /\ n = i + length before
        /\ exportLine exportName line = true
        /\ Forall (fun l => exportLine exportName l = false) before
  end.
Proof.
  induction lines as [|line lines IH]; intros i; cbn [findLine].
  - constructor.
  - fold (exportLine exportName line).
    destruct (exportLine exportName line) eqn:E.
    + rewrite Nat.add_1_r. exists [], line, lines. simpl.
      repeat split; auto.
    + specialize (IH (S i)).
      destruct (findLine lines exportName (S i)) as [|n].
      * now constructor.
      * destruct IH as (b & l & a & -> & -> & Hl & Hb).
        exists (line :: b), l, a. simpl. repeat split; auto; lia.
Qed.

(** X10: the line that a finding carries is the number, counted from one,
    of the first line of the file that contains both the word [export]
    and the export name; it is zero when the file has no such line, and
    when the file cannot be read. *)
Theorem export_line_is_first_match (file exportName : str) :
  match readFileSync pf file with
  | None => getExportLine pf file exportName = 0
  | Some content =>
      let lines := splitChar nl content in
      match getExportLine pf file exportName with
      | 0 => Forall (fun line => exportLine exportName line = false) lines
      | S n =>
          exists before line after,
            lines = before ++ line :: after
            /\ n = length before
            /\ exportLine exportName line = true
            /\ Forall (fun l => exportLine exportName l = false) before
      end
  end.
Proof.
  unfold getExportLine. destruct (readFileSync pf file) as [content|];
    [|reflexivity].
  cbv zeta. exact (findLine_spec (splitChar nl content) exportName 0).
Qed.

(** *** The maps of the graph *)

Lemma map_set_fst (V : Type) (m : list (str * V)) k v :
  map fst (map_set m k v) = set_add (map fst m) k.
Proof.
  unfold set_add, set_has.
  induction m as [|[k0 v0] m IH]; cbn [map_set map fst existsb app];
    [reflexivity|].
  destruct (str_eqb k k0) eqn:E; cbn [orb map fst]; [reflexivity|].
  rewrite IH. now destruct (existsb (str_eqb k) (map fst m)).
Qed.

Lemma set_add_NoDup s x : NoDup s -> NoDup (set_add s x).
Proof.
  intros H. unfold set_add. destruct (set_has s x) eqn:E; [exact H|].
  apply set_has_false in E. apply NoDup_app; auto.
  - constructor; [intros []|constructor].
  - intros y Hy [<-|[]]. contradiction.
Qed.

Lemma NoDup_map_get (V : Type) (m : list (str * V)) k v :
  NoDup (map fst m) -> In (k, v) m -> map_get m k = Some v.
Proof.
  induction m as [|[k0 v0] m IH]; cbn [map fst map_get In]; [contradiction|].
  intros Hnd [[= -> ->]|Hin].
  - now rewrite str_eqb_refl.
  - inversion Hnd as [|? ? Hk Hm]; subst.
    destruct (str_eqb k k0) eqn:E; [|now apply IH].
    apply str_eqb_eq in E. subst k0. exfalso. apply Hk.
    apply in_map_iff. now exists (k, v).
Qed.

(** [readFileSync] returns. *)
Definition readable (file : str) : bool :=
  match readFileSync pf file with Some _ => true | None => false end.

(** The readable files of the list, each once, in the order of their
    first occurrence. *)
Definition readFiles (files : list str) : list str :=
  fold_left (fun acc f => if readable f then set_add acc f else acc)
    files [].

Lemma build_keys files : forall g,
  map fst (exports g) = map fst (imports g) ->
  let g' := fold_left (buildStep pf) files g in
  map fst (exports g')
  = fold_left (fun acc f => if readable f then set_add acc f else acc)
      files (map fst (exports g))
  /\ map fst (imports g') = map fst (exports g').
Proof.
  induction files as [|f files IH]; intros g Hg; cbn [fold_left].
  - split; [reflexivity|now symmetry].
  - cbv zeta. specialize (IH (buildStep pf g f)).
    unfold buildStep, readable in *.
    destruct (readFileSync pf f) as [content|]; [|now apply IH].
    cbn [exports imports] in IH. rewrite !map_set_fst in IH.
    apply IH. now rewrite Hg.
Qed.

Lemma readFiles_spec files : forall init k,
  In k (fold_left (fun acc f => if readable f then set_add acc f else acc)
          files init)
  <-> In k init \/ (In k files /\ readable k = true).
Proof.
  induction files as [|f files IH]; intros init k; cbn [fold_left In].
  - tauto.
  - rewrite IH. destruct (readable f) eqn:E.
    + rewrite set_add_In. split.
      * intros [[H| ->]|H]; tauto.
      * intros [H|[[<-|H] Hr]]; tauto.
    + split; [tauto|]. intros [H|[[<-|H] Hr]]; [tauto|congruence|tauto].
Qed.

Lemma readFiles_NoDup files : forall init,
  NoDup init ->
  NoDup (fold_left (fun acc f => if readable f then set_add acc f else acc)
           files init).
Proof.
  induction files as [|f files IH]; intros init H; cbn [fold_left];
    [exact H|].
  apply IH. destruct (readable f); [now apply set_add_NoDup|exact H].
Qed.

Lemma graph_keys_eq files projectPath :
  let g := buildExportGraph pf files projectPath in
  map fst (exports g) = readFiles files
  /\ map fst (imports g) = readFiles files.
Proof.
  cbv zeta. unfold buildExportGraph.
  destruct (build_keys files {| exports := []; imports := [] |} eq_refl)
    as [H1 H2].
  cbv zeta in *. rewrite H2, H1. split; reflexivity.
Qed.

(** X11: the two maps of the graph have the same keys, in the same
    order: the files of the list that could be read, each once, in the
    order of their first occurrence. *)
Theorem graph_keys_are_the_read_files (files : list str)
    (projectPath : str) :
  let g := buildExportGraph pf files projectPath in
  map fst (exports g) = readFiles files
  /\ map fst (imports g) = readFiles files
  /\ NoDup (readFiles files)
  /\ forall k, In k (readFiles files)
               <-> In k files /\ readFileSync pf k <> None.
Proof.
  cbv zeta. destruct (graph_keys_eq files projectPath) as [H1 H2].
  repeat split; auto.
  - apply readFiles_NoDup. constructor.
  - apply readFiles_spec in H as [[]|[H _]]. exact H.
  - apply readFiles_spec in H as [[]|[_ H]]. unfold readable in H.
    destruct (readFileSync pf k); congruence.
  - intros [Hin Hr]. apply readFiles_spec. right. split; [exact Hin|].
    unfold readable. destruct (readFileSync pf k); congruence.
Qed.

(** What the graph holds for [file]: the records of its text, when it is
    in the list and can be read. *)
Definition entryOf (files : list str) (file : str)
    : option Fallback.extraction :=
  if set_has files file
  then option_map (extractFile pf file) (readFileSync pf file)
  else None.

Lemma build_lookup files file : forall g,
  let g' := fold_left (buildStep pf) files g in
  (map_get (exports g') file
   = match entryOf files file with
     | Some e => Some (fst e)
     | None => map_get (exports g) file
     end)
  /\ (map_get (imports g') file
      = match entryOf files file with
        | Some e => Some (snd e)
        | None => map_get (imports g) file
        end).
Proof.
  unfold entryOf.
  induction files as [|f files IH]; intros g; cbn [fold_left].
  - split; reflexivity.
  - cbv zeta. destruct (IH (buildStep pf g f)) as [IH1 IH2].
    rewrite IH1, IH2. clear IH IH1 IH2.
    change (set_has (f :: files) file)
      with (str_eqb file f || set_has files file).
    destruct (set_has files file) eqn:Es.
    + rewrite orb_true_r.
      destruct (readFileSync pf file) as [content|] eqn:Er;
        cbn [option_map]; [split; reflexivity|].
      unfold buildStep.
      destruct (readFileSync pf f) as [c|] eqn:Ef; [|split; reflexivity].
      cbn [exports imports].
      rewrite !map_get_set_other by congruence. split; reflexivity.
    + rewrite orb_false_r. unfold buildStep.
      destruct (str_eqb file f) eqn:E.
      * apply str_eqb_eq in E. subst f.
        destruct (readFileSync pf file) as [content|]; cbn [option_map];
          [|split; reflexivity].
        cbn [exports imports]. rewrite !map_get_set_same.
        split; reflexivity.
      * apply str_eqb_neq in E.
        destruct (readFileSync pf f) as [c|]; [|split; reflexivity].
        cbn [exports imports].
        rewrite !map_get_set_other by exact E. split; reflexivity.
Qed.

Lemma graph_lookup files projectPath file :
  let g := buildExportGraph pf files projectPath in
  map_get (exports g) file = option_map fst (entryOf files file)
  /\ map_get (imports g) file = option_map snd (entryOf files file).
Proof.
  cbv zeta. unfold buildExportGraph.
  destruct (build_lookup files file {| exports := []; imports := [] |})
    as [H1 H2].
  cbv zeta in *. rewrite H1, H2.
  destruct (entryOf files file); split; reflexivity.
Qed.

(** X12: what the graph holds for a file is decided by that file alone:
    a file of the list that can be read has the records extracted from
    its own text, wherever it stands in the list, however often, and
    whatever the other files hold; any other file has no entry. *)
Theorem graph_entry_is_per_file (files : list str)
    (projectPath file : str) :
  let g := buildExportGraph pf files projectPath in
  map_get (exports g) file = option_map fst (entryOf files file)
  /\ map_get (imports g) file = option_map snd (entryOf files file).
Proof. apply graph_lookup. Qed.

(** *** The findings do not depend on the order of the files *)

Lemma entryOf_ext files files' file :
  (forall f, In f files <-> In f files') ->
  entryOf files file = entryOf files' file.
Proof.
  intros H. unfold entryOf.
  destruct (set_has files file) eqn:E1, (set_has files' file) eqn:E2;
    try reflexivity.
  - apply set_has_In, H, set_has_In in E1. congruence.
  - apply set_has_In, H, set_has_In in E2. congruence.
Qed.

Lemma graph_exports_In files projectPath file names :
  In (file, names) (exports (buildExportGraph pf files projectPath))
  <-> option_map fst (entryOf files file) = Some names.
Proof.
  destruct (graph_lookup files projectPath file) as [H _]. cbv zeta in H.
  rewrite <- H. split.
  - apply NoDup_map_get.
    destruct (graph_keys_eq files projectPath) as [-> _].
    apply readFiles_NoDup. constructor.
  - apply map_get_In.
Qed.

Lemma graph_imports_In files projectPath file records :
  In (file, records) (imports (buildExportGraph pf files projectPath))
  <-> option_map snd (entryOf files file) = Some records.
Proof.
  destruct (graph_lookup files projectPath file) as [_ H]. cbv zeta in H.
  rewrite <- H. split.
  - apply NoDup_map_get.
    destruct (graph_keys_eq files projectPath) as [_ ->].
    apply readFiles_NoDup. constructor.
  - apply map_get_In.
Qed.

Lemma consumes_ext files files' projectPath file name :
  (forall f, In f files <-> In f files') ->
  consumes (buildExportGraph pf files projectPath) file name ->
  consumes (buildExportGraph pf files' projectPath) file name.
Proof.
  intros H (importer & records & r & Hin & Hr).
  exists importer, records, r. split; [|exact Hr].
  apply graph_imports_In. apply graph_imports_In in Hin.
  now rewrite <- (entryOf_ext files files' importer H).
Qed.

Lemma used_ext files files' projectPath file name :
  (forall f, In f files <-> In f files') ->
  used (buildExportGraph pf files projectPath) file name ->
  used (buildExportGraph pf files' projectPath) file name.
Proof.
  intros H [H1|[H1|[E H1]]]; [left|right; left|right; right; split; auto];
    eapply consumes_ext; eassumption.
Qed.

Lemma findings_ext files files' projectPath u :
  (forall f, In f files <-> In f files') ->
  In u (findUnusedExports pf (buildExportGraph pf files projectPath)
          files projectPath) ->
  In u (findUnusedExports pf (buildExportGraph pf files' projectPath)
          files' projectPath).
Proof.
  intros H Hu.
  apply findUnusedExports_In in Hu as (names & H1 & H2 & H3 & H4 & H5).
  apply findUnusedExports_In. exists names. repeat split; auto.
  - apply graph_exports_In. apply graph_exports_In in H1.
    now rewrite <- (entryOf_ext files files' _ H).
  - intros Hused. apply H4. eapply used_ext; [|exact Hused].
    intros f. symmetry. apply H.
Qed.

(** X15: the unused exports found do not depend on the order of the file
    list, nor on a file being listed more than once: two lists with the
    same files yield the same unused exports. *)
Theorem unused_exports_independent_of_file_order (files files' : list str)
    (projectPath : str) :
  (forall f, In f files <-> In f files') ->
  forall u,
    In u (findUnusedExports pf (buildExportGraph pf files projectPath)
            files projectPath)
    <-> In u (findUnusedExports pf (buildExportGraph pf files' projectPath)
                files' projectPath).
Proof.
  intros H u. split; apply findings_ext; [exact H|].
  intros f. symmetry. apply H.
Qed.

(** *** More files, no new findings *)

Lemma entryOf_app files more file :
  In file files -> entryOf (files ++ more) file = entryOf files file.
Proof.
  intros H. unfold entryOf.
  rewrite (proj2 (set_has_In files file) H).
  assert (H' : In file (files ++ more)) by (apply in_app_iff; now left).
  now rewrite (proj2 (set_has_In (files ++ more) file) H').
Qed.

Lemma entryOf_listed files file e : entryOf files file = Some e -> In file files.
Proof.
  unfold entryOf. destruct (set_has files file) eqn:E; [|discriminate].
  intros _. now apply set_has_In.
Qed.

Lemma consumes_more files more projectPath file name :
  consumes (buildExportGraph pf files projectPath) file name ->
  consumes (buildExportGraph pf (files ++ more) projectPath) file name.
Proof.
  intros (importer & records & r & Hin & Hr).
  exists importer, records, r. split; [|exact Hr].
  apply graph_imports_In. apply graph_imports_In in Hin.
  rewrite entryOf_app; [exact Hin|].
  destruct (entryOf files importer) as [e|] eqn:E; [|discriminate].
  eapply entryOf_listed, E.
Qed.

(** X23: analysing more files brings no new finding about the files
    analysed before: an unused export that the larger run finds in a file
    of the smaller run is found by the smaller run as well. *)
Theorem more_files_no_new_findings (files more : list str)
    (projectPath : str) (u : UnusedExport) :
  In (ue_file u) files ->
  In u (findUnusedExports pf
          (buildExportGraph pf (files ++ more) projectPath)
          (files ++ more) projectPath) ->
  In u (findUnusedExports pf (buildExportGraph pf files projectPath)
          files projectPath).
Proof.
  intros Hfile Hu.
  apply findUnusedExports_In in Hu as (names & H1 & H2 & H3 & H4 & H5).
  apply findUnusedExports_In. exists names. repeat split; auto.
  - apply graph_exports_In. apply graph_exports_In in H1.
    now rewrite entryOf_app in H1.
  - intros Hused. apply H4.
    destruct Hused as [H|[H|[E H]]];
      [left|right; left|right; right; split; auto];
      now apply consumes_more.
Qed.

(** *** No export is reported twice *)

Lemma addName_NoDup name s : NoDup s -> NoDup (Primary.addName name s).
Proof.
  unfold Primary.addName. destruct name as [n|]; [|auto].
  destruct (truthy n); auto using set_add_NoDup.
Qed.

Lemma addExports_NoDup names : forall s,
  NoDup s -> NoDup (addExports names s).
Proof.
  unfold addExports. induction names as [|n names IH]; intros s H;
    cbn [fold_left]; [exact H|].
  apply IH. destruct (truthy n); auto using set_add_NoDup.
Qed.

Lemma exportSpecifierStep_NoDup file source acc spec :
  NoDup (fst acc) ->
  NoDup (fst (Primary.exportSpecifierStep pf file source acc spec)).
Proof.
  intros H. unfold Primary.exportSpecifierStep.
  assert (Hn : NoDup (Primary.addName
                        (Primary.orName (spec_exported spec)
                           (spec_local spec)) (fst acc)))
    by now apply addName_NoDup.
  destruct source as [value|]; [|exact Hn].
  destruct (truthy value); [|exact Hn].
  destruct (spec_local spec) as [l|]; [|exact Hn].
  destruct (truthy l); exact Hn.
Qed.

Lemma visit_NoDup file acc node :
  NoDup (fst acc) -> NoDup (fst (Primary.visit pf file acc node)).
Proof.
  intros H. destruct node as [specs source decl| |source|source specs|];
    cbn [Primary.visit].
  - assert (H1 : NoDup (fst (fold_left
                 (Primary.exportSpecifierStep pf file source) specs acc))).
    { apply fold_left_inv; [exact H|].
      intros a b _. apply exportSpecifierStep_NoDup. }
    destruct decl as [[ds|id]|]; cbn [fst]; [|now apply addName_NoDup|auto].
    apply fold_left_inv; [exact H1|]. intros a b _. apply addName_NoDup.
  - now apply set_add_NoDup.
  - destruct source as [value|]; [|exact H].
    destruct (truthy value); [|exact H]. now apply set_add_NoDup.
  - destruct source as [value|]; [|exact H].
    destruct (truthy value); exact H.
  - exact H.
Qed.

Lemma fallback_NoDup content stripped file :
  NoDup (fst (extractExportsAndImportsViaRegex pf content stripped file
                [] [])).
Proof.
  unfold extractExportsAndImportsViaRegex. cbv zeta.
  repeat (apply fold_left_inv;
          [|intros a m _ Ha;
            unfold declStep, exportBraceStep, exportAllStep,
              namedImportStep, defaultImportStep, namespaceImportStep;
            destruct (negb _); [exact Ha|];
            try destruct (truthy_opt _); cbn [fst];
            auto using set_add_NoDup, addExports_NoDup]).
  cbn [fst]. destruct (test _ _); [apply set_add_NoDup|]; constructor.
Qed.

Lemma extractFile_NoDup file content :
  NoDup (fst (extractFile pf file content)).
Proof.
  unfold extractFile. destruct (acornParse pf content) as [ast|].
  - unfold Primary.walkSimple. apply fold_left_inv; [constructor|].
    intros a b _. apply visit_NoDup.
  - apply fallback_NoDup.
Qed.

(** The finding for an export of a file. *)
Definition unusedExport (file exportName : str) : UnusedExport :=
  {| ue_file := file; ue_exportName := exportName;
     ue_line := getExportLine pf file exportName |}.

(** The exports of an entry that are reported. *)
Definition reported (usedInFile : list str) (names : list str) : list str :=
  filter (fun n => negb (startsWith n (lit "*"))
                   && negb (isUsed usedInFile n)) names.

Lemma checkExports_eq file usedInFile names : forall acc,
  fold_left (checkExport pf file usedInFile) names acc
  = acc ++ map (unusedExport file) (reported usedInFile names).
Proof.
  unfold reported.
  induction names as [|n names IH]; intros acc; cbn [fold_left filter map].
  - now rewrite app_nil_r.
  - rewrite IH. unfold checkExport.
    destruct (startsWith n (lit "*")); cbn [negb andb]; [reflexivity|].
    destruct (isUsed usedInFile n); cbn [negb map]; [reflexivity|].
    now rewrite <- app_assoc.
Qed.

(** The findings of one entry of the exports map. *)
Definition findingsOf (g : ExportGraph) (entry : str * list str)
    : list UnusedExport :=
  map (unusedExport (fst entry))
    (reported (namesOf (collectImports g) (fst entry)) (snd entry)).

Lemma findUnusedExports_eq g files projectPath :
  findUnusedExports pf g files projectPath
  = flat_map (findingsOf g) (exports g).
Proof.
  unfold findUnusedExports. cbv zeta.
  rewrite <- (app_nil_l (flat_map _ _)). generalize (@nil UnusedExport).
  induction (exports g) as [|e entries IH]; intros acc;
    cbn [fold_left flat_map].
  - now rewrite app_nil_r.
  - rewrite IH, checkExports_eq, <- app_assoc. reflexivity.
Qed.

(** The file and the name that a finding is about. *)
Definition subject (u : UnusedExport) : str * str :=
  (ue_file u, ue_exportName u).

Lemma NoDup_pair (file : str) (names : list str) :
  NoDup names -> NoDup (map (pair file) names).
Proof.
  induction 1 as [|n names Hn _ IH]; cbn [map]; constructor; [|exact IH].
  intros H. apply in_map_iff in H as (n' & [= ->] & H). contradiction.
Qed.

Lemma findingsOf_NoDup g entries :
  NoDup (map fst entries) ->
  (forall file names, In (file, names) entries -> NoDup names) ->
  NoDup (map subject (flat_map (findingsOf g) entries)).
Proof.
  induction entries as [|[file names] entries IH]; intros Hk Hn;
    cbn [flat_map map]; [constructor|].
  inversion Hk as [|? ? Hfile Hk']; subst.
  rewrite map_app. apply NoDup_app.
  - unfold findingsOf. cbn [fst snd]. rewrite map_map.
    change (fun x => subject (unusedExport file x)) with (pair (B := str) file).
    apply NoDup_pair, NoDup_filter. apply (Hn file). now left.
  - apply IH; [exact Hk'|]. intros f ns H. apply (Hn f). now right.
  - intros [f n] H1 H2.
    apply in_map_iff in H1 as (u & Hu & H1).
    apply in_map_iff in H1 as (n' & <- & _). injection Hu as Hf _.
    subst f.
    apply in_map_iff in H2 as (u & Hu & H2).
    apply in_flat_map in H2 as ([f' ns] & He & H2).
    apply in_map_iff in H2 as (n'' & <- & _). injection Hu as Hf _.
    cbn [fst] in Hf. subst f'.
    apply Hfile. apply in_map_iff. now exists (file, ns).
Qed.

(** X16: no export is reported twice: the unused exports found in the
    graph built from the files have pairwise distinct pairs of file and
    export name. *)
Theorem no_export_is_reported_twice (files : list str) (projectPath : str) :
  let g := buildExportGraph pf files projectPath in
  NoDup (map subject (findUnusedExports pf g files projectPath)).
Proof.
  intros g. rewrite findUnusedExports_eq. apply findingsOf_NoDup.
  - destruct (graph_keys_eq files projectPath) as [H _]. fold g in H.
    rewrite H. apply readFiles_NoDup. constructor.
  - intros file names Hin. apply graph_exports_In in Hin.
    unfold entryOf in Hin. destruct (set_has files file); [|discriminate].
    destruct (readFileSync pf file) as [content|]; [|discriminate].
    injection Hin as <-. apply extractFile_NoDup.
Qed.

(** *** Wildcard re-exports *)

(** The marker that stands for [export * from source] in the exports of
    a file. *)
Definition wildcardMarker (source : str) : str := lit "* from " ++ source.

(** The extraction holds the marker, and a namespace import of the file
    that [source] resolves to. *)
Definition recordsAll (file : str) (e : extraction) (source : str) : Prop :=
  In (wildcardMarker source) (fst e)
  /\ In {| importedName := lit "*";
           sourceFile := Resolver.resolveImportPath pf file source |} (snd e).

Lemma recordsAll_grows file a b source :
  grows a b -> recordsAll file a source -> recordsAll file b source.
Proof. intros [H1 H2] [H3 H4]. split; auto. Qed.

(** The text of the file has [export * from source]: a node of acorn's
    tree, or a match of the fallback's pattern that begins in code. *)
Definition reexportsAll (content source : str) : Prop :=
  match acornParse pf content with
  | Some ast =>
      In (ExportAllDeclaration (Some source)) ast /\ truthy source = true
  | None =>
      exists m,
        In m (matchAll exportAllRegex content)
        /\ inCode (Normalizer.stripLiteralsAndComments content) (index m)
           = true
        /\ grp 1 m = source
  end.

Lemma extractFile_reexportsAll file content source :
  reexportsAll content source ->
  recordsAll file (extractFile pf file content) source.
Proof.
  unfold reexportsAll, extractFile.
  destruct (acornParse pf content) as [ast|].
  - intros [Hnode Ht]. unfold Primary.walkSimple.
    apply (fold_left_reach _ _ (Primary.visit pf file)
             (fun a => recordsAll file a source) ast
             (ExportAllDeclaration (Some source))); auto.
    + intros a. cbn [Primary.visit]. rewrite Ht. split; cbn [fst snd].
      * apply set_add_In. now right.
      * apply in_app_iff. right. now left.
    + intros a node. apply recordsAll_grows, visit_grows.
  - intros (m & Hm & Hcode & Hg).
    apply (recordsAll_grows file
             (stage3 pf content file [] []) _ source
             (stage3_final pf content file [] [])).
    unfold stage3.
    apply (fold_left_reach _ _ _ (fun a => recordsAll file a source) _ m);
      auto.
    + intros a. unfold exportAllStep. rewrite Hcode, Hg. cbn [negb].
      split; cbn [fst snd].
      * apply set_add_In. now right.
      * apply in_app_iff. right. now left.
    + intros a m'. apply recordsAll_grows, exportAllStep_grows.
Qed.

(** X17: a file [B] of the list whose text has [export * from source]
    gets the marker [* from source] among its exports and a namespace
    import of the file [A] that [source] resolves to; from then on no
    export of [A] is reported unused, and the marker is never reported
    itself. *)
Theorem wildcard_reexport_uses_every_export (files : list str)
    (projectPath B content source : str) :
  In B files ->
  readFileSync pf B = Some content ->
  reexportsAll content source ->
  let g := buildExportGraph pf files projectPath in
  let A := Resolver.resolveImportPath pf B source in
  (exists names, map_get (exports g) B = Some names
                 /\ In (wildcardMarker source) names)
  /\ (exists recs, map_get (imports g) B = Some recs
                   /\ In {| importedName := lit "*"; sourceFile := A |} recs)
  /\ forall u, In u (findUnusedExports pf g files projectPath) ->
               ue_file u <> A /\ ue_exportName u <> wildcardMarker source.
Proof.
  intros Hin Hread Hre g A.
  destruct (build_entry pf files projectPath B content Hin Hread) as [He Hi].
  destruct (extractFile_reexportsAll B content source Hre) as [H1 H2].
  fold g in He, Hi. fold A in H2.
  repeat split; eauto.
  - intros Ef.
    apply findUnusedExports_In in H as (ns & _ & _ & _ & Hn & _).
    apply Hn. right. left.
    exists B, (snd (extractFile pf B content)),
      {| importedName := lit "*"; sourceFile := A |}.
    repeat split; auto. now apply map_get_In.
  - intros En.
    apply findUnusedExports_In in H as (ns & _ & _ & Hs & _).
    rewrite En in Hs. discriminate.
Qed.

End GraphMore.
End GraphMore.

(* ================================================================== *)
(** * The reported cycles are cycles *)
(* ================================================================== *)

Module CycleMore.
Import CycleFacts GraphFacts.

(** Each element of the list is related to the next one. *)
Fixpoint chain (R : str -> str -> Prop) (l : list str) : Prop :=
  match l with
  | [] => True
  | x :: t => match t with
              | [] => True
              | y :: _ => R x y /\ chain R t
              end
  end.

(** A cycle: distinct files, each related to the next one and the last
    one to the first. *)
Definition closedChain (R : str -> str -> Prop) (c : list str) : Prop :=
  exists first rest,
    c = first :: rest /\ NoDup c /\ chain R (c ++ [first]).

Lemma chain_mono (R Q : str -> str -> Prop) l :
  (forall x y, R x y -> Q x y) -> chain R l -> chain Q l.
Proof.
  intros H. induction l as [|x t IH]; [auto|].
  destruct t as [|y t']; [auto|]. intros [H1 H2]. split; auto.
Qed.

Lemma chain_snoc R l x :
  chain R l -> (l = [] \/ R (last l []) x) -> chain R (l ++ [x]).
Proof.
  induction l as [|a t IH]; intros Hc Hl; [exact I|].
  destruct t as [|b t'].
  - destruct Hl as [Hl|Hl]; [discriminate|]. simpl in *. auto.
  - destruct Hc as [Hab Hc]. split; [exact Hab|].
    apply IH; [exact Hc|]. right.
    destruct Hl as [Hl|Hl]; [discriminate|exact Hl].
Qed.

Lemma chain_tail R x l : chain R (x :: l) -> chain R l.
Proof. destruct l; simpl; tauto. Qed.

Lemma chain_skipn R i : forall l, chain R l -> chain R (skipn i l).
Proof.
  induction i as [|i IH]; intros l H; [exact H|].
  destruct l as [|x l]; [exact I|]. apply IH. eapply chain_tail, H.
Qed.

Lemma last_skipn (i : nat) : forall (l : list str) d,
  i < length l -> last (skipn i l) d = last l d.
Proof.
  induction i as [|i IH]; intros l d H; [reflexivity|].
  destruct l as [|x l]; [simpl in H; lia|].
  simpl in H. cbn [skipn]. rewrite IH by lia.
  destruct l; [simpl in H; lia|reflexivity].
Qed.

Lemma indexOf_In l x :
  In x l -> exists i, indexOf l x = Some i /\ nth_error l i = Some x.
Proof.
  induction l as [|y l IH]; [intros []|]. intros H. cbn [indexOf].
  destruct (str_eqb y x) eqn:E.
  - apply str_eqb_eq in E. subst y. exists 0. split; reflexivity.
  - destruct H as [->|H]; [now rewrite str_eqb_refl in E|].
    destruct (IH H) as (i & -> & Hn). exists (S i). split; auto.
Qed.

Lemma indexOf_nth l x : forall i,
  indexOf l x = Some i -> nth_error l i = Some x.
Proof.
  induction l as [|y l IH]; intros i; cbn [indexOf]; [discriminate|].
  destruct (str_eqb y x) eqn:E.
  - apply str_eqb_eq in E. subst y. now intros [= <-].
  - destruct (indexOf l x) as [j|]; [|discriminate].
    intros [= <-]. now apply IH.
Qed.

Lemma skipn_nth_error (l : list str) : forall i x,
  nth_error l i = Some x -> skipn i l = x :: skipn (S i) l.
Proof.
  induction l as [|y l IH]; intros [|i] x H; try discriminate.
  - now injection H as ->.
  - cbn [skipn nth_error] in *. now apply IH.
Qed.

Section Traversal.
Variable pf : Platform.
Variable projectPath : str.
Variable files : list str.
Variable adjacency : list (str * list str).

Hypothesis adjacency_local :
  forall node deps dep,
    map_get adjacency node = Some deps -> In dep deps -> In dep files.

(** [adjacency.get(x)] holds [y]. *)
Definition edge (x y : str) : Prop :=
  exists deps, map_get adjacency x = Some deps /\ In y deps.

Definition real (c : list str) : Prop :=
  closedChain edge c /\ incl c files.

Lemma foundCycle_real node st :
  stack_ok files st -> chain edge (path st) ->
  edge (last (path st) []) node ->
  Forall real (cycles st) ->
  Forall real (cycles (foundCycle pf projectPath node st)).
Proof.
  intros (Hn & Hi & _) Hc He Hreal. unfold foundCycle.
  destruct (indexOf (path st) node) as [i|] eqn:Ei; [|exact Hreal].
  destruct (negb _); [|exact Hreal]. cbn [cycles].
  apply Forall_app. split; [exact Hreal|]. constructor; [|constructor].
  pose proof (indexOf_nth _ _ _ Ei) as Hnth.
  pose proof (skipn_nth_error _ _ _ Hnth) as Hs.
  assert (Hlt : i < length (path st))
    by (apply nth_error_Some; congruence).
  split.
  - exists node, (skipn (S i) (path st)). split; [exact Hs|]. split.
    + rewrite <- (firstn_skipn i (path st)) in Hn.
      now apply NoDup_app_remove_l in Hn.
    + apply chain_snoc; [now apply chain_skipn|]. right.
      now rewrite last_skipn.
  - intros x Hx. apply Hi. rewrite <- (firstn_skipn i (path st)).
    apply in_app_iff. now right.
Qed.

Lemma dfs_real fuel : forall node st st',
  stack_ok files st -> chain edge (path st) -> In node files ->
  (path st = [] \/ edge (last (path st) []) node) ->
  dfs pf adjacency projectPath fuel node st = Some st' ->
  same_stack st st'
  /\ (Forall real (cycles st) -> Forall real (cycles st')).
Proof.
  induction fuel as [|fuel IH]; intros node st st' Hok Hc Hnode Hpre E;
    [discriminate|].
  rewrite dfs_unfold in E.
  destruct (set_has (inStack st) node) eqn:Hin.
  { injection E as <-. split; [apply foundCycle_stack|].
    apply foundCycle_real; auto.
    destruct Hpre as [Hp|Hp]; [|exact Hp].
    destruct Hok as (_ & _ & Hs). apply Hs in Hin. rewrite Hp in Hin.
    destruct Hin. }
  destruct (set_has (visited st) node).
  { injection E as <-. split; [split; auto|auto]. }
  pose proof (enter_ok files node st Hok Hnode Hin) as Hok1.
  assert (Hc1 : chain edge (path (enter node st)))
    by (cbn [enter path]; now apply chain_snoc).
  set (deps := match map_get adjacency node with
               | Some d => d | None => [] end) in *.
  assert (Hdeps : forall dep, In dep deps -> edge node dep).
  { unfold deps, edge. destruct (map_get adjacency node) as [d|];
      [eauto|intros ? []]. }
  assert (Hloop : forall ds s s',
    (forall dep, In dep ds -> edge node dep) ->
    same_stack (enter node st) s ->
    depsLoop pf projectPath adjacency fuel ds s = Some s' ->
    same_stack (enter node st) s'
    /\ (Forall real (cycles s) -> Forall real (cycles s'))).
  { induction ds as [|dep ds IHd]; intros s s' Hd Hs Es.
    - injection Es as <-. auto.
    - unfold depsLoop in Es. cbn [fold_left] in Es.
      destruct (dfs pf adjacency projectPath fuel dep s) as [s1|] eqn:E1;
        [|now rewrite depsLoop_none in Es].
      assert (Hedge : edge node dep) by (apply Hd; now left).
      destruct (IH dep s s1) as [H1 H2]; auto.
      + eapply same_stack_ok; eassumption.
      + destruct Hs as [-> _]. exact Hc1.
      + destruct Hedge as (d & Hg & Hi). eapply adjacency_local; eassumption.
      + right. destruct Hs as [-> _]. cbn [enter path].
        now rewrite last_last.
      + destruct (IHd s1 s') as [H3 H4]; auto.
        * intros d Hin'. apply Hd. now right.
        * eapply same_stack_trans; eassumption. }
  destruct (depsLoop pf projectPath adjacency fuel deps (enter node st))
    as [s1|] eqn:E1; [|discriminate].
  injection E as <-.
  destruct (Hloop deps (enter node st) s1 Hdeps) as [H1 H2]; auto.
  { split; auto. }
  split; [now apply leave_stack|exact H2].
Qed.

Lemma dfsRoots_real fuel : forall roots st st',
  incl roots files -> stack_ok files st -> path st = [] ->
  dfsRoots pf adjacency projectPath fuel roots st = Some st' ->
  Forall real (cycles st) -> Forall real (cycles st').
Proof.
  induction roots as [|file roots IH]; intros st st' Hincl Hok Hp E Hreal.
  - now injection E as <-.
  - rewrite dfsRoots_cons in E.
    assert (Hincl' : incl roots files)
      by (intros x Hx; apply Hincl; now right).
    destruct (negb (set_has (visited st) file)).
    + assert (Hfresh : freshPath st = st).
      { destruct st; simpl in *. now subst. }
      rewrite Hfresh in E.
      destruct (dfs pf adjacency projectPath fuel file st) as [s1|] eqn:E1;
        [|discriminate].
      cbn [rootsFrom] in E.
      destruct (dfs_real fuel file st s1) as [H1 H2]; auto.
      * rewrite Hp. exact I.
      * apply Hincl. now left.
      * apply (IH s1 st'); auto.
        -- eapply same_stack_ok; eassumption.
        -- destruct H1 as [H1 _]. congruence.
    + cbn [rootsFrom] in E. now apply (IH st st').
Qed.

End Traversal.

(** *** Where there is a cycle, one is reported *)

Section Acyclic.
Variable projectPath : str.
Variable files : list str.
Variable adjacency : list (str * list str).

Hypothesis adjacency_local :
  forall node deps dep,
    map_get adjacency node = Some deps -> In dep deps -> In dep files.

(** In the list, the files that a file imports stand before it. *)
Definition ordered (l : list str) : Prop :=
  forall l1 x l2, l = l1 ++ x :: l2 ->
  forall y, edge adjacency x y -> In y l1.

Lemma ordered_snoc l x :
  ordered l -> (forall y, edge adjacency x y -> In y l) -> ordered (l ++ [x]).
Proof.
  intros Hl Hx l1 z l2 Heq y He.
  destruct l2 as [|w l2] using rev_ind.
  - apply app_inj_tail in Heq as [-> ->]. now apply Hx.
  - clear IHl2. change (l1 ++ z :: l2 ++ [w]) with (l1 ++ (z :: l2) ++ [w])
      in Heq.
    rewrite app_assoc in Heq. apply app_inj_tail in Heq as [-> _].
    eapply Hl; eauto.
Qed.

Lemma ordered_reach l : ordered l ->
  forall x y, clos_trans_1n str (edge adjacency) x y ->
  forall l1 l2, l = l1 ++ x :: l2 -> In y l1.
Proof.
  intros Hl x y H. induction H as [x y He|x z y He Hzy IH]; intros l1 l2 Heq.
  - eapply Hl; eauto.
  - pose proof (Hl _ _ _ Heq _ He) as Hz.
    apply in_split in Hz as (a & b & ->).
    rewrite <- app_assoc in Heq. cbn [app] in Heq.
    apply in_app_iff. left. eapply IH. exact Heq.
Qed.

Lemma ordered_acyclic l : ordered l ->
  forall n l1 x l2, length l1 <= n -> l = l1 ++ x :: l2 ->
  ~ clos_trans_1n str (edge adjacency) x x.
Proof.
  intros Hl. induction n as [|n IH]; intros l1 x l2 Hn Heq Hx.
  - destruct l1; [|simpl in Hn; lia].
    exact (ordered_reach l Hl x x Hx [] l2 Heq).
  - pose proof (ordered_reach l Hl x x Hx l1 l2 Heq) as Hin.
    apply in_split in Hin as (a & b & ->).
    rewrite <- app_assoc in Heq. cbn [app] in Heq.
    apply (IH a x (b ++ x :: l2)); auto.
    rewrite length_app in Hn. simpl in Hn. lia.
Qed.

Lemma chain_reach (R : str -> str -> Prop) l : forall x y,
  chain R (x :: l ++ [y]) -> clos_trans_1n str R x y.
Proof.
  induction l as [|z l IH]; intros x y H.
  - destruct H as [H _]. now constructor.
  - destruct H as [H1 H2]. econstructor 2; [exact H1|]. now apply IH.
Qed.

Lemma reach_local x y :
  clos_trans_1n str (edge adjacency) x y -> In y files.
Proof.
  induction 1 as [x y (d & Hg & Hi)|]; [|assumption].
  eapply adjacency_local; eassumption.
Qed.

Variable pf : Platform.

Lemma nothing_found node st :
  stack_ok files st -> keys_ok pf projectPath st ->
  set_has (inStack st) node = true ->
  cycles (foundCycle pf projectPath node st) <> [].
Proof.
  intros (_ & _ & Hs) [_ Hk] Hin Hnil. apply Hs in Hin.
  apply indexOf_In in Hin as (i & Ei & _).
  unfold foundCycle in Hnil. rewrite Ei in Hnil.
  destruct (set_has (reportedEdges st)
              (edgeKey pf projectPath (skipn i (path st)))) eqn:E;
    cbn [negb cycles] in Hnil.
  - apply Hk in E. rewrite Hnil in E. destruct E.
  - now apply app_eq_nil in Hnil as [_ Hnil].
Qed.

Lemma dfs_same_stack fuel : forall node st st',
  dfs pf adjacency projectPath fuel node st = Some st' -> same_stack st st'.
Proof.
  induction fuel as [|fuel IH]; intros node st st' E; [discriminate|].
  rewrite dfs_unfold in E.
  destruct (set_has (inStack st) node) eqn:Hin.
  { injection E as <-. apply foundCycle_stack. }
  destruct (set_has (visited st) node).
  { injection E as <-. split; auto. }
  assert (Hloop : forall ds s s',
    depsLoop pf projectPath adjacency fuel ds s = Some s' ->
    same_stack s s').
  { induction ds as [|dep ds IHd]; intros s s' Es.
    - injection Es as <-. split; auto.
    - unfold depsLoop in Es. cbn [fold_left] in Es.
      destruct (dfs pf adjacency projectPath fuel dep s) as [s1|] eqn:E1;
        [|now rewrite depsLoop_none in Es].
      eapply same_stack_trans; [eapply IH; exact E1|now apply IHd]. }
  destruct (depsLoop pf projectPath adjacency fuel _ (enter node st))
    as [s1|] eqn:E1; [|discriminate].
  injection E as <-. apply leave_stack; [exact Hin|]. eapply Hloop, E1.
Qed.

Lemma cycles_nil_before st st' :
  advances pf projectPath st st' -> cycles st' = [] -> cycles st = [].
Proof.
  intros [[more Hm] _] H. rewrite Hm in H. now apply app_eq_nil in H.
Qed.

(** What a call that reports nothing leaves behind. *)
Definition settled (roots : list str) (st st' : DfsState) : Prop :=
  incl roots (visited st')
  /\ incl (visited st) (visited st')
  /\ (ordered (visited st) -> ordered (visited st')).

Lemma settled_trans r1 r2 a b c :
  settled r1 a b -> settled r2 b c -> settled (r1 ++ r2) a c.
Proof.
  intros (H1 & H2 & H3) (H4 & H5 & H6). repeat split; auto.
  - intros x Hx. apply in_app_iff in Hx as [Hx|Hx]; auto.
  - intros x Hx. auto.
Qed.

Lemma depsLoop_advances fuel : forall l a b,
  depsLoop pf projectPath adjacency fuel l a = Some b ->
  advances pf projectPath a b.
Proof.
  induction l as [|d l IHl]; intros a b Eab.
  - injection Eab as <-. apply advances_refl.
  - unfold depsLoop in Eab. cbn [fold_left] in Eab.
    destruct (dfs pf adjacency projectPath fuel d a) as [a1|] eqn:Ea;
      [|now rewrite depsLoop_none in Eab].
    eapply advances_trans; [eapply dfs_advances; exact Ea|now apply IHl].
Qed.

Lemma dfs_settled fuel : forall node st st',
  stack_ok files st -> keys_ok pf projectPath st -> In node files ->
  dfs pf adjacency projectPath fuel node st = Some st' ->
  cycles st' = [] -> settled [node] st st'.
Proof.
  induction fuel as [|fuel IH]; intros node st st' Hok Hk Hnode E Hnil;
    [discriminate|].
  rewrite dfs_unfold in E.
  destruct (set_has (inStack st) node) eqn:Hin.
  { injection E as <-. now apply nothing_found in Hnil. }
  destruct (set_has (visited st) node) eqn:Hv.
  { injection E as <-. repeat split; auto using incl_refl.
    intros x [<-|[]]. now apply set_has_In. }
  set (deps := match map_get adjacency node with
               | Some d => d | None => [] end) in *.
  assert (Hdeps : forall y, edge adjacency node y <-> In y deps).
  { unfold deps, edge. destruct (map_get adjacency node) as [d|].
    - split; [intros (d' & [= <-] & H); exact H|eauto].
    - split; [intros (d' & H & _); discriminate|intros []]. }
  assert (Hloop : forall ds s s',
    (forall d, In d ds -> In d files) ->
    stack_ok files s -> keys_ok pf projectPath s ->
    depsLoop pf projectPath adjacency fuel ds s = Some s' ->
    cycles s' = [] -> settled ds s s').
  { induction ds as [|dep ds IHd]; intros s s' Hd Hs Hks Es Hn.
    - injection Es as <-. repeat split; auto using incl_refl.
      intros x [].
    - unfold depsLoop in Es. cbn [fold_left] in Es.
      destruct (dfs pf adjacency projectPath fuel dep s) as [s1|] eqn:E1;
        [|now rewrite depsLoop_none in Es].
      pose proof (dfs_advances pf projectPath adjacency fuel _ _ _ E1) as Ha.
      assert (Hk1 : keys_ok pf projectPath s1) by now apply Ha.
      assert (Hs1 : stack_ok files s1).
      { eapply same_stack_ok; [exact Hs|]. eapply dfs_same_stack, E1. }
      assert (Hn1 : cycles s1 = []).
      { eapply cycles_nil_before; [eapply depsLoop_advances; exact Es|].
        exact Hn. }
      apply (settled_trans [dep] ds s s1 s').
      + apply IH; auto. apply Hd. now left.
      + apply IHd; auto. intros d Hin'. apply Hd. now right. }
  destruct (depsLoop pf projectPath adjacency fuel deps (enter node st))
    as [s1|] eqn:E1; [|discriminate].
  injection E as <-. cbn [leave cycles] in Hnil.
  destruct (Hloop deps (enter node st) s1) as (H1 & H2 & H3); auto.
  { intros d Hd. apply Hdeps in Hd as (ds & Hg & Hi).
    eapply adjacency_local; eassumption. }
  { now apply enter_ok. }
  cbn [enter visited] in H2, H3. unfold settled. cbn [leave visited].
  repeat split.
  - intros x [<-|[]]. apply set_add_In. now right.
  - intros x Hx. apply set_add_In. left. now apply H2.
  - intros Ho. specialize (H3 Ho). unfold set_add.
    destruct (set_has (visited s1) node); [exact H3|].
    apply ordered_snoc; [exact H3|].
    intros y Hy. apply H1. now apply Hdeps.
Qed.

Lemma dfsRoots_settled fuel : forall roots st st',
  incl roots files -> stack_ok files st -> path st = [] ->
  keys_ok pf projectPath st ->
  dfsRoots pf adjacency projectPath fuel roots st = Some st' ->
  cycles st' = [] -> settled roots st st'.
Proof.
  induction roots as [|file roots IH]; intros st st' Hincl Hok Hp Hk E Hnil.
  - injection E as <-. repeat split; auto using incl_refl. intros x [].
  - rewrite dfsRoots_cons in E.
    assert (Hincl' : incl roots files)
      by (intros x Hx; apply Hincl; now right).
    destruct (set_has (visited st) file) eqn:Hv; cbn [negb] in E.
    + cbn [rootsFrom] in E.
      destruct (IH st st') as (H1 & H2 & H3); auto.
      repeat split; auto.
      intros x [<-|Hx]; auto. apply H2. now apply set_has_In.
    + assert (Hfresh : freshPath st = st).
      { destruct st; simpl in *. now subst. }
      rewrite Hfresh in E.
      destruct (dfs pf adjacency projectPath fuel file st) as [s1|] eqn:E1;
        [|discriminate].
      cbn [rootsFrom] in E.
      pose proof (dfs_advances pf projectPath adjacency fuel _ _ _ E1) as Ha.
      pose proof (dfs_same_stack fuel _ _ _ E1) as Hss.
      assert (Hn1 : cycles s1 = []).
      { eapply cycles_nil_before; [|exact Hnil].
        eapply dfsRoots_advances. exact E. }
      apply (settled_trans [file] roots st s1 st').
      * apply (dfs_settled fuel); auto. apply Hincl. now left.
      * apply IH; auto.
        -- eapply same_stack_ok; eassumption.
        -- destruct Hss as [Hss _]. congruence.
        -- now apply Ha.
Qed.

(** A traversal from every file that reports nothing has met no cycle. *)
Lemma silent_traversal_acyclic fuel st' c :
  dfsRoots pf adjacency projectPath fuel files
    {| cycles := []; visited := []; inStack := [];
       reportedEdges := []; path := [] |} = Some st' ->
  cycles st' = [] ->
  ~ (exists first rest, c = first :: rest
                        /\ chain (edge adjacency) (c ++ [first])).
Proof.
  intros E Hnil (first & rest & -> & Hc).
  apply chain_reach in Hc.
  apply dfsRoots_settled in E; auto using incl_refl.
  - destruct E as (H1 & _ & H3).
    pose proof (reach_local _ _ Hc) as Hf. apply H1 in Hf.
    apply in_split in Hf as (l1 & l2 & Heq).
    refine (ordered_acyclic _ (H3 _) (length l1) l1 first l2 _ Heq Hc);
      [|lia].
    cbn [visited]. intros a x b Hab. now destruct a.
  - repeat split; simpl; try constructor; try discriminate; try contradiction.
    intros x [].
  - split; simpl; [constructor|]. intros k. split; [discriminate|intros []].
Qed.

End Acyclic.

Section Detector.
Variable pf : Platform.

(** Some import record of [x] in the graph resolves to [y]. *)
Definition importsFile (g : ExportGraph) (x y : str) : Prop :=
  exists records r,
    In (x, records) (imports g) /\ In r records /\ sourceFile r = y.

Lemma localDeps_source files recs dep :
  In dep (localDeps files recs) ->
  exists r, In r recs /\ sourceFile r = dep.
Proof.
  unfold localDeps.
  assert (H : forall acc,
    (forall d, In d acc -> exists r, In r recs /\ sourceFile r = d) ->
    forall l, incl l recs ->
    forall d, In d (fold_left
      (fun deps r => if set_has files (sourceFile r)
                     then set_add deps (sourceFile r) else deps) l acc)
    -> exists r, In r recs /\ sourceFile r = d).
  { intros acc Hacc l. revert acc Hacc.
    induction l as [|r l IH]; intros acc Hacc Hl d; cbn [fold_left];
      [apply Hacc|].
    apply IH; [|intros x Hx; apply Hl; now right].
    intros d'. destruct (set_has files (sourceFile r)); [|apply Hacc].
    rewrite set_add_In. intros [H| ->]; [now apply Hacc|].
    exists r. split; [apply Hl; now left|reflexivity]. }
  apply (H [] (fun d (F : In d []) => match F with end) recs (incl_refl _)).
Qed.

Lemma adjacency_edge g files x y :
  edge (buildAdjacency g files) x y -> importsFile g x y.
Proof.
  intros (deps & Hget & Hin). apply map_get_In in Hget.
  unfold buildAdjacency in Hget.
  assert (H : forall entries acc,
    incl entries (imports g) ->
    (forall n ds, In (n, ds) acc ->
       exists recs, In (n, recs) (imports g) /\ ds = localDeps files recs) ->
    forall n ds, In (n, ds) (fold_left
      (fun adj entry => map_set adj (fst entry) (localDeps files (snd entry)))
      entries acc) ->
    exists recs, In (n, recs) (imports g) /\ ds = localDeps files recs).
  { induction entries as [|e entries IH]; intros acc He Hacc n ds;
      cbn [fold_left]; [apply Hacc|].
    apply IH; [intros z Hz; apply He; now right|].
    intros n' ds' Hin'. apply map_set_In in Hin' as [Hin'|[-> ->]].
    - now apply Hacc.
    - exists (snd e). split; [|reflexivity].
      destruct e. apply He. now left. }
  destruct (H (imports g) [] (incl_refl _)
              (fun n ds (F : In (n, ds) []) => match F with end)
              x deps Hget) as (recs & Hrecs & ->).
  apply localDeps_source in Hin as (r & Hr & Hs).
  now exists recs, r.
Qed.

Lemma cycles_real g files projectPath cs :
  findCircularDependencies pf g files projectPath = Some cs ->
  Forall (fun c => closedChain (importsFile g) c /\ incl c files) cs.
Proof.
  intros E. unfold findCircularDependencies in E.
  destruct (dfsRoots pf _ _ _ _ _) as [st'|] eqn:Er; [|discriminate].
  injection E as <-.
  apply (dfsRoots_real pf projectPath files (buildAdjacency g files)
           (buildAdjacency_local g files)) in Er.
  - eapply Forall_impl; [|exact Er].
    intros c [(first & rest & Hc & Hn & Hch) Hi]. split; [|exact Hi].
    exists first, rest. repeat split; auto.
    eapply chain_mono; [|exact Hch]. apply adjacency_edge.
  - apply incl_refl.
  - repeat split; simpl; try constructor; try discriminate; try contradiction.
    intros x [].
  - reflexivity.
  - constructor.
Qed.

(** X13: the cycle detector returns, and every cycle that it reports is
    a cycle of the import graph: its members are distinct files of the
    list, each one has an import record that resolves to the next one,
    and the last one has an import record that resolves to the first. *)
Theorem reported_cycles_are_import_cycles (g : ExportGraph)
    (files : list str) (projectPath : str) :
  exists cs,
    findCircularDependencies pf g files projectPath = Some cs
    /\ Forall (fun c => closedChain (importsFile g) c /\ incl c files) cs.
Proof.
  destruct (findCircularDependencies_total pf g files projectPath) as [cs E].
  exists cs. split; [exact E|]. exact (cycles_real g files projectPath cs E).
Qed.

(** *** No cycle reported means no cycle *)

Lemma localDeps_In files recs r :
  In r recs -> In (sourceFile r) files ->
  In (sourceFile r) (localDeps files recs).
Proof.
  intros Hr Hf. unfold localDeps.
  apply (FallbackFacts.fold_left_reach _ _
           (fun deps r => if set_has files (sourceFile r)
                          then set_add deps (sourceFile r) else deps)
           (fun deps => In (sourceFile r) deps) recs r); auto.
  - intros a. rewrite (proj2 (set_has_In files (sourceFile r)) Hf).
    apply set_add_In. now right.
  - intros a b Ha. destruct (set_has files (sourceFile b)); [|exact Ha].
    apply set_add_In. now left.
Qed.

Lemma buildAdjacency_lookup g files x recs :
  NoDup (map fst (imports g)) -> In (x, recs) (imports g) ->
  map_get (buildAdjacency g files) x = Some (localDeps files recs).
Proof.
  unfold buildAdjacency.
  assert (Hother : forall (entries : list (str * list ImportRecord)) acc,
    ~ In x (map fst entries) ->
    map_get (fold_left
      (fun adj entry => map_set adj (fst entry) (localDeps files (snd entry)))
      entries acc) x = map_get acc x).
  { induction entries as [|e entries IH]; intros acc Hx; cbn [fold_left];
      [reflexivity|].
    rewrite IH by (intros H; apply Hx; now right).
    apply map_get_set_other. intros ->. apply Hx. now left. }
  generalize (@nil (str * list str)).
  induction (imports g) as [|e entries IH]; intros acc Hnd Hin;
    [destruct Hin|].
  cbn [fold_left]. inversion Hnd as [|? ? Hk Hnd']; subst.
  destruct Hin as [->|Hin].
  - cbn [fst snd] in *. rewrite Hother by exact Hk.
    apply map_get_set_same.
  - now apply IH.
Qed.

(** [x] has an import record that resolves to [y], a file of the list. *)
Definition importsLocal (g : ExportGraph) (files : list str) (x y : str)
    : Prop :=
  importsFile g x y /\ In y files.

Lemma edge_of_import g files x y :
  NoDup (map fst (imports g)) ->
  importsLocal g files x y -> edge (buildAdjacency g files) x y.
Proof.
  intros Hnd [(recs & r & Hrecs & Hr & <-) Hf].
  exists (localDeps files recs). split.
  - now apply buildAdjacency_lookup.
  - now apply localDeps_In.
Qed.

Lemma chain_and (R : str -> str -> Prop) (P : str -> Prop) l :
  chain R l -> Forall P l -> chain (fun x y => R x y /\ P y) l.
Proof.
  induction l as [|x t IH]; [auto|].
  destruct t as [|y t']; [auto|].
  intros [H1 H2] Hf. inversion Hf as [|? ? _ Ht]; subst.
  pose proof Ht as Ht'. inversion Ht' as [|? ? Hy _]; subst.
  split; [split; assumption|now apply IH].
Qed.

(** A closed walk: each file is related to the next one and the last one
    to the first. *)
Definition closedWalk (R : str -> str -> Prop) (c : list str) : Prop :=
  exists first rest, c = first :: rest /\ chain R (c ++ [first]).

(** X14: on the graph built from the files, the detector reports no
    cycle exactly when the files have no import cycle: no closed walk
    along import records that resolve to files of the list. *)
Theorem no_cycle_reported_iff_acyclic (files : list str)
    (projectPath : str) :
  let g := buildExportGraph pf files projectPath in
  exists cs,
    findCircularDependencies pf g files projectPath = Some cs
    /\ (cs = [] <-> ~ exists c, closedWalk (importsLocal g files) c).
Proof.
  intros g.
  destruct (findCircularDependencies_total pf g files projectPath) as [cs E].
  exists cs. split; [exact E|]. split.
  - intros -> (c & first & rest & Hc & Hch).
    unfold findCircularDependencies in E.
    destruct (dfsRoots pf _ _ _ _ _) as [st'|] eqn:Er; [|discriminate].
    injection E as E.
    apply (silent_traversal_acyclic projectPath files
             (buildAdjacency g files) (buildAdjacency_local g files)
             pf _ st' c Er E).
    exists first, rest. split; [exact Hc|].
    eapply chain_mono; [|exact Hch].
    intros x y. apply edge_of_import.
    destruct (GraphMore.graph_keys_eq pf files projectPath) as [_ Hk].
    unfold g. rewrite Hk. apply GraphMore.readFiles_NoDup. constructor.
  - intros Hno. destruct cs as [|c cs]; [reflexivity|].
    exfalso. apply Hno. exists c.
    apply cycles_real in E. inversion E as [|? ? [Hreal Hi] _]; subst.
    clear E.
    destruct Hreal as (first & rest & -> & _ & Hch).
    exists first, rest. split; [reflexivity|].
    apply chain_and; [exact Hch|].
    apply Forall_forall. intros y Hy. apply in_app_iff in Hy as [Hy|[<-|[]]].
    + now apply Hi.
    + apply Hi. now left.
Qed.

(** *** The issues of the analysis *)

(** The issue for an unused export: of low severity, with an impact of
    500, at the line that [getExportLine] finds. *)
Definition unusedExportFinding (projectPath : str) (u : UnusedExport)
    : TreeShakingIssue :=
  {| i_type := UnusedExportIssue;
     i_severity := Low;
     i_file := relative pf projectPath (ue_file u);
     i_line := Some (getExportLine pf (ue_file u) (ue_exportName u));
     i_pattern := lit "export " ++ ue_exportName u;
     i_estimatedImpact := 500 |}.

(** The issue for a cycle: named after its first file, without a line,
    with an impact of 2000 for each of its files, of high severity for
    up to two files and critical for more. *)
Definition cycleFinding (projectPath : str) (cycle : list str)
    : TreeShakingIssue :=
  {| i_type := CircularDependencyIssue;
     i_severity := if length cycle <=? 2 then High else Critical;
     i_file := relative pf projectPath (hd [] cycle);
     i_line := None;
     i_pattern := lit "circular: " ++ showNat (length cycle) ++ lit " files";
     i_estimatedImpact := length cycle * 2000 |}.

(** The unused exports that are reported: those of the files that are no
    entry points. *)
Definition reportedUnused (files : list str) (projectPath : str)
    : list UnusedExport :=
  filter (fun u => negb (isEntryPoint pf (ue_file u) projectPath))
    (findUnusedExports pf (buildExportGraph pf files projectPath)
       files projectPath).

Lemma unusedExportIssues_eq projectPath us :
  unusedExportIssues pf projectPath us
  = map (unusedIssue pf projectPath)
      (filter (fun u => negb (isEntryPoint pf (ue_file u) projectPath)) us).
Proof.
  unfold unusedExportIssues. cbv zeta.
  assert (H : forall acc,
    fold_left
      (fun issues u =>
         if isEntryPoint pf (ue_file u) projectPath then issues
         else issues ++ [unusedIssue pf projectPath u]) us acc
    = acc ++ map (unusedIssue pf projectPath)
               (filter (fun u => negb (isEntryPoint pf (ue_file u) projectPath))
                  us)).
  { induction us as [|u us IH]; intros acc.
    - cbn [fold_left filter map]. now rewrite app_nil_r.
    - cbn [fold_left filter].
      destruct (isEntryPoint pf (ue_file u) projectPath); cbn [negb].
      + apply IH.
      + rewrite IH. cbn [map]. now rewrite <- app_assoc. }
  exact (H []).
Qed.

(** X21: the analysis returns one issue for each unused export of a file
    that is no entry point, in the order of the findings: of low
    severity, with an impact of 500, the line that [getExportLine] finds
    and the pattern [export] with the name; followed by one issue for
    each cycle that the detector reports, in its order: named after the
    first file of the cycle, without a line, with an impact of 2000 for
    each file of the cycle, of high severity for up to two files and
    critical for more; a cycle has at least one file and at most as many
    as are analyzed. *)
Theorem issues_are_unused_exports_then_cycles (files : list str)
    (projectPath : str) :
  exists cs,
    findCircularDependencies pf (buildExportGraph pf files projectPath)
      files projectPath = Some cs
    /\ analyzeUnusedExports pf files projectPath
       = Some (map (unusedExportFinding projectPath)
                 (reportedUnused files projectPath)
               ++ map (cycleFinding projectPath) cs)
    /\ Forall (fun c => 1 <= length c <= length files) cs.
Proof.
  destruct (analyzeUnusedExports_total pf files projectPath)
    as (cs & Ec & E).
  exists cs. split; [exact Ec|].
  pose proof (cycles_real _ _ _ _ Ec) as Hreal.
  split.
  - rewrite E, unusedExportIssues_eq. f_equal. f_equal.
    + apply map_ext_in. intros u Hu. apply filter_In in Hu as [Hu _].
      apply findUnusedExports_In in Hu as (_ & _ & _ & _ & _ & Hl).
      unfold unusedIssue, unusedExportFinding. now rewrite Hl.
    + apply map_ext_in. intros c Hc.
      apply (proj1 (Forall_forall _ _) Hreal) in Hc
        as [(first & rest & -> & _) _].
      unfold cycleIssue, cycleFinding. cbv zeta. now rewrite length_map.
  - eapply Forall_impl; [|exact Hreal].
    intros c [(first & rest & -> & Hn & _) Hincl].
    split; [simpl; lia|now apply NoDup_incl_length].
Qed.

End Detector.
End CycleMore.

(* ================================================================== *)
(** * One finding for each member set *)
(* ================================================================== *)

Module CycleKeys.
Import CycleFacts GraphFacts CycleMore.

(** A path without the separator of the canonical key. *)
Definition barless (x : str) : Prop := ~ In "|" x.

Lemma barless_app_inj (x : str) : forall y r1 r2,
  barless x -> barless y ->
  x ++ "|" :: r1 = y ++ "|" :: r2 -> x = y /\ r1 = r2.
Proof.
  unfold barless.
  induction x as [|a x IH]; intros [|b y] r1 r2 Hx Hy E; cbn [app] in E.
  - injection E as ->. auto.
  - injection E as <- _. exfalso. apply Hy. now left.
  - injection E as -> _. exfalso. apply Hx. now left.
  - injection E as -> E.
    destruct (IH y r1 r2) as [-> ->]; auto.
    + intros H. apply Hx. now right.
    + intros H. apply Hy. now right.
Qed.

Lemma joinWith_cons x y l :
  joinWith (lit "|") (x :: y :: l) = x ++ "|" :: joinWith (lit "|") (y :: l).
Proof. reflexivity. Qed.

(** The key separates the lists of paths that hold no separator. *)
Lemma joinWith_inj l1 : forall l2,
  l1 <> [] -> l2 <> [] -> Forall barless l1 -> Forall barless l2 ->
  joinWith (lit "|") l1 = joinWith (lit "|") l2 -> l1 = l2.
Proof.
  induction l1 as [|x l1 IH]; intros [|y l2] H1 H2 F1 F2 E; try congruence.
  inversion F1 as [|? ? Hx F1']; inversion F2 as [|? ? Hy F2']; subst.
  destruct l1 as [|x' l1], l2 as [|y' l2].
  - cbn [joinWith] in E. now subst.
  - rewrite joinWith_cons in E. exfalso. apply Hx.
    change (joinWith (lit "|") [x]) with x in E.
    rewrite E. apply in_app_iff. right. now left.
  - rewrite joinWith_cons in E. exfalso. apply Hy.
    change (joinWith (lit "|") [y]) with y in E.
    rewrite <- E. apply in_app_iff. right. now left.
  - rewrite !joinWith_cons in E.
    apply barless_app_inj in E as [-> E]; auto.
    f_equal. apply IH; auto; discriminate.
Qed.

Lemma map_inj_on (A B : Type) (f : A -> B) (l1 : list A) : forall l2,
  (forall x y, In x l1 -> In y l2 -> f x = f y -> x = y) ->
  map f l1 = map f l2 -> l1 = l2.
Proof.
  induction l1 as [|a l1 IH]; intros [|b l2] Hf E; try discriminate;
    [reflexivity|].
  injection E as E1 E2. f_equal.
  - apply Hf; auto; now left.
  - apply IH; auto. intros x y Hx Hy. apply Hf; now right.
Qed.

Section Keys.
Variable pf : Platform.
Variable projectPath : str.
Variable files : list str.

(** The paths of the files relative to the project are pairwise distinct
    and hold no separator. *)
Definition separable : Prop :=
  (forall x, In x files -> barless (relative pf projectPath x))
  /\ (forall x y, In x files -> In y files ->
        relative pf projectPath x = relative pf projectPath y -> x = y).

(** In a separable project, two cycles have the same key only if they
    have the same members. *)
Lemma edgeKey_separates c1 c2 :
  separable -> c1 <> [] -> c2 <> [] -> incl c1 files -> incl c2 files ->
  edgeKey pf projectPath c1 = edgeKey pf projectPath c2 ->
  Permutation c1 c2.
Proof.
  intros [Hbar Hinj] H1 H2 I1 I2 E. unfold edgeKey in E.
  assert (Hsorted : forall c, c <> [] -> incl c files ->
    sortStrings (map (relative pf projectPath) c) <> []
    /\ Forall barless (sortStrings (map (relative pf projectPath) c))).
  { intros c Hc Hi. split.
    - intros Hnil.
      pose proof (SortFacts.sortStrings_perm
                    (map (relative pf projectPath) c)) as Hp.
      rewrite Hnil in Hp. apply Permutation_nil in Hp.
      destruct c; [congruence|discriminate].
    - apply Forall_forall. intros x Hx.
      apply (Permutation_in _ (SortFacts.sortStrings_perm _)) in Hx.
      apply in_map_iff in Hx as (f & <- & Hf). apply Hbar, Hi, Hf. }
  destruct (Hsorted c1 H1 I1) as [N1 B1].
  destruct (Hsorted c2 H2 I2) as [N2 B2].
  apply joinWith_inj in E; auto.
  assert (Hp : Permutation (map (relative pf projectPath) c1)
                 (map (relative pf projectPath) c2)).
  { rewrite <- (SortFacts.sortStrings_perm (map _ c1)), E.
    apply SortFacts.sortStrings_perm. }
  apply Permutation_map_inv in Hp as (l3 & Hm & Hp).
  apply map_inj_on in Hm.
  - subst l3. now symmetry.
  - intros x y Hx Hy. apply Hinj; [now apply I1|].
    apply I2. apply (Permutation_in _ (Permutation_sym Hp)), Hy.
Qed.

(** What the traversal keeps: the keys reported are those of the cycles
    reported, the stack holds distinct files of the list, and every
    reported cycle holds files of the list. *)
Definition inv (st : DfsState) : Prop :=
  keys_ok pf projectPath st
  /\ stack_ok files st
  /\ Forall (fun c => c <> [] /\ incl c files) (cycles st).

Lemma found_in_files node st i :
  stack_ok files st -> indexOf (path st) node = Some i ->
  skipn i (path st) <> [] /\ incl (skipn i (path st)) files.
Proof.
  intros (_ & Hi & _) Ei. apply indexOf_nth in Ei.
  rewrite (skipn_nth_error _ _ _ Ei). split; [discriminate|].
  rewrite <- (skipn_nth_error _ _ _ Ei).
  intros x Hx. apply Hi. rewrite <- (firstn_skipn i (path st)).
  apply in_app_iff. now right.
Qed.

Lemma foundCycle_inv node st : inv st -> inv (foundCycle pf projectPath node st).
Proof.
  intros (Hk & Hs & Hc). split; [now apply foundCycle_keys|].
  split; [eapply same_stack_ok; [exact Hs|apply foundCycle_stack]|].
  unfold foundCycle. destruct (indexOf (path st) node) as [i|] eqn:Ei;
    [|exact Hc].
  destruct (negb _); [|exact Hc]. cbn [cycles].
  apply Forall_app. split; [exact Hc|]. constructor; [|constructor].
  now apply found_in_files with (node := node).
Qed.

(** A cycle found on the stack is pushed exactly when no reported cycle
    has its members. *)
Lemma foundCycle_once node st i :
  separable -> inv st -> indexOf (path st) node = Some i ->
  let c := skipn i (path st) in
  ((exists c', In c' (cycles st) /\ Permutation c' c) ->
   foundCycle pf projectPath node st = st)
  /\ ((forall c', In c' (cycles st) -> ~ Permutation c' c) ->
      cycles (foundCycle pf projectPath node st) = cycles st ++ [c]).
Proof.
  intros Hsep ([_ Hk] & Hs & Hc) Ei c.
  destruct (found_in_files node st i Hs Ei) as [Hne Hin]. fold c in Hne, Hin.
  unfold foundCycle. rewrite Ei. fold c. split.
  - intros (c' & Hc' & Hp).
    assert (E : set_has (reportedEdges st) (edgeKey pf projectPath c) = true).
    { apply Hk. rewrite <- (edgeKey_permutation pf projectPath c' c Hp).
      now apply in_map. }
    now rewrite E.
  - intros Hnew.
    destruct (set_has (reportedEdges st) (edgeKey pf projectPath c)) eqn:E;
      [|reflexivity].
    exfalso. apply Hk, in_map_iff in E as (c' & Ek & Hc').
    apply (Hnew c' Hc').
    pose proof (proj1 (Forall_forall _ _) Hc c' Hc') as [Hne' Hin'].
    now apply edgeKey_separates.
Qed.

Variable adjacency : list (str * list str).

Hypothesis adjacency_local :
  forall node deps dep,
    map_get adjacency node = Some deps -> In dep deps -> In dep files.

Lemma enter_inv node st :
  inv st -> In node files -> set_has (inStack st) node = false ->
  inv (enter node st).
Proof.
  intros (Hk & Hs & Hc) Hn Hi. split; [exact Hk|].
  split; [now apply enter_ok|exact Hc].
Qed.

Lemma dfs_inv fuel : forall node st st',
  inv st -> In node files ->
  dfs pf adjacency projectPath fuel node st = Some st' -> inv st'.
Proof.
  induction fuel as [|fuel IH]; intros node st st' Hinv Hnode E;
    [discriminate|].
  rewrite dfs_unfold in E.
  destruct (set_has (inStack st) node) eqn:Hin.
  { injection E as <-. now apply foundCycle_inv. }
  destruct (set_has (visited st) node) eqn:Hv.
  { now injection E as <-. }
  assert (Hloop : forall ds s s',
    (forall d, In d ds -> In d files) -> inv s ->
    depsLoop pf projectPath adjacency fuel ds s = Some s' -> inv s').
  { induction ds as [|dep ds IHd]; intros s s' Hd Hs Es.
    - now injection Es as <-.
    - unfold depsLoop in Es. cbn [fold_left] in Es.
      destruct (dfs pf adjacency projectPath fuel dep s) as [s1|] eqn:E1;
        [|now rewrite depsLoop_none in Es].
      apply (IHd s1 s'); auto.
      + intros d Hd'. apply Hd. now right.
      + apply (IH dep s s1); auto. apply Hd. now left. }
  destruct (depsLoop pf projectPath adjacency fuel _ (enter node st))
    as [s1|] eqn:E1; [|discriminate].
  injection E as <-.
  assert (Hss : same_stack st (leave node s1)).
  { eapply dfs_same_stack with (fuel := S fuel) (node := node).
    rewrite dfs_unfold, Hin, Hv, E1. reflexivity. }
  apply Hloop in E1.
  - destruct E1 as (Hk & Hs & Hc). destruct Hinv as (_ & Hs0 & _).
    refine (conj Hk (conj _ Hc)).
    eapply same_stack_ok; [exact Hs0|exact Hss].
  - intros d Hd. destruct (map_get adjacency node) eqn:Eg; [|destruct Hd].
    eapply adjacency_local; eassumption.
  - now apply enter_inv.
Qed.

End Keys.

Section Findings.
Variable pf : Platform.


End Findings.
End CycleKeys.

(* ================================================================== *)
(** * The report *)
(* ================================================================== *)

Module ReportFacts.
Import Report.

Section ReportFacts.
Variable Issue : Type.
Variable severity : Issue -> IssueSeverity.
Variable estimatedImpact : Issue -> nat.
Variable withoutSuggestion : Issue -> Issue.

Local Notation "'rank' i" := (severityOrder (severity i)) (at level 10).

(** The order of the report: by severity, the most severe first, and
    within one severity by impact, the largest first. *)
Definition precedes (a b : Issue) : Prop :=
  rank a < rank b
  \/ (rank a = rank b /\ estimatedImpact b <= estimatedImpact a).

Lemma compare_precedes a b :
  (compareIssues severity estimatedImpact a b <=? 0)%Z = true
  <-> precedes a b.
Proof.
  unfold compareIssues, precedes. rewrite Z.leb_le.
  destruct (rank a =? rank b) eqn:E; cbn [negb].
  - apply Nat.eqb_eq in E. lia.
  - apply Nat.eqb_neq in E. lia.
Qed.

Lemma precedes_total a b : precedes a b \/ precedes b a.
Proof. unfold precedes. lia. Qed.

Lemma precedes_trans a b c : precedes a b -> precedes b c -> precedes a c.
Proof. unfold precedes. lia. Qed.

Local Notation "'insertI'" := (insertIssue severity estimatedImpact).
Local Notation "'sortI'" := (sortIssues severity estimatedImpact).

Lemma insertIssue_perm x l : Permutation (insertI x l) (x :: l).
Proof.
  induction l as [|y l IH]; cbn [insertIssue]; [reflexivity|].
  destruct (compareIssues severity estimatedImpact x y <=? 0)%Z;
    [reflexivity|].
  rewrite IH. apply perm_swap.
Qed.

Lemma sortIssues_perm l : Permutation (sortI l) l.
Proof.
  induction l as [|x l IH]; [reflexivity|].
  cbn [sortIssues fold_right]. fold (sortI l).
  rewrite insertIssue_perm. now constructor.
Qed.

Lemma insertIssue_sorted x l :
  StronglySorted precedes l -> StronglySorted precedes (insertI x l).
Proof.
  induction 1 as [|y l Hl IH Hy]; cbn [insertIssue].
  - repeat constructor.
  - destruct (compareIssues severity estimatedImpact x y <=? 0)%Z eqn:E.
    + apply compare_precedes in E. constructor; [now constructor|].
      constructor; [exact E|].
      eapply Forall_impl; [|exact Hy]. intros z. now apply precedes_trans.
    + assert (Hyx : precedes y x).
      { destruct (precedes_total x y) as [H|H]; [|exact H].
        apply compare_precedes in H. congruence. }
      constructor; [exact IH|].
      rewrite (Forall_forall (precedes y)). intros z Hz.
      apply (Permutation_in _ (insertIssue_perm x l)) in Hz.
      destruct Hz as [<-|Hz]; [exact Hyx|].
      now apply (proj1 (Forall_forall _ _) Hy).
Qed.

Lemma sortIssues_sorted l : StronglySorted precedes (sortI l).
Proof.
  induction l as [|x l IH]; [constructor|].
  cbn [sortIssues fold_right]. now apply insertIssue_sorted.
Qed.

(** Two issues of the same severity and impact. *)
Definition sameKey (x i : Issue) : bool :=
  (rank i =? rank x) && (estimatedImpact i =? estimatedImpact x).

Lemma insertIssue_stable x y l :
  filter (sameKey x) (insertI y l) = filter (sameKey x) (y :: l).
Proof.
  induction l as [|z l IH]; cbn [insertIssue]; [reflexivity|].
  destruct (compareIssues severity estimatedImpact y z <=? 0)%Z eqn:E;
    [reflexivity|].
  cbn [filter] in *. rewrite IH.
  destruct (sameKey x y) eqn:Ey; [|reflexivity].
  destruct (sameKey x z) eqn:Ez; [|reflexivity].
  exfalso. unfold sameKey in Ey, Ez.
  apply andb_true_iff in Ey as [H1 H2]. apply andb_true_iff in Ez as [H3 H4].
  apply Nat.eqb_eq in H1, H2, H3, H4.
  assert (Hp : precedes y z) by (unfold precedes; lia).
  apply compare_precedes in Hp. congruence.
Qed.

Lemma sortIssues_stable x l :
  filter (sameKey x) (sortI l) = filter (sameKey x) l.
Proof.
  induction l as [|y l IH]; [reflexivity|].
  cbn [sortIssues fold_right]. fold (sortI l).
  rewrite insertIssue_stable. cbn [filter]. now rewrite IH.
Qed.

Local Notation "'report'" :=
  (analyzeProject severity estimatedImpact withoutSuggestion).

(** The issues that pass the threshold, in the order of collection. *)
Definition atThreshold (threshold : nat) (collected : list Issue)
    : list Issue :=
  filter (fun issue => threshold <=? estimatedImpact issue) collected.

(** X18: the report holds the collected issues whose estimated impact is
    at least the threshold, each as often as it was collected, and no
    other issue; without suggestions, it holds these issues with the
    suggestion dropped. *)
Theorem report_keeps_issues_at_threshold (files : list str)
    (collected : list Issue) (threshold : nat) (showSuggestions : bool) :
  exists kept,
    Permutation kept (atThreshold threshold collected)
    /\ (forall i, In i kept
                  <-> In i collected /\ threshold <= estimatedImpact i)
    /\ issues (report files collected threshold showSuggestions)
       = if showSuggestions then kept else map withoutSuggestion kept.
Proof.
  exists (sortI (atThreshold threshold collected)).
  split; [apply sortIssues_perm|]. split; [|reflexivity].
  intros i. split.
  - intros H. apply (Permutation_in _ (sortIssues_perm _)) in H.
    apply filter_In in H as [H1 H2]. apply Nat.leb_le in H2. auto.
  - intros [H1 H2].
    apply (Permutation_in _ (Permutation_sym (sortIssues_perm _))).
    apply filter_In. split; [exact H1|now apply Nat.leb_le].
Qed.

(** X19: the issues of the report are in order of severity, critical
    first, and within one severity in order of impact, the largest first;
    issues of the same severity and impact keep the order in which the
    analyzers pushed them. *)
Theorem report_is_sorted_by_severity_then_impact (files : list str)
    (collected : list Issue) (threshold : nat) :
  let listed := issues (report files collected threshold true) in
  StronglySorted precedes listed
  /\ forall x, filter (sameKey x) listed
               = filter (sameKey x) (atThreshold threshold collected).
Proof.
  cbv zeta. cbn [analyzeProject issues]. split.
  - apply sortIssues_sorted.
  - intros x. apply sortIssues_stable.
Qed.

Lemma countOf_sum (l : list Issue) :
  length l
  = countOf severity Critical l + countOf severity High l
    + countOf severity Medium l + countOf severity Low l.
Proof.
  unfold countOf, severity_eqb. induction l as [|i l IH]; [reflexivity|].
  cbn [filter length].
  destruct (severity i); cbn [severityOrder Nat.eqb length] in *; lia.
Qed.

Lemma savings_sum (l : list Issue) : forall acc,
  fold_left (fun sum i => sum + estimatedImpact i) l acc
  = acc + list_sum (map estimatedImpact l).
Proof.
  induction l as [|i l IH]; intros acc; simpl; [lia|].
  rewrite IH. lia.
Qed.

Lemma list_sum_perm (l l' : list nat) :
  Permutation l l' -> list_sum l = list_sum l'.
Proof. induction 1; simpl; lia. Qed.

Lemma countOf_perm s (l l' : list Issue) :
  Permutation l l' -> countOf severity s l = countOf severity s l'.
Proof.
  unfold countOf. induction 1; cbn [filter length]; try lia.
  - destruct (severity_eqb (severity x) s); cbn [length]; lia.
  - destruct (severity_eqb (severity x) s), (severity_eqb (severity y) s);
      cbn [length]; lia.
Qed.

Lemma countOf_pos s (l : list Issue) :
  0 < countOf severity s l <-> exists i, In i l /\ severity i = s.
Proof.
  unfold countOf. split.
  - intros H. destruct (filter _ l) as [|i r] eqn:E; [simpl in H; lia|].
    assert (Hi : In i (filter (fun i => severity_eqb (severity i) s) l))
      by (rewrite E; now left).
    apply filter_In in Hi as [H1 H2]. exists i. split; [exact H1|].
    unfold severity_eqb in H2. apply Nat.eqb_eq in H2.
    destruct (severity i), s; try reflexivity; discriminate.
  - intros (i & Hi & <-).
    assert (H : In i (filter (fun j => severity_eqb (severity j) (severity i))
                        l)).
    { apply filter_In. split; [exact Hi|]. apply Nat.eqb_refl. }
    destruct (filter _ l); [destruct H|simpl; lia].
Qed.

(** X20: the summary of the report counts the issues of the report: the
    total is their number and the sum of the four counts by severity; the
    estimated savings are the sum of their impacts, hence at least the
    threshold for each issue; and the [analyze] command, once the
    analysis has returned, exits with code 1 exactly when a collected
    issue is critical and passes the threshold. *)
Theorem summary_counts_the_reported_issues (files : list str)
    (collected : list Issue) (threshold : nat) (showSuggestions : bool) :
  let r := report files collected threshold showSuggestions in
  let s := summary r in
  totalIssues s = length (issues r)
  /\ totalIssues s = length (atThreshold threshold collected)
  /\ totalIssues s
     = criticalCount s + highCount s + mediumCount s + lowCount s
  /\ estimatedSavings s
     = list_sum (map estimatedImpact (atThreshold threshold collected))
  /\ threshold * totalIssues s <= estimatedSavings s
  /\ analyzedFiles s = length files
  /\ (exitCode r = 1
      <-> exists i, In i collected /\ severity i = Critical
                    /\ threshold <= estimatedImpact i).
Proof.
  cbv zeta. unfold exitCode.
  cbn [analyzeProject summary issues totalIssues criticalCount highCount
         mediumCount lowCount estimatedSavings analyzedFiles].
  fold (atThreshold threshold collected).
  set (kept := sortI (atThreshold threshold collected)).
  assert (Hperm : Permutation kept (atThreshold threshold collected))
    by apply sortIssues_perm.
  assert (Hsum : fold_left (fun sum i => sum + estimatedImpact i) kept 0
                 = list_sum (map estimatedImpact
                               (atThreshold threshold collected))).
  { rewrite savings_sum. cbn [Nat.add].
    apply list_sum_perm, Permutation_map, Hperm. }
  repeat split.
  - destruct showSuggestions; [reflexivity|now rewrite length_map].
  - now apply Permutation_length.
  - apply countOf_sum.
  - exact Hsum.
  - rewrite Hsum, (Permutation_length Hperm). clear. unfold atThreshold.
    induction collected as [|i l IH]; simpl; [lia|].
    destruct (threshold <=? estimatedImpact i) eqn:E; [|exact IH].
    apply Nat.leb_le in E. simpl in *. lia.
  - intros H.
    destruct (0 <? countOf severity Critical kept) eqn:E; [|discriminate].
    apply Nat.ltb_lt, countOf_pos in E as (i & Hi & Hs).
    apply (Permutation_in _ Hperm), filter_In in Hi as [H1 H2].
    apply Nat.leb_le in H2. eauto.
  - intros (i & Hi & Hs & Ht).
    assert (E : 0 < countOf severity Critical kept).
    { apply countOf_pos. exists i. split; [|exact Hs].
      apply (Permutation_in _ (Permutation_sym Hperm)), filter_In.
      split; [exact Hi|now apply Nat.leb_le]. }
    apply Nat.ltb_lt in E. now rewrite E.
Qed.

End ReportFacts.
End ReportFacts.

(* ================================================================== *)
(** * Further examples *)
(* ================================================================== *)

Module MoreExamples.
Import Regex Fallback RegexFacts FallbackFacts GraphFacts ResolverFacts
  ReexportFacts Examples.

(** In [twoExports], [./a] from [b.ts] resolves to a file that exists. *)
Lemma resolved_path_example :
  startsWith (lit "./a") (lit ".") = true
  /\ (existsSync twoExports
        (Resolver.resolveImportPath twoExports bTs (lit "./a")) = true
      \/ (Resolver.resolveImportPath twoExports bTs (lit "./a")
          = resolve twoExports (dirname twoExports bTs) (lit "./a")
          /\ existsSync twoExports
               (resolve twoExports (dirname twoExports bTs) (lit "./a"))
             = false
          /\ Forall
               (fun ext =>
                  existsSync twoExports
                    (resolve twoExports (dirname twoExports bTs) (lit "./a")
                     ++ ext) = false)
               Resolver.RESOLVE_EXTENSIONS)).
Proof.
  split; [reflexivity|].
  exact (ResolverMore.resolved_path_exists_or_is_literal twoExports bTs
           (lit "./a") eq_refl).
Defined.

(** The files of [twoExports], listed in another order and one of them
    twice. *)
Lemma file_order_example :
  (forall f, In f [aTs; bTs] <-> In f [bTs; aTs; aTs])
  /\ (forall u,
        In u (findUnusedExports twoExports
                (buildExportGraph twoExports [aTs; bTs] root)
                [aTs; bTs] root)
        <-> In u (findUnusedExports twoExports
                    (buildExportGraph twoExports [bTs; aTs; aTs] root)
                    [bTs; aTs; aTs] root)).
Proof.
  assert (H : forall f, In f [aTs; bTs] <-> In f [bTs; aTs; aTs])
    by (intros f; simpl; tauto).
  split; [exact H|].
  exact (GraphMore.unused_exports_independent_of_file_order twoExports
           [aTs; bTs] [bTs; aTs; aTs] root H).
Defined.

(** [a.ts] declares [X] and [Y]; the TypeScript barrel [b.ts] re-exports
    all of it. *)
Definition wildcardText : str := lit "export * from './a';
let n: number = 1;".

Definition wildcardBarrel : Platform :=
  Demo.platform
    [(aTs, lit "export const X: number = 1;
export const Y: number = 2;");
     (bTs, wildcardText)]
    [root; lit "/p/src"] [].

Lemma wildcard_reexport_example :
  let files := [aTs; bTs] in
  let g := buildExportGraph wildcardBarrel files root in
  Resolver.resolveImportPath wildcardBarrel bTs (lit "./a") = aTs
  /\ map_get (exports g) aTs = Some [lit "X"; lit "Y"]
  /\ (exists names, map_get (exports g) bTs = Some names
                    /\ In (lit "* from ./a") names)
  /\ (exists recs,
        map_get (imports g) bTs = Some recs
        /\ In {| importedName := lit "*"; sourceFile := aTs |} recs)
  /\ forall u, In u (findUnusedExports wildcardBarrel g files root) ->
               ue_file u <> aTs /\ ue_exportName u <> lit "* from ./a".
Proof.
  split; [reflexivity|]. split; [reflexivity|].
  apply (GraphMore.wildcard_reexport_uses_every_export wildcardBarrel
           [aTs; bTs] root bTs wildcardText (lit "./a")).
  - right. left. reflexivity.
  - reflexivity.
  - unfold GraphMore.reexportsAll.
    change (acornParse wildcardBarrel wildcardText)
      with (@None (list Node)).
    eexists. split; [vm_compute; left; reflexivity|].
    split; reflexivity.
Defined.

(** [bar] of [a.ts] is unused in the run over both files of
    [twoExports], and therefore in the run over [a.ts] alone. *)
Lemma more_files_example :
  let u := {| ue_file := aTs; ue_exportName := lit "bar"; ue_line := 2 |} in
  In (ue_file u) [aTs]
  /\ In u (findUnusedExports twoExports
             (buildExportGraph twoExports ([aTs] ++ [bTs]) root)
             ([aTs] ++ [bTs]) root)
  /\ In u (findUnusedExports twoExports
             (buildExportGraph twoExports [aTs] root) [aTs] root).
Proof.
  cbv zeta.
  assert (H1 : In aTs [aTs]) by now left.
  assert (H2 : In {| ue_file := aTs; ue_exportName := lit "bar";
                     ue_line := 2 |}
                 (findUnusedExports twoExports
                    (buildExportGraph twoExports ([aTs] ++ [bTs]) root)
                    ([aTs] ++ [bTs]) root))
    by (vm_compute; left; reflexivity).
  split; [exact H1|]. split; [exact H2|].
  exact (GraphMore.more_files_no_new_findings twoExports [aTs] [bTs] root
           {| ue_file := aTs; ue_exportName := lit "bar"; ue_line := 2 |}
           H1 H2).
Defined.

(** *** Re-exports (C2) *)

(** C2, as the claim states it, fails: in this TypeScript text the
    re-export of [X] stands in real code at offset 26, where the brace
    pattern matches it; but the scan has gone over it with the match that
    starts at offset 3 inside the comment and runs to the quote before
    the specifier, and it rejects that one: [b.ts] gets no export and no
    import record, and [X] is reported unused in [a.ts]. *)
Definition missedText : str :=
  lit "/* export { A } from ' */ export { X } from './a';
const n: number = 1;".

Definition missed : Platform :=
  Demo.platform
    [(aTs, lit "export const X: number = 1;"); (bTs, missedText)]
    [root; lit "/p/src"] [].


(** *** Cycles (C3) *)

Lemma twoExports_separable : CycleKeys.separable twoExports root [aTs; bTs].
Proof.
  split.
  - intros x [<-|[<-|[]]] H; vm_compute in H;
      repeat (destruct H as [H|H]; [discriminate|]); exact H.
  - intros x y [<-|[<-|[]]] [<-|[<-|[]]] H; try reflexivity;
      vm_compute in H; discriminate.
Qed.


(** C3, as the claim states it, fails in two ways.

    In [collide] the file [b.ts] of the directory [a.ts|src] imports
    itself, and [a.ts] and [b.ts] import each other.  The key of the
    one-file cycle is its relative path [src/a.ts|src/b.ts], which is
    also the key of the pair: the traversal finds both cycles and reports
    the first only.

    In [detour] the files [a.ts] and [b.ts] import each other, and [a.ts]
    reaches [b.ts] through [d.ts] first: the traversal closes the cycle of
    the three files, leaves [b.ts] visited, and never comes upon the
    cycle of the pair. *)
Definition pipeTs : str := lit "/p/src/a.ts|src/b.ts".
Definition dTs : str := lit "/p/src/d.ts".

Definition collide : Platform :=
  Demo.platform
    [(pipeTs, lit "import { x } from './b';
export const x: number = 1;");
     (aTs, lit "import { b } from './b';
export const a: number = b;");
     (bTs, lit "import { a } from './a';
export const b: number = a;")]
    [root; lit "/p/src"; lit "/p/src/a.ts|src"] [].

Definition detour : Platform :=
  Demo.platform
    [(aTs, lit "import { d } from './d';
import { b } from './b';
export const a: number = b + d;");
     (dTs, lit "import { b } from './b';
export const d: number = b;");
     (bTs, lit "import { a } from './a';
export const b: number = a;")]
    [root; lit "/p/src"] [].


End MoreExamples.
